(** * Cycles wavefront path state: queue counters and control-flow macros

    Shallow embedding of
    - [intern/cycles/kernel/integrator/integrator_path_state.h]
      (the [IntegratorPathKernel] enum, the [IntegratorPathQueue] counters and
      the [INTEGRATOR_PATH_*] / [INTEGRATOR_SHADOW_PATH_*] macros, in both the
      [__KERNEL_GPU__] and the host variant),
    - the [DeviceQueue] interface of [device/device_queue.h],
    - the built-in "resolution" attribute of the curve component,
    - the curve component itself (ownership of its curve, attribute domains,
      the "cyclic" attribute),
    - the edge-factor extractor of the draw module (its control flow; the
      floating-point factor is left abstract).

    Integers are modelled as [Z]; the 32-bit wrap-around of the atomic
    counter updates is written out. *)

From Stdlib Require Import ZArith Lia Bool.
From stdpp Require Import base tactics option list numbers gmap.

Local Open Scope Z_scope.

(** ** The kernel enumeration *)

Inductive IntegratorPathKernel : Set :=
| INTEGRATOR_KERNEL_intersect_closest
| INTEGRATOR_KERNEL_intersect_shadow
| INTEGRATOR_KERNEL_intersect_subsurface
| INTEGRATOR_KERNEL_shade_background
| INTEGRATOR_KERNEL_shade_surface
| INTEGRATOR_KERNEL_shade_volume
| INTEGRATOR_KERNEL_shade_shadow.

#[global] Instance IntegratorPathKernel_eq_dec : EqDecision IntegratorPathKernel.
Proof. solve_decision. Defined.

(** The last enumerator, [INTEGRATOR_KERNEL_NUM]. *)
Definition INTEGRATOR_KERNEL_NUM : nat := 7.

(** The integer value of an enumerator (it starts at 0 and counts up). *)
Definition kernel_index (k : IntegratorPathKernel) : nat :=
  match k with
  | INTEGRATOR_KERNEL_intersect_closest => 0
  | INTEGRATOR_KERNEL_intersect_shadow => 1
  | INTEGRATOR_KERNEL_intersect_subsurface => 2
  | INTEGRATOR_KERNEL_shade_background => 3
  | INTEGRATOR_KERNEL_shade_surface => 4
  | INTEGRATOR_KERNEL_shade_volume => 5
  | INTEGRATOR_KERNEL_shade_shadow => 6
  end%nat.

Definition all_kernels : list IntegratorPathKernel :=
  [ INTEGRATOR_KERNEL_intersect_closest; INTEGRATOR_KERNEL_intersect_shadow;
    INTEGRATOR_KERNEL_intersect_subsurface; INTEGRATOR_KERNEL_shade_background;
    INTEGRATOR_KERNEL_shade_surface; INTEGRATOR_KERNEL_shade_volume;
    INTEGRATOR_KERNEL_shade_shadow ].

(** [(1 << INTEGRATOR_KERNEL_##k)] *)
Definition kernel_bit (k : IntegratorPathKernel) : Z :=
  Z.shiftl 1 (Z.of_nat (kernel_index k)).

(** ** Machine integers *)

Definition INT_MIN : Z := - 2 ^ 31.
Definition INT_MAX : Z := 2 ^ 31 - 1.

(** Reinterpretation of an [int] as a [uint32_t] and back. *)
Definition to_uint32 (z : Z) : Z := z mod 2 ^ 32.
Definition to_int32 (u : Z) : Z :=
  if Z.ltb (u mod 2 ^ 32) (2 ^ 31) then u mod 2 ^ 32 else u mod 2 ^ 32 - 2 ^ 32.

Definition int32_range (z : Z) : Prop := INT_MIN <= z <= INT_MAX.

(** ** State *)

(** [int num_queued[INTEGRATOR_KERNEL_NUM]] *)
Record IntegratorPathQueue : Type := mkQueue {
  num_queued : list Z
}.

(** The members of the integrator state that the control-flow macros access
    through [INTEGRATOR_STATE(path, ...)] and [INTEGRATOR_STATE(shadow_path, ...)].
    The state template that declares them is not part of the sources at hand;
    both members are unsigned integers, [queued_kernels] being wide enough for
    one bit per kernel, so that [|=] and [&= ~] never truncate. *)
Record PathFields : Type := mkPathFields {
  flag : Z;
  queued_kernels : Z
}.

Record IntegratorState : Type := mkIntegratorState {
  path : PathFields;
  shadow_path : PathFields
}.

(** What one macro invocation can see: the state of the current path and the
    queue the kernel was launched with. *)
Record KernelContext : Type := mkContext {
  state : IntegratorState;
  queue : IntegratorPathQueue
}.

(** [INTEGRATOR_PATH_IS_TERMINATED], [INTEGRATOR_SHADOW_PATH_IS_TERMINATED] *)
Definition INTEGRATOR_PATH_IS_TERMINATED (kc : KernelContext) : bool :=
  Z.eqb (flag (path (state kc))) 0.
Definition INTEGRATOR_SHADOW_PATH_IS_TERMINATED (kc : KernelContext) : bool :=
  Z.eqb (flag (shadow_path (state kc))) 0.

(** ** Statements *)

(** A statement transforms the context; [s1 ;; s2] runs [s1], then [s2]. *)
Definition Stmt : Type := KernelContext -> KernelContext.
Definition skip : Stmt := fun kc => kc.
Definition seq (s1 s2 : Stmt) : Stmt := fun kc => s2 (s1 kc).
Declare Scope stmt_scope.
Delimit Scope stmt_scope with stmt.
Bind Scope stmt_scope with Stmt.
Notation "s1 ;; s2" := (seq s1 s2) : stmt_scope.
Local Open Scope stmt_scope.

(** Modelled from the spec: [util/util_atomic.h] is absent.  The counters
    are updated with atomic fetch-and-add / fetch-and-sub semantics: the slot,
    read as a [uint32_t], is replaced by the sum (difference) modulo [2^32] and
    the previous value is returned. *)
Definition atomic_fetch_and_add_uint32 (slots : list Z) (i : nat) (x : Z)
  : Z * list Z :=
  let old := slots !!! i in
  (to_uint32 old, <[ i := to_int32 (to_uint32 old + x) ]> slots).
Definition atomic_fetch_and_sub_uint32 (slots : list Z) (i : nat) (x : Z)
  : Z * list Z :=
  let old := slots !!! i in
  (to_uint32 old, <[ i := to_int32 (to_uint32 old - x) ]> slots).

(** [atomic_fetch_and_add_uint32(&queue->num_queued[INTEGRATOR_KERNEL_##k], 1);]
    (the fetched value is discarded). *)
Definition queue_add (k : IntegratorPathKernel) : Stmt := fun kc =>
  {| state := state kc;
     queue := mkQueue
       (snd (atomic_fetch_and_add_uint32 (num_queued (queue kc)) (kernel_index k) 1)) |}.
Definition queue_sub (k : IntegratorPathKernel) : Stmt := fun kc =>
  {| state := state kc;
     queue := mkQueue
       (snd (atomic_fetch_and_sub_uint32 (num_queued (queue kc)) (kernel_index k) 1)) |}.

(** [INTEGRATOR_STATE_WRITE(path, queued_kernels) |= v;] and the like. *)
Definition write_path (f : PathFields -> PathFields) : Stmt := fun kc =>
  {| state := {| path := f (path (state kc)); shadow_path := shadow_path (state kc) |};
     queue := queue kc |}.
Definition write_shadow_path (f : PathFields -> PathFields) : Stmt := fun kc =>
  {| state := {| path := path (state kc); shadow_path := f (shadow_path (state kc)) |};
     queue := queue kc |}.

Definition queued_or (v : Z) (p : PathFields) : PathFields :=
  {| flag := flag p; queued_kernels := Z.lor (queued_kernels p) v |}.
Definition queued_and (v : Z) (p : PathFields) : PathFields :=
  {| flag := flag p; queued_kernels := Z.land (queued_kernels p) v |}.
Definition flag_assign (v : Z) (p : PathFields) : PathFields :=
  {| flag := v; queued_kernels := queued_kernels p |}.

(** ** The macros, [#ifdef __KERNEL_GPU__] *)

Module Gpu.

Definition INTEGRATOR_PATH_INIT (next_kernel : IntegratorPathKernel) : Stmt :=
  queue_add next_kernel ;;
  write_path (queued_or (kernel_bit next_kernel)).

Definition INTEGRATOR_PATH_NEXT (current_kernel next_kernel : IntegratorPathKernel) : Stmt :=
  queue_sub current_kernel ;;
  queue_add next_kernel ;;
  write_path (queued_or (kernel_bit next_kernel)) ;;
  write_path (queued_and (Z.lnot (kernel_bit current_kernel))).

Definition INTEGRATOR_PATH_TERMINATE (current_kernel : IntegratorPathKernel) : Stmt :=
  queue_sub current_kernel ;;
  write_path (queued_and (Z.lnot (kernel_bit current_kernel))) ;;
  write_path (flag_assign 0).

Definition INTEGRATOR_SHADOW_PATH_INIT (next_kernel : IntegratorPathKernel) : Stmt :=
  queue_add next_kernel ;;
  write_shadow_path (queued_or (kernel_bit next_kernel)).

Definition INTEGRATOR_SHADOW_PATH_NEXT
    (current_kernel next_kernel : IntegratorPathKernel) : Stmt :=
  queue_sub current_kernel ;;
  queue_add next_kernel ;;
  write_shadow_path (queued_or (kernel_bit next_kernel)) ;;
  write_shadow_path (queued_and (Z.lnot (kernel_bit current_kernel))).

Definition INTEGRATOR_SHADOW_PATH_TERMINATE (current_kernel : IntegratorPathKernel) : Stmt :=
  queue_sub current_kernel ;;
  write_shadow_path (queued_and (Z.lnot (kernel_bit current_kernel))) ;;
  write_shadow_path (flag_assign 0).

End Gpu.

(** ** The macros, [#else] (host) *)

Module Host.

Definition INTEGRATOR_PATH_INIT (next_kernel : IntegratorPathKernel) : Stmt := skip.
Definition INTEGRATOR_PATH_NEXT (current_kernel next_kernel : IntegratorPathKernel) : Stmt :=
  skip.
Definition INTEGRATOR_PATH_TERMINATE (current_kernel : IntegratorPathKernel) : Stmt :=
  write_path (flag_assign 0).

Definition INTEGRATOR_SHADOW_PATH_INIT (next_kernel : IntegratorPathKernel) : Stmt := skip.
Definition INTEGRATOR_SHADOW_PATH_NEXT
    (current_kernel next_kernel : IntegratorPathKernel) : Stmt := skip.
Definition INTEGRATOR_SHADOW_PATH_TERMINATE (current_kernel : IntegratorPathKernel) : Stmt :=
  write_shadow_path (flag_assign 0).

End Host.

(** Reading a counter slot, [queue->num_queued[INTEGRATOR_KERNEL_##k]]. *)
Definition counter (k : IntegratorPathKernel) (kc : KernelContext) : Z :=
  num_queued (queue kc) !!! kernel_index k.

(** The queue of a context is well formed when the array has its declared
    length and every slot holds an [int]. *)
Definition queue_wf (q : IntegratorPathQueue) : Prop :=
  length (num_queued q) = INTEGRATOR_KERNEL_NUM /\ Forall int32_range (num_queued q).

(** Is kernel [k]'s bit set in a path's queued-kernel bitmask? *)
Definition queued_on (k : IntegratorPathKernel) (p : PathFields) : bool :=
  Z.testbit (queued_kernels p) (Z.of_nat (kernel_index k)).

(** ** Sequences of macro invocations *)

(** One invocation of a control-flow macro, with its kernel arguments. *)
Inductive MacroCall : Set :=
| PATH_INIT (next_kernel : IntegratorPathKernel)
| PATH_NEXT (current_kernel next_kernel : IntegratorPathKernel)
| PATH_TERMINATE (current_kernel : IntegratorPathKernel)
| SHADOW_PATH_INIT (next_kernel : IntegratorPathKernel)
| SHADOW_PATH_NEXT (current_kernel next_kernel : IntegratorPathKernel)
| SHADOW_PATH_TERMINATE (current_kernel : IntegratorPathKernel).

Definition is_shadow_call (m : MacroCall) : bool :=
  match m with
  | PATH_INIT _ | PATH_NEXT _ _ | PATH_TERMINATE _ => false
  | SHADOW_PATH_INIT _ | SHADOW_PATH_NEXT _ _ | SHADOW_PATH_TERMINATE _ => true
  end.
Definition is_main_call (m : MacroCall) : bool := negb (is_shadow_call m).

(** The statement a call expands to when [__KERNEL_GPU__] is defined ... *)
Definition gpu_exec (m : MacroCall) : Stmt :=
  match m with
  | PATH_INIT n => Gpu.INTEGRATOR_PATH_INIT n
  | PATH_NEXT c n => Gpu.INTEGRATOR_PATH_NEXT c n
  | PATH_TERMINATE c => Gpu.INTEGRATOR_PATH_TERMINATE c
  | SHADOW_PATH_INIT n => Gpu.INTEGRATOR_SHADOW_PATH_INIT n
  | SHADOW_PATH_NEXT c n => Gpu.INTEGRATOR_SHADOW_PATH_NEXT c n
  | SHADOW_PATH_TERMINATE c => Gpu.INTEGRATOR_SHADOW_PATH_TERMINATE c
  end.

(** ... and when it is not. *)
Definition host_exec (m : MacroCall) : Stmt :=
  match m with
  | PATH_INIT n => Host.INTEGRATOR_PATH_INIT n
  | PATH_NEXT c n => Host.INTEGRATOR_PATH_NEXT c n
  | PATH_TERMINATE c => Host.INTEGRATOR_PATH_TERMINATE c
  | SHADOW_PATH_INIT n => Host.INTEGRATOR_SHADOW_PATH_INIT n
  | SHADOW_PATH_NEXT c n => Host.INTEGRATOR_SHADOW_PATH_NEXT c n
  | SHADOW_PATH_TERMINATE c => Host.INTEGRATOR_SHADOW_PATH_TERMINATE c
  end.

(** Running a sequence of calls, first call first. *)
Fixpoint run (exec : MacroCall -> Stmt) (ms : list MacroCall) : Stmt :=
  match ms with
  | [] => skip
  | m :: ms' => exec m ;; run exec ms'
  end.

(** Forgetting the bookkeeping: every counter and both queued-kernel
    bitmasks are blanked, the rest of the context is kept. *)
Definition erase_bookkeeping (kc : KernelContext) : KernelContext :=
  {| state := {| path := {| flag := flag (path (state kc)); queued_kernels := 0 |};
                 shadow_path := {| flag := flag (shadow_path (state kc));
                                   queued_kernels := 0 |} |};
     queue := mkQueue [] |}.

(** ** Concrete states used in examples *)

(** A queue with every counter at zero and a path that was never queued. *)
Definition zero_queue : IntegratorPathQueue :=
  mkQueue (replicate INTEGRATOR_KERNEL_NUM 0).
Definition fresh_path : PathFields := {| flag := 0; queued_kernels := 0 |}.
Definition fresh_state : IntegratorState :=
  {| path := fresh_path; shadow_path := fresh_path |}.
Definition fresh_context : KernelContext :=
  {| state := fresh_state; queue := zero_queue |}.

(** A camera path as the init kernel leaves it: the flag has been written
    (any non-zero value; 1 here) and [INTEGRATOR_PATH_INIT(intersect_closest)]
    has run. *)
Definition camera_context : KernelContext :=
  Gpu.INTEGRATOR_PATH_INIT INTEGRATOR_KERNEL_intersect_closest
    (write_path (flag_assign 1) fresh_context).

(** ** The control-flow protocol over a batch of paths *)

(** A path state carries two paths, the main path and its shadow path. *)
Inductive Lane : Set := Main | Shadow.

Definition lane_fields (l : Lane) (s : IntegratorState) : PathFields :=
  match l with Main => path s | Shadow => shadow_path s end.

Definition write_lane (l : Lane) (f : PathFields -> PathFields) : Stmt :=
  match l with Main => write_path f | Shadow => write_shadow_path f end.

(** What a kernel does to one lane of the path state it runs on.  The
    header comment requires each kernel to call exactly one of the three
    macros.

    Modelled from the spec: the kernels that create paths are absent, and the
    macros themselves never write a non-zero flag.  A freshly created path is
    marked live by its creating kernel next to the INIT call; [TInit f k]
    stands for "write [f] to the flag, then INIT([k])", with [f] any non-zero
    value. *)
Inductive Transition : Set :=
| TInit (f : Z) (next_kernel : IntegratorPathKernel)
| TNext (current_kernel next_kernel : IntegratorPathKernel)
| TTerminate (current_kernel : IntegratorPathKernel).

Definition lane_call (l : Lane) (t : Transition) : MacroCall :=
  match l, t with
  | Main, TInit _ n => PATH_INIT n
  | Main, TNext c n => PATH_NEXT c n
  | Main, TTerminate c => PATH_TERMINATE c
  | Shadow, TInit _ n => SHADOW_PATH_INIT n
  | Shadow, TNext c n => SHADOW_PATH_NEXT c n
  | Shadow, TTerminate c => SHADOW_PATH_TERMINATE c
  end.

Definition transition_stmt (l : Lane) (t : Transition) : Stmt :=
  match t with
  | TInit f _ => write_lane l (flag_assign f) ;; gpu_exec (lane_call l t)
  | _ => gpu_exec (lane_call l t)
  end.

(** Ghost state: the kernel each lane is actually queued on, if any.  It is
    what the scheduler will run next for the path, independently of what the
    bitmask says. *)
Record Ghost : Set := mkGhost {
  waiting_main : option IntegratorPathKernel;
  waiting_shadow : option IntegratorPathKernel
}.

Definition waiting (l : Lane) (g : Ghost) : option IntegratorPathKernel :=
  match l with Main => waiting_main g | Shadow => waiting_shadow g end.

Definition set_waiting (l : Lane) (w : option IntegratorPathKernel) (g : Ghost) : Ghost :=
  match l with
  | Main => {| waiting_main := w; waiting_shadow := waiting_shadow g |}
  | Shadow => {| waiting_main := waiting_main g; waiting_shadow := w |}
  end.

(** The protocol precondition: INIT is for a lane that is not queued and
    makes it live; NEXT and TERMINATE name the kernel the lane is queued on. *)
Definition permitted (l : Lane) (t : Transition) (g : Ghost) : bool :=
  match t with
  | TInit f _ => bool_decide (waiting l g = None) && negb (Z.eqb f 0)
  | TNext c _ => bool_decide (waiting l g = Some c)
  | TTerminate c => bool_decide (waiting l g = Some c)
  end.

Definition waiting_after (t : Transition) : option IntegratorPathKernel :=
  match t with
  | TInit _ n => Some n
  | TNext _ n => Some n
  | TTerminate _ => None
  end.

(** A NEXT that names the same kernel twice. *)
Definition self_transition (t : Transition) : bool :=
  match t with
  | TNext c n => bool_decide (c = n)
  | _ => false
  end.

(** A batch: the path states with their ghosts, and the queue they share. *)
Record System : Type := mkSystem {
  paths : list (IntegratorState * Ghost);
  shared : IntegratorPathQueue
}.

(** An event: path state [i], a lane, and what the kernel does to it. *)
Definition Event : Type := nat * Lane * Transition.

Definition event_transition (e : Event) : Transition := snd e.

Definition sys_step (e : Event) (sys : System) : option System :=
  let '(i, l, t) := e in
  match paths sys !! i with
  | Some (s, g) =>
      if permitted l t g then
        let kc' := transition_stmt l t {| state := s; queue := shared sys |} in
        Some {| paths := <[ i := (state kc', set_waiting l (waiting_after t) g) ]> (paths sys);
                shared := queue kc' |}
      else None
  | None => None
  end.

Fixpoint sys_run (es : list Event) (sys : System) : option System :=
  match es with
  | [] => Some sys
  | e :: es' =>
      match sys_step e sys with
      | Some sys' => sys_run es' sys'
      | None => None
      end
  end.

(** The all-zero state without live paths, for a batch of [n] path states. *)
Definition initial_system (n : nat) : System :=
  {| paths := replicate n (fresh_state, mkGhost None None);
     shared := zero_queue |}.

(** Sums. *)
Fixpoint sumZ {A : Type} (f : A -> Z) (l : list A) : Z :=
  match l with
  | [] => 0
  | x :: l' => f x + sumZ f l'
  end.

(** [sum(KernelQueueCounters)] *)
Definition sum_queued (q : IntegratorPathQueue) : Z := sumZ (fun z => z) (num_queued q).

Definition live (p : PathFields) : Z := if Z.eqb (flag p) 0 then 0 else 1.

(** The number of paths, main or shadow, whose liveness flag is set. *)
Definition live_count (ps : list (IntegratorState * Ghost)) : Z :=
  sumZ (fun p => live (path (fst p)) + live (shadow_path (fst p))) ps.

Definition is_waiting (k : IntegratorPathKernel) (w : option IntegratorPathKernel) : Z :=
  if decide (w = Some k) then 1 else 0.

Definition is_queued (w : option IntegratorPathKernel) : Z :=
  match w with Some _ => 1 | None => 0 end.

(** The number of lanes queued on kernel [k]. *)
Definition count_waiting (k : IntegratorPathKernel) (ps : list (IntegratorState * Ghost)) : Z :=
  sumZ (fun p => is_waiting k (waiting_main (snd p)) + is_waiting k (waiting_shadow (snd p))) ps.

(** ** Invariants of the protocol *)

#[global] Instance Lane_eq_dec : EqDecision Lane.
Proof. solve_decision. Defined.

(** The bitmask of a lane says exactly which kernel the lane is queued on;
    a lane that is not queued has a zero bitmask and a zero flag. *)
Definition lane_mask_ok (l : Lane) (p : IntegratorState * Ghost) : Prop :=
  match waiting l (snd p) with
  | Some k => queued_kernels (lane_fields l (fst p)) = kernel_bit k
  | None => queued_kernels (lane_fields l (fst p)) = 0 /\ flag (lane_fields l (fst p)) = 0
  end.

Definition mask_inv (sys : System) : Prop :=
  Forall (fun p => forall l, lane_mask_ok l p) (paths sys).

(** A lane is live exactly when it is queued on some kernel. *)
Definition lane_live_ok (l : Lane) (p : IntegratorState * Ghost) : Prop :=
  flag (lane_fields l (fst p)) <> 0 <-> waiting l (snd p) <> None.

(** Every counter holds the number of lanes queued on its kernel. *)
Definition acct_inv (sys : System) : Prop :=
  queue_wf (shared sys)
  /\ (forall k, num_queued (shared sys) !!! kernel_index k = count_waiting k (paths sys))
  /\ Forall (fun p => forall l, lane_live_ok l p) (paths sys).

Definition indicator (b : bool) : Z := if b then 1 else 0.

(** The change a transition makes to the number of lanes queued on [k]. *)
Definition delta (k : IntegratorPathKernel) (t : Transition) : Z :=
  match t with
  | TInit _ n => indicator (bool_decide (k = n))
  | TNext c n => indicator (bool_decide (k = n)) - indicator (bool_decide (k = c))
  | TTerminate c => - indicator (bool_decide (k = c))
  end.

(** ** Example runs *)

(** One camera path: created, then moved from [intersect_closest] to
    [shade_surface]. *)
Definition bounce_run : list Event :=
  [ (0%nat, Main, TInit 1 INTEGRATOR_KERNEL_intersect_closest);
    (0%nat, Main, TNext INTEGRATOR_KERNEL_intersect_closest INTEGRATOR_KERNEL_shade_surface) ].

(** One camera path: created, then re-queued on the kernel it came from. *)
Definition requeue_run : list Event :=
  [ (0%nat, Main, TInit 1 INTEGRATOR_KERNEL_intersect_closest);
    (0%nat, Main, TNext INTEGRATOR_KERNEL_intersect_closest INTEGRATOR_KERNEL_intersect_closest) ].

(** One camera path that spawns a shadow path; both run to termination. *)
Definition drain_run : list Event :=
  [ (0%nat, Main, TInit 1 INTEGRATOR_KERNEL_intersect_closest);
    (0%nat, Main, TNext INTEGRATOR_KERNEL_intersect_closest INTEGRATOR_KERNEL_shade_surface);
    (0%nat, Shadow, TInit 1 INTEGRATOR_KERNEL_intersect_shadow);
    (0%nat, Main, TNext INTEGRATOR_KERNEL_shade_surface INTEGRATOR_KERNEL_intersect_closest);
    (0%nat, Shadow, TNext INTEGRATOR_KERNEL_intersect_shadow INTEGRATOR_KERNEL_shade_shadow);
    (0%nat, Shadow, TTerminate INTEGRATOR_KERNEL_shade_shadow);
    (0%nat, Main, TNext INTEGRATOR_KERNEL_intersect_closest INTEGRATOR_KERNEL_shade_background);
    (0%nat, Main, TTerminate INTEGRATOR_KERNEL_shade_background) ].

(** ** The device queue *)

(** [DeviceKernel] comes from [device/device_kernel.h], which is absent; a
    kernel is identified by its number. *)
Definition DeviceKernel : Set := nat.

(** Work handed to the device: the kernel, its [work_size], and whether its
    execution will turn out to have succeeded. *)
Record QueuedWork : Set := mkWork {
  work_kernel : DeviceKernel;
  work_size : Z;
  work_succeeds : bool
}.

(** Modelled from the spec: [DeviceQueue] is a pure virtual interface and no
    implementation of it is present.  A queue remembers whether there was an
    error executing a kernel on it ([have_error]), the work enqueued since the
    last successful drain ([in_flight]) and the work known to be complete
    ([completed]). *)
Record DeviceQueue : Set := mkDeviceQueue {
  have_error : bool;
  in_flight : list QueuedWork;
  completed : list QueuedWork
}.

(** Modelled from the spec: [enqueue] returns false if this or any prior
    enqueue on the queue has failed.  [launch_ok] says whether the device
    accepts this launch; accepted work is in flight until the queue drains. *)
Definition enqueue (kernel : DeviceKernel) (size : Z) (launch_ok succeeds : bool)
    (q : DeviceQueue) : bool * DeviceQueue :=
  let err := have_error q || negb launch_ok in
  (negb err,
   {| have_error := err;
      in_flight := if launch_ok
                   then in_flight q ++ [mkWork kernel size succeeds]
                   else in_flight q;
      completed := completed q |}).

(** Modelled from the spec: [synchronize] waits for all enqueued work and
    returns false if any enqueued kernel reported failure; only when it
    returns true is the enqueued work complete. *)
Definition synchronize (q : DeviceQueue) : bool * DeviceQueue :=
  let err := have_error q || negb (forallb work_succeeds (in_flight q)) in
  if err
  then (false, {| have_error := true; in_flight := in_flight q; completed := completed q |})
  else (true, {| have_error := false; in_flight := [];
                 completed := completed q ++ in_flight q |}).

(** Calls made on a queue, with what the device does on each enqueue. *)
Inductive QueueCall : Set :=
| CallEnqueue (kernel : DeviceKernel) (size : Z) (launch_ok succeeds : bool)
| CallSynchronize.

Definition queue_call (c : QueueCall) (q : DeviceQueue) : bool * DeviceQueue :=
  match c with
  | CallEnqueue k n l s => enqueue k n l s q
  | CallSynchronize => synchronize q
  end.

(** The queue after a sequence of calls, first call first. *)
Fixpoint queue_calls (cs : list QueueCall) (q : DeviceQueue) : DeviceQueue :=
  match cs with
  | [] => q
  | c :: cs' => queue_calls cs' (snd (queue_call c q))
  end.

(** A queue is doomed when an error is recorded or failing work is in flight. *)
Definition doomed (q : DeviceQueue) : bool :=
  have_error q || negb (forallb work_succeeds (in_flight q)).

(** A queue as [Device] hands it out. *)
Definition new_queue : DeviceQueue :=
  {| have_error := false; in_flight := []; completed := [] |}.

(** ** The curve component's "resolution" attribute *)

(** [BKE_derived_curve.hh] is absent: [Spline] is taken through the member
    functions that [get_spline_resolution] and [set_spline_resolution] call,
    with the laws of a stored field and of a cache flag. *)
Class SplineOps (Spline : Type) : Type := {
  resolution : Spline -> Z;
  set_resolution : Z -> Spline -> Spline;
  mark_cache_invalid : Spline -> Spline;
  cache_invalid : Spline -> bool;
  resolution_set_resolution : forall v s, resolution (set_resolution v s) = v;
  resolution_mark_cache_invalid : forall s, resolution (mark_cache_invalid s) = resolution s;
  cache_invalid_mark : forall s, cache_invalid (mark_cache_invalid s) = true
}.

Section Resolution.
Context {Spline : Type} `{SplineOps Spline}.

Definition get_spline_resolution (spline : Spline) : Z := resolution spline.

(** [spline->set_resolution(std::max(resolution, 1)); spline->mark_cache_invalid();] *)
Definition set_spline_resolution (spline : Spline) (r : Z) : Spline :=
  mark_cache_invalid (set_resolution (Z.max r 1) spline).

(** [attribute_access_intern.hh] is absent: a [DerivedArrayWriteAttribute]
    over a span applies its [SetFunc] to the element at the index that is
    written and its [GetFunc] to the element that is read; an index outside
    the span is not a valid access. *)
Definition derived_array_set {Elem : Type} (set_func : Spline -> Elem -> Spline)
    (data : list Spline) (index : nat) (value : Elem) : option (list Spline) :=
  match data !! index with
  | Some s => Some (<[ index := set_func s value ]> data)
  | None => None
  end.

Definition derived_array_get {Elem : Type} (get_func : Spline -> Elem)
    (data : list Spline) (index : nat) : option Elem :=
  get_func <$> data !! index.

(** The attribute that [make_resolution_write_attribute] builds over
    [curve.splines]: its writes and its reads. *)
Definition resolution_attribute_set (splines : list Spline) (index : nat) (r : Z)
  : option (list Spline) :=
  derived_array_set set_spline_resolution splines index r.

Definition resolution_attribute_get (splines : list Spline) (index : nat) : option Z :=
  derived_array_get get_spline_resolution splines index.

End Resolution.

(** A spline reduced to the members the resolution attribute reaches. *)
Record PlainSpline : Set := mkPlainSpline {
  resolution_u : Z;
  cache_dirty : bool
}.

#[global, refine] Instance PlainSpline_ops : SplineOps PlainSpline := {|
  resolution := resolution_u;
  set_resolution := fun v s => {| resolution_u := v; cache_dirty := cache_dirty s |};
  mark_cache_invalid := fun s => {| resolution_u := resolution_u s; cache_dirty := true |};
  cache_invalid := cache_dirty
|}.
Proof. all: reflexivity. Defined.

(** ** Further notions for the control-flow macros *)

(** What a call adds to the counter of kernel [k]. *)
Definition call_delta (k : IntegratorPathKernel) (m : MacroCall) : Z :=
  match m with
  | PATH_INIT n | SHADOW_PATH_INIT n => indicator (bool_decide (k = n))
  | PATH_NEXT c n | SHADOW_PATH_NEXT c n =>
      indicator (bool_decide (k = n)) - indicator (bool_decide (k = c))
  | PATH_TERMINATE c | SHADOW_PATH_TERMINATE c => - indicator (bool_decide (k = c))
  end.

(** A bitmask that fits an unsigned member of [w] bits. *)
Definition fits_unsigned (w : Z) (m : Z) : Prop := 0 <= m < 2 ^ w.


(** ** The edge-factor extractor *)

(** [draw_cache_extract_mesh_private.h] and [DNA_meshdata_types.h] are
    absent.  Of the mesh structures only the members that the extractor reads
    are kept; a vertex ([MVert]) and a face normal are opaque, and so is the
    value of the flag bit [ME_EDGERENDER]. *)
Record MLoop : Set := mkMLoop {
  ml_v : nat;  (* unsigned int v *)
  ml_e : nat   (* unsigned int e *)
}.

Record MEdge : Set := mkMEdge {
  med_flag : Z  (* short flag *)
}.

Record MPoly : Set := mkMPoly {
  loopstart : Z;
  totloop : Z
}.

Inductive eMRExtractType : Set := MR_EXTRACT_BMESH | MR_EXTRACT_MAPPED | MR_EXTRACT_MESH.

Record MeshRenderData (V N : Type) : Type := mkMeshRenderData {
  extract_type : eMRExtractType;
  loop_len : Z;
  loop_loose_len : Z;
  edge_len : Z;
  mloop : list MLoop;
  medge : list MEdge;
  mvert : list V;
  poly_normals : list N
}.
Arguments extract_type {V N} _.
Arguments loop_len {V N} _.
Arguments loop_loose_len {V N} _.
Arguments edge_len {V N} _.
Arguments mloop {V N} _.
Arguments medge {V N} _.
Arguments mvert {V N} _.
Arguments poly_normals {V N} _.

(** [MeshExtract_EdgeFac_Data]; the two buffers are arrays of [uchar]. *)
Record MeshExtract_EdgeFac_Data : Set := mkEdgeFacData {
  vbo_data : list Z;
  use_edge_render : bool;
  edge_loop_count : list Z
}.

(** Reading and writing an array at an [int] index; an index outside the
    array is not a valid access. *)
Definition array_get {A : Type} (a : list A) (i : Z) : option A :=
  if Z.ltb i 0 then None else a !! Z.to_nat i.

Definition array_set {A : Type} (a : list A) (i : Z) (x : A) : option (list A) :=
  if Z.ltb i 0 then None
  else if Nat.ltb (Z.to_nat i) (length a) then Some (<[ Z.to_nat i := x ]> a)
  else None.

Section EdgeFac.
Context {V N : Type}.
(** The flag bit of [MEdge::flag] that marks an edge as drawn. *)
Variable ME_EDGERENDER : Z.
(** The byte that [ratio * 253 + 1] yields for
    [ratio = loop_edge_factor_get(f_no, v1->co, vnor_f, v2->co)]; the
    floating-point computation itself is not modelled. *)
Variable factor_byte : N -> V -> V -> Z.

(** An edge whose [ME_EDGERENDER] bit is clear. *)
Definition edge_hidden (e : MEdge) : bool :=
  Z.eqb (Z.land (med_flag e) ME_EDGERENDER) 0.

(** The scan of [extract_edge_fac_init]:
    [for (e_index = 0; e_index < mr->edge_len; e_index++, med++)], leaving with
    [true] at the first edge whose [ME_EDGERENDER] bit is clear. *)
Fixpoint edge_render_scan (n : nat) (med : list MEdge) (use : bool) : option bool :=
  match n with
  | O => Some use
  | S n' =>
      match med with
      | [] => None
      | e :: med' =>
          if Z.eqb (Z.land (med_flag e) ME_EDGERENDER) 0 then Some true
          else edge_render_scan n' med' use
      end
  end.

(** [extract_edge_fac_init].  [fresh_vbo] is the freshly allocated vertex
    buffer, [mr->loop_len + mr->loop_loose_len] bytes of whatever the
    allocator left there; the count buffer comes zeroed from [MEM_callocN]. *)
Definition extract_edge_fac_init (mr : MeshRenderData V N) (fresh_vbo : list Z)
    (data : MeshExtract_EdgeFac_Data) : option MeshExtract_EdgeFac_Data :=
  match extract_type mr with
  | MR_EXTRACT_MESH =>
      match edge_render_scan (Z.to_nat (edge_len mr)) (medge mr) (use_edge_render data) with
      | Some use =>
          Some {| vbo_data := fresh_vbo;
                  use_edge_render := use;
                  edge_loop_count := replicate (4 * Z.to_nat (edge_len mr)) 0 |}
      | None => None
      end
  | _ =>
      Some {| vbo_data := fresh_vbo;
              use_edge_render := true;
              edge_loop_count := edge_loop_count data |}
  end.

(** The body of the loop of [extract_edge_fac_iter_poly_mesh], for one
    [ml_index]. *)
Definition edge_fac_loop_body (mr : MeshRenderData V N) (mp : MPoly) (mp_index : Z)
    (ml_index : Z) (data : MeshExtract_EdgeFac_Data) : option MeshExtract_EdgeFac_Data :=
  match array_get (mloop mr) ml_index with
  | None => None
  | Some ml =>
      if use_edge_render data then
        match medge mr !! ml_e ml with
        | None => None
        | Some med =>
            match array_set (vbo_data data) ml_index
                    (if Z.eqb (Z.land (med_flag med) ME_EDGERENDER) 0 then 0 else 255) with
            | None => None
            | Some vbo' =>
                Some {| vbo_data := vbo'; use_edge_render := true;
                        edge_loop_count := edge_loop_count data |}
            end
        end
      else
        match edge_loop_count data !! ml_e ml with
        | None => None
        | Some cnt =>
            (* Count loop per edge to detect non-manifold. *)
            let cnt' := if Z.ltb cnt 3 then cnt + 1 else cnt in
            let counts' := <[ ml_e ml := cnt' ]> (edge_loop_count data) in
            if Z.eqb cnt' 2 then
              (* Manifold *)
              let ml_index_last := totloop mp + loopstart mp - 1 in
              let ml_index_other :=
                if Z.eqb ml_index ml_index_last then loopstart mp else ml_index + 1 in
              match array_get (mloop mr) ml_index_other with
              | None => None
              | Some ml_next =>
                  match mvert mr !! ml_v ml, mvert mr !! ml_v ml_next,
                        array_get (poly_normals mr) mp_index with
                  | Some v1, Some v2, Some f_no =>
                      match array_set (vbo_data data) ml_index (factor_byte f_no v1 v2) with
                      | None => None
                      | Some vbo' =>
                          Some {| vbo_data := vbo'; use_edge_render := false;
                                  edge_loop_count := counts' |}
                      end
                  | _, _, _ => None
                  end
              end
            else
              (* Non-manifold *)
              match array_set (vbo_data data) ml_index 255 with
              | None => None
              | Some vbo' =>
                  Some {| vbo_data := vbo'; use_edge_render := false;
                          edge_loop_count := counts' |}
              end
        end
  end.

(** [for (ml_index = mp->loopstart; ml_index < ml_index_end; ml_index += 1)],
    with [n] iterations to go. *)
Fixpoint edge_fac_loops (mr : MeshRenderData V N) (mp : MPoly) (mp_index : Z)
    (n : nat) (ml_index : Z) (data : MeshExtract_EdgeFac_Data)
  : option MeshExtract_EdgeFac_Data :=
  match n with
  | O => Some data
  | S n' =>
      match edge_fac_loop_body mr mp mp_index ml_index data with
      | None => None
      | Some data' => edge_fac_loops mr mp mp_index n' (ml_index + 1) data'
      end
  end.

Definition extract_edge_fac_iter_poly_mesh (mr : MeshRenderData V N) (mp : MPoly)
    (mp_index : Z) (data : MeshExtract_EdgeFac_Data) : option MeshExtract_EdgeFac_Data :=
  edge_fac_loops mr mp mp_index (Z.to_nat (totloop mp)) (loopstart mp) data.

(** [mr->loop_len + ledge_index * 2 + k], computed in [int]: each operation
    wraps at 32 bits, as the compiled code does. *)
Definition ledge_byte_index (mr : MeshRenderData V N) (ledge_index : Z) (k : Z) : Z :=
  to_int32 (to_int32 (loop_len mr + to_int32 (ledge_index * 2)) + k).

(** [extract_edge_fac_iter_ledge_mesh] (and [extract_edge_fac_iter_ledge_bm],
    which has the same body). *)
Definition extract_edge_fac_iter_ledge_mesh (mr : MeshRenderData V N) (ledge_index : Z)
    (data : MeshExtract_EdgeFac_Data) : option MeshExtract_EdgeFac_Data :=
  match array_set (vbo_data data) (ledge_byte_index mr ledge_index 0) 255 with
  | None => None
  | Some vbo1 =>
      match array_set vbo1 (ledge_byte_index mr ledge_index 1) 255 with
      | None => None
      | Some vbo2 =>
          Some {| vbo_data := vbo2; use_edge_render := use_edge_render data;
                  edge_loop_count := edge_loop_count data |}
      end
  end.

End EdgeFac.

(** The edges that the loops [start, start + n) of a mesh run along. *)
Definition loop_edges (loops : list MLoop) (start : Z) (n : nat) : list nat :=
  ml_e <$> take n (drop (Z.to_nat start) loops).

(** How often edge [e] occurs in a list of edges. *)
Fixpoint visits (e : nat) (es : list nat) : Z :=
  match es with
  | [] => 0
  | e' :: es' => (if decide (e' = e) then 1 else 0) + visits e es'
  end.

(** ** An example mesh *)

(** Two triangles that share edge 2; edge 4 is marked as not drawn.  Vertices
    and normals carry no data here, and every factor byte is 128. *)
Definition two_triangles : MeshRenderData unit unit :=
  {| extract_type := MR_EXTRACT_MESH;
     loop_len := 6;
     loop_loose_len := 0;
     edge_len := 5;
     mloop := [ mkMLoop 0 0; mkMLoop 1 1; mkMLoop 2 2;
                mkMLoop 0 2; mkMLoop 2 3; mkMLoop 3 4 ];
     medge := [ mkMEdge 32; mkMEdge 32; mkMEdge 32; mkMEdge 32; mkMEdge 0 ];
     mvert := [ tt; tt; tt; tt ];
     poly_normals := [ tt; tt ] |}.

Definition flat_factor : unit -> unit -> unit -> Z := fun _ _ _ => 128.

Definition blank_edge_fac_data : MeshExtract_EdgeFac_Data :=
  {| vbo_data := []; use_edge_render := false; edge_loop_count := [] |}.

(** The same mesh with a buffer in counting mode, before any polygon. *)
Definition counting_data : MeshExtract_EdgeFac_Data :=
  {| vbo_data := replicate 6 7; use_edge_render := false;
     edge_loop_count := replicate 20 0 |}.

(** ... and in edge-render mode. *)
Definition rendering_data : MeshExtract_EdgeFac_Data :=
  {| vbo_data := replicate 6 7; use_edge_render := true;
     edge_loop_count := replicate 20 0 |}.

(** The byte that edge-render mode stores for an edge: 255 when the edge is
    drawn, 0 when it is not. *)
Definition edge_render_byte (ME_EDGERENDER : Z) (med : MEdge) : Z :=
  if Z.eqb (Z.land (med_flag med) ME_EDGERENDER) 0 then 0 else 255.

(** The loop that follows [ml_index] around polygon [mp]. *)
Definition next_loop_index (mp : MPoly) (ml_index : Z) : Z :=
  if Z.eqb ml_index (totloop mp + loopstart mp - 1) then loopstart mp else ml_index + 1.

(** What the extractor needs of a polygon and of the buffers so that every
    access is inside its array. *)
Definition poly_in_bounds {V N : Type} (mr : MeshRenderData V N) (mp : MPoly)
    (mp_index : Z) (data : MeshExtract_EdgeFac_Data) : Prop :=
  0 <= loopstart mp /\ 0 <= totloop mp
  /\ loopstart mp + totloop mp <= Z.of_nat (length (mloop mr))
  /\ loopstart mp + totloop mp <= Z.of_nat (length (vbo_data data))
  /\ 0 <= mp_index < Z.of_nat (length (poly_normals mr))
  /\ Forall (fun ml => (ml_e ml < length (medge mr))%nat
                       /\ (ml_e ml < length (edge_loop_count data))%nat
                       /\ (ml_v ml < length (mvert mr))%nat) (mloop mr).

(** [x] is the factor byte of loop [ml_index] of polygon [mp]: the byte
    computed from the polygon's normal, the loop's vertex and the vertex of
    the next loop around the polygon. *)
Definition loop_factor {V N : Type} (factor_byte : N -> V -> V -> Z)
    (mr : MeshRenderData V N) (mp : MPoly) (mp_index : Z) (ml_index : Z) (x : Z) : Prop :=
  exists ml ml_next v1 v2 f_no,
    array_get (mloop mr) ml_index = Some ml
    /\ array_get (mloop mr) (next_loop_index mp ml_index) = Some ml_next
    /\ mvert mr !! ml_v ml = Some v1
    /\ mvert mr !! ml_v ml_next = Some v2
    /\ array_get (poly_normals mr) mp_index = Some f_no
    /\ x = factor_byte f_no v1 v2.

(** A count buffer as the extractor keeps it: every slot between 0 and 3. *)
Definition counts_saturated (counts : list Z) : Prop :=
  Forall (fun c => 0 <= c <= 3) counts.

(** ** The curve component *)

(** [BKE_geometry_set.hh] and [BKE_attribute_access.hh] are absent; of their
    enumerations the source names [Owned] and [ReadOnly], and
    [ATTR_DOMAIN_POINT] and [ATTR_DOMAIN_CURVE]. *)
Inductive GeometryOwnershipType : Set := Owned | Editable | ReadOnly.

#[global] Instance GeometryOwnershipType_eq_dec : EqDecision GeometryOwnershipType.
Proof. solve_decision. Defined.

Inductive AttributeDomain : Set :=
| ATTR_DOMAIN_POINT
| ATTR_DOMAIN_CURVE
| ATTR_DOMAIN_OTHER.  (* any other enumerator *)

(** The further members of [Spline] that the component reads and writes:
    [size()] and the public member [is_cyclic]. *)
Class SplineMembers (Spline : Type) `{SplineOps Spline} : Type := {
  spline_size : Spline -> Z;
  is_cyclic : Spline -> bool;
  assign_is_cyclic : bool -> Spline -> Spline;
  is_cyclic_assign : forall v s, is_cyclic (assign_is_cyclic v s) = v;
  is_cyclic_mark_cache_invalid : forall s, is_cyclic (mark_cache_invalid s) = is_cyclic s;
  resolution_assign_is_cyclic : forall v s, resolution (assign_is_cyclic v s) = resolution s;
  spline_size_nonneg : forall s, 0 <= spline_size s
}.

Section CurveComponent.
Context {Spline : Type} `{SplineMembers Spline}.

Definition get_cyclic_value (spline : Spline) : bool := is_cyclic spline.

(** [if (spline->is_cyclic != value) { spline->is_cyclic = value;
    spline->mark_cache_invalid(); }] *)
Definition set_cyclic_value (spline : Spline) (value : bool) : Spline :=
  if bool_decide (is_cyclic spline = value) then spline
  else mark_cache_invalid (assign_is_cyclic value spline).

(** A curve owns its splines. *)
Record DCurve : Type := mkDCurve {
  splines : list Spline
}.

(** The curves that are alive, by address.  [delete] takes a curve out;
    [DCurve::copy] puts an equal curve at an address not in use. *)
Definition CurveHeap : Type := gmap positive DCurve.

Definition curve_delete (p : positive) (h : CurveHeap) : option CurveHeap :=
  match h !! p with
  | Some _ => Some (delete p h)
  | None => None
  end.

Definition curve_copy (p : positive) (h : CurveHeap) : option (positive * CurveHeap) :=
  match h !! p with
  | Some cv => let p' := fresh (dom h) in Some (p', <[ p' := cv ]> h)
  | None => None
  end.

(** [DCurve *curve_] (null as [None]) and [ownership_].  The
    [BLI_assert(this->is_mutable())] checks of the member functions concern the
    user count kept by the absent base class and are left out. *)
Record CurveComponent : Set := mkCurveComponent {
  curve_ : option positive;
  ownership_ : GeometryOwnershipType
}.

(** [CurveComponent::clear] *)
Definition clear (c : CurveComponent) (h : CurveHeap) : option (CurveComponent * CurveHeap) :=
  match curve_ c with
  | Some p =>
      match ownership_ c with
      | Owned =>
          match curve_delete p h with
          | Some h' => Some ({| curve_ := None; ownership_ := ownership_ c |}, h')
          | None => None
          end
      | _ => Some ({| curve_ := None; ownership_ := ownership_ c |}, h)
      end
  | None => Some (c, h)
  end.

Definition has_curve (c : CurveComponent) : bool := bool_decide (curve_ c <> None).

(** [CurveComponent::replace]: clear the component and replace it with the
    new curve. *)
Definition replace (curve : option positive) (ownership : GeometryOwnershipType)
    (c : CurveComponent) (h : CurveHeap) : option (CurveComponent * CurveHeap) :=
  match clear c h with
  | Some (_, h') => Some ({| curve_ := curve; ownership_ := ownership |}, h')
  | None => None
  end.

(** [CurveComponent::release] *)
Definition release (c : CurveComponent) : option positive * CurveComponent :=
  (curve_ c, {| curve_ := None; ownership_ := ownership_ c |}).

Definition get_for_read (c : CurveComponent) : option positive := curve_ c.

(** [CurveComponent::get_for_write]; [curve_->copy()] on a null [curve_] is
    an invalid access. *)
Definition get_for_write (c : CurveComponent) (h : CurveHeap)
  : option (option positive * CurveComponent * CurveHeap) :=
  match ownership_ c with
  | ReadOnly =>
      match curve_ c with
      | Some p =>
          match curve_copy p h with
          | Some (p', h') =>
              Some (Some p', {| curve_ := Some p'; ownership_ := Owned |}, h')
          | None => None
          end
      | None => None
      end
  | _ => Some (curve_ c, c, h)
  end.

Definition is_empty (c : CurveComponent) : bool := bool_decide (curve_ c = None).

Definition owns_direct_data (c : CurveComponent) : bool :=
  bool_decide (ownership_ c = Owned).

(** [CurveComponent::ensure_owns_direct_data]; the copy is commented out in
    the source, only the ownership changes. *)
Definition ensure_owns_direct_data (c : CurveComponent) : CurveComponent :=
  if bool_decide (ownership_ c <> Owned)
  then {| curve_ := curve_ c; ownership_ := Owned |}
  else c.

(** [CurveComponent::copy]: the new component starts out as the default
    constructor leaves it, with the ownership [default_ownership] that the
    absent class declaration gives the member. *)
Definition component_copy (default_ownership : GeometryOwnershipType)
    (c : CurveComponent) (h : CurveHeap) : option (CurveComponent * CurveHeap) :=
  match curve_ c with
  | Some p =>
      match curve_copy p h with
      | Some (p', h') => Some ({| curve_ := Some p'; ownership_ := Owned |}, h')
      | None => None
      end
  | None => Some ({| curve_ := None; ownership_ := default_ownership |}, h)
  end.

(** [int total = 0; for (spline : splines) total += spline->size();]: the
    addition is on [int] and wraps at 32 bits, as the compiled code does. *)
Fixpoint total_size (total : Z) (ss : list Spline) : Z :=
  match ss with
  | [] => total
  | s :: ss' => total_size (to_int32 (total + spline_size s)) ss'
  end.

(** [CurveComponent::attribute_domain_size] *)
Definition attribute_domain_size (domain : AttributeDomain) (c : CurveComponent)
    (h : CurveHeap) : option Z :=
  match curve_ c with
  | None => Some 0
  | Some p =>
      match h !! p with
      | None => None
      | Some cv =>
          match domain with
          | ATTR_DOMAIN_POINT => Some (total_size 0 (splines cv))
          | ATTR_DOMAIN_CURVE => Some (Z.of_nat (length (splines cv)))
          | ATTR_DOMAIN_OTHER => Some 0
          end
      end
  end.

(** [BuiltinAttributeProvider::WritableEnum] *)
Inductive WritableEnum : Set := Writable | Readonly.

(** A built-in spline attribute provider, as far as write access goes: the
    attribute it hands out works on the splines of one curve, named here by
    the curve's address. *)
Record BuiltinSplineAttributeProvider : Set := mkSplineProvider {
  writable_ : WritableEnum
}.

(** [BuiltinSplineAttributeProvider::try_get_for_read]: the attribute reads
    the curve the component holds. *)
Definition try_get_for_read (c : CurveComponent) : option positive :=
  get_for_read c.

(** [BuiltinSplineAttributeProvider::try_get_for_write] *)
Definition try_get_for_write (provider : BuiltinSplineAttributeProvider)
    (c : CurveComponent) (h : CurveHeap)
  : option (option positive * CurveComponent * CurveHeap) :=
  match writable_ provider with
  | Readonly => Some (None, c, h)
  | Writable => get_for_write c h
  end.


(** Writing and reading the "resolution" attribute obtained for the curve at
    [p]: the attribute's span is the curve's own spline array. *)
Definition resolution_write (p : positive) (index : nat) (r : Z) (h : CurveHeap)
  : option CurveHeap :=
  match h !! p with
  | Some cv =>
      match resolution_attribute_set (splines cv) index r with
      | Some ss => Some (<[ p := {| splines := ss |} ]> h)
      | None => None
      end
  | None => None
  end.

Definition resolution_read (p : positive) (index : nat) (h : CurveHeap) : option Z :=
  match h !! p with
  | Some cv => resolution_attribute_get (splines cv) index
  | None => None
  end.

End CurveComponent.

(** The two providers for the attributes "resolution" and "length", as
    [create_attribute_providers_for_curve] sets them up. *)
Definition resolution_provider : BuiltinSplineAttributeProvider :=
  {| writable_ := Writable |}.
Definition length_provider : BuiltinSplineAttributeProvider :=
  {| writable_ := Readonly |}.

(** A spline with the members that the component reaches. *)
Record MemberSpline : Set := mkMemberSpline {
  ms_resolution : Z;
  ms_cyclic : bool;
  ms_points : nat;
  ms_cache_dirty : bool
}.

#[global, refine] Instance MemberSpline_ops : SplineOps MemberSpline := {|
  resolution := ms_resolution;
  set_resolution := fun v s =>
    {| ms_resolution := v; ms_cyclic := ms_cyclic s; ms_points := ms_points s;
       ms_cache_dirty := ms_cache_dirty s |};
  mark_cache_invalid := fun s =>
    {| ms_resolution := ms_resolution s; ms_cyclic := ms_cyclic s; ms_points := ms_points s;
       ms_cache_dirty := true |};
  cache_invalid := ms_cache_dirty
|}.
Proof. all: reflexivity. Defined.

#[global, refine] Instance MemberSpline_members : SplineMembers MemberSpline := {|
  spline_size := fun s => Z.of_nat (ms_points s);
  is_cyclic := ms_cyclic;
  assign_is_cyclic := fun v s =>
    {| ms_resolution := ms_resolution s; ms_cyclic := v; ms_points := ms_points s;
       ms_cache_dirty := ms_cache_dirty s |}
|}.
Proof. all: try reflexivity. intros s. apply Nat2Z.is_nonneg. Defined.

(** A heap with one curve of two splines, and components that hold it. *)
Definition example_curve : DCurve (Spline := MemberSpline) :=
  {| splines := [ mkMemberSpline 12 false 4 false; mkMemberSpline 12 true 3 false ] |}.
Definition example_heap : CurveHeap (Spline := MemberSpline) :=
  {[ 1%positive := example_curve ]}.
Definition owning_component : CurveComponent :=
  {| curve_ := Some 1%positive; ownership_ := Owned |}.
Definition borrowing_component : CurveComponent :=
  {| curve_ := Some 1%positive; ownership_ := ReadOnly |}.

(** * Properties *)

(** ** Machine arithmetic *)

Lemma to_int32_range z : int32_range (to_int32 z).
Proof.
  unfold int32_range, to_int32, INT_MIN, INT_MAX.
  pose proof (Z.mod_pos_bound z (2 ^ 32) ltac:(lia)).
  destruct (Z.ltb_spec (z mod 2 ^ 32) (2 ^ 31)); lia.
Qed.

Lemma to_int32_id z : int32_range z -> to_int32 z = z.
Proof.
  unfold int32_range, to_int32, INT_MIN, INT_MAX. intros Hz.
  destruct (Z_lt_dec z 0) as [Hneg|Hpos].
  - replace (z mod 2 ^ 32) with (z + 2 ^ 32).
    + destruct (Z.ltb_spec (z + 2 ^ 32) (2 ^ 31)); lia.
    + apply Z.mod_unique with (q := -1); lia.
  - rewrite Z.mod_small by lia.
    destruct (Z.ltb_spec z (2 ^ 31)); lia.
Qed.

Lemma to_int32_uint32_add a x : to_int32 (to_uint32 a + x) = to_int32 (a + x).
Proof. unfold to_int32, to_uint32. now rewrite Zplus_mod_idemp_l. Qed.

Lemma to_int32_uint32_sub a x : to_int32 (to_uint32 a - x) = to_int32 (a - x).
Proof. unfold to_int32, to_uint32. now rewrite Zminus_mod_idemp_l. Qed.

Lemma to_int32_idem_add a x : to_int32 (to_int32 a + x) = to_int32 (a + x).
Proof.
  unfold to_int32 at 1 3. f_equal.
  all: unfold to_int32; destruct (Z.ltb_spec (a mod 2 ^ 32) (2 ^ 31)).
  all: try (now rewrite Zplus_mod_idemp_l).
  all: replace (a mod 2 ^ 32 - 2 ^ 32 + x) with (a mod 2 ^ 32 + x + (-1) * 2 ^ 32) by lia;
       rewrite Z_mod_plus_full; now rewrite Zplus_mod_idemp_l.
Qed.

(** ** Counter slots *)

Lemma kernel_index_lt k : (kernel_index k < INTEGRATOR_KERNEL_NUM)%nat.
Proof. destruct k; unfold INTEGRATOR_KERNEL_NUM; simpl; lia. Qed.

Lemma kernel_index_inj k j : kernel_index k = kernel_index j -> k = j.
Proof. destruct k, j; simpl; congruence. Qed.

Lemma counter_queue_add_eq k kc :
  length (num_queued (queue kc)) = INTEGRATOR_KERNEL_NUM ->
  counter k (queue_add k kc) = to_int32 (counter k kc + 1).
Proof.
  intros Hlen. unfold counter, queue_add; simpl.
  rewrite list_lookup_total_insert_eq by (rewrite Hlen; apply kernel_index_lt).
  apply to_int32_uint32_add.
Qed.

Lemma counter_queue_sub_eq k kc :
  length (num_queued (queue kc)) = INTEGRATOR_KERNEL_NUM ->
  counter k (queue_sub k kc) = to_int32 (counter k kc - 1).
Proof.
  intros Hlen. unfold counter, queue_sub; simpl.
  rewrite list_lookup_total_insert_eq by (rewrite Hlen; apply kernel_index_lt).
  apply to_int32_uint32_sub.
Qed.

Lemma counter_queue_add_ne k j kc : k <> j -> counter j (queue_add k kc) = counter j kc.
Proof.
  intros Hne. unfold counter, queue_add; simpl.
  apply list_lookup_total_insert_ne. intros E. now apply Hne, kernel_index_inj.
Qed.

Lemma counter_queue_sub_ne k j kc : k <> j -> counter j (queue_sub k kc) = counter j kc.
Proof.
  intros Hne. unfold counter, queue_sub; simpl.
  apply list_lookup_total_insert_ne. intros E. now apply Hne, kernel_index_inj.
Qed.

Lemma length_queue_sub k kc :
  length (num_queued (queue (queue_sub k kc))) = length (num_queued (queue kc)).
Proof. unfold queue_sub; simpl. apply length_insert. Qed.

Lemma counter_write_path f k kc : counter k (write_path f kc) = counter k kc.
Proof. reflexivity. Qed.

Lemma counter_int32 k kc : queue_wf (queue kc) -> int32_range (counter k kc).
Proof.
  intros [Hlen Hall]. unfold counter.
  rewrite Forall_lookup in Hall.
  destruct (lookup_lt_is_Some_2 (num_queued (queue kc)) (kernel_index k)) as [x Hx].
  { rewrite Hlen. apply kernel_index_lt. }
  rewrite (list_lookup_total_correct _ _ _ Hx). eauto.
Qed.

(** ** Bits of the queued-kernel bitmask *)

Lemma testbit_kernel_bit k j :
  Z.testbit (kernel_bit k) (Z.of_nat (kernel_index j)) = bool_decide (k = j).
Proof. destruct k, j; reflexivity. Qed.

Lemma to_int32_succ z : int32_range z -> z < INT_MAX -> to_int32 (z + 1) = z + 1.
Proof. unfold int32_range. intros Hr Hlt. apply to_int32_id. unfold int32_range. lia. Qed.

Lemma to_int32_pred z : int32_range z -> INT_MIN < z -> to_int32 (z - 1) = z - 1.
Proof. unfold int32_range. intros Hr Hlt. apply to_int32_id. unfold int32_range. lia. Qed.

Lemma to_int32_pred_succ z : int32_range z -> to_int32 (to_int32 (z - 1) + 1) = z.
Proof.
  intros Hr. rewrite to_int32_idem_add.
  replace (z - 1 + 1) with z by lia. now apply to_int32_id.
Qed.

Lemma queue_wf_insert q i z :
  queue_wf q -> queue_wf (mkQueue (<[ i := to_int32 z ]> (num_queued q))).
Proof.
  intros [Hlen Hall]. split; simpl.
  - now rewrite length_insert.
  - apply Forall_insert; [assumption | apply to_int32_range].
Qed.

Lemma queue_wf_add k kc : queue_wf (queue kc) -> queue_wf (queue (queue_add k kc)).
Proof. intros H. unfold queue_add; simpl. now apply queue_wf_insert. Qed.

Lemma queue_wf_sub k kc : queue_wf (queue kc) -> queue_wf (queue (queue_sub k kc)).
Proof. intros H. unfold queue_sub; simpl. now apply queue_wf_insert. Qed.

Lemma queue_wf_path_init n kc :
  queue_wf (queue kc) -> queue_wf (queue (Gpu.INTEGRATOR_PATH_INIT n kc)).
Proof. intros H. now apply (queue_wf_add n kc). Qed.

Lemma queue_wf_path_next c n kc :
  queue_wf (queue kc) -> queue_wf (queue (Gpu.INTEGRATOR_PATH_NEXT c n kc)).
Proof. intros H. now apply (queue_wf_add n (queue_sub c kc)), queue_wf_sub. Qed.

Lemma queue_wf_path_terminate c kc :
  queue_wf (queue kc) -> queue_wf (queue (Gpu.INTEGRATOR_PATH_TERMINATE c kc)).
Proof. intros H. now apply (queue_wf_sub c kc). Qed.

(** The counters after each of the three main-path macros. *)

Lemma counter_path_init n k kc :
  queue_wf (queue kc) ->
  counter k (Gpu.INTEGRATOR_PATH_INIT n kc)
  = if decide (k = n) then to_int32 (counter k kc + 1) else counter k kc.
Proof.
  intros [Hlen _]. unfold Gpu.INTEGRATOR_PATH_INIT, seq.
  rewrite counter_write_path. destruct (decide (k = n)) as [->|Hne].
  - now apply counter_queue_add_eq.
  - now apply counter_queue_add_ne.
Qed.

Lemma counter_path_terminate c k kc :
  queue_wf (queue kc) ->
  counter k (Gpu.INTEGRATOR_PATH_TERMINATE c kc)
  = if decide (k = c) then to_int32 (counter k kc - 1) else counter k kc.
Proof.
  intros [Hlen _]. unfold Gpu.INTEGRATOR_PATH_TERMINATE, seq.
  rewrite !counter_write_path. destruct (decide (k = c)) as [->|Hne].
  - now apply counter_queue_sub_eq.
  - now apply counter_queue_sub_ne.
Qed.

Lemma counter_path_next c n k kc :
  queue_wf (queue kc) ->
  counter k (Gpu.INTEGRATOR_PATH_NEXT c n kc)
  = if decide (k = n)
    then (if decide (k = c) then counter k kc else to_int32 (counter k kc + 1))
    else (if decide (k = c) then to_int32 (counter k kc - 1) else counter k kc).
Proof.
  intros Hwf. pose proof Hwf as [Hlen _].
  unfold Gpu.INTEGRATOR_PATH_NEXT, seq. rewrite !counter_write_path.
  destruct (decide (k = n)) as [->|Hn].
  - rewrite counter_queue_add_eq by now rewrite length_queue_sub.
    destruct (decide (n = c)) as [->|Hc].
    + rewrite counter_queue_sub_eq by assumption.
      apply to_int32_pred_succ. now apply counter_int32.
    + rewrite counter_queue_sub_ne by congruence. reflexivity.
  - rewrite counter_queue_add_ne by congruence.
    destruct (decide (k = c)) as [->|Hc].
    + now apply counter_queue_sub_eq.
    + now apply counter_queue_sub_ne.
Qed.

(** The path members after each of the three main-path macros. *)

Lemma path_after_init n kc :
  path (state (Gpu.INTEGRATOR_PATH_INIT n kc))
  = {| flag := flag (path (state kc));
       queued_kernels := Z.lor (queued_kernels (path (state kc))) (kernel_bit n) |}.
Proof. reflexivity. Qed.

Lemma path_after_next c n kc :
  path (state (Gpu.INTEGRATOR_PATH_NEXT c n kc))
  = {| flag := flag (path (state kc));
       queued_kernels :=
         Z.land (Z.lor (queued_kernels (path (state kc))) (kernel_bit n))
                (Z.lnot (kernel_bit c)) |}.
Proof. reflexivity. Qed.

Lemma path_after_terminate c kc :
  path (state (Gpu.INTEGRATOR_PATH_TERMINATE c kc))
  = {| flag := 0;
       queued_kernels := Z.land (queued_kernels (path (state kc))) (Z.lnot (kernel_bit c)) |}.
Proof. reflexivity. Qed.

Lemma kernel_bit_pos k : 0 < kernel_bit k.
Proof. destruct k; reflexivity. Qed.

Lemma next_mask_distinct c n : c <> n ->
  Z.land (Z.lor (kernel_bit c) (kernel_bit n)) (Z.lnot (kernel_bit c)) = kernel_bit n.
Proof. destruct c, n; intros H; try congruence; reflexivity. Qed.

Lemma next_mask_self m k :
  Z.land (Z.lor m (kernel_bit k)) (Z.lnot (kernel_bit k)) = Z.land m (Z.lnot (kernel_bit k)).
Proof.
  apply Z.bits_inj'. intros i Hi.
  rewrite !Z.land_spec, Z.lor_spec, Z.lnot_spec by assumption.
  destruct (Z.testbit m i), (Z.testbit (kernel_bit k) i); reflexivity.
Qed.

Lemma zero_queue_wf : queue_wf zero_queue.
Proof.
  split; [reflexivity|]. unfold zero_queue; simpl.
  repeat constructor; unfold int32_range, INT_MIN, INT_MAX; lia.
Qed.

Lemma camera_context_wf : queue_wf (queue camera_context).
Proof.
  unfold camera_context, Gpu.INTEGRATOR_PATH_INIT, seq.
  apply (queue_wf_add _ (write_path (flag_assign 1) fresh_context)), zero_queue_wf.
Qed.

(** ** INTEGRATOR_PATH_NEXT between two distinct kernels *)

(** C3.  For every path state with a well-formed queue and every pair of
    distinct kernels, [INTEGRATOR_PATH_NEXT(current_kernel, next_kernel)]
    decrements [current_kernel]'s counter by one and increments
    [next_kernel]'s counter by one (in 32-bit arithmetic, hence exactly by one
    unless the slot sits at the limit of [int]), clears [current_kernel]'s bit
    and sets [next_kernel]'s bit in the path's queued-kernel bitmask, and
    leaves the liveness flag, every other counter slot, every other kernel bit
    and the shadow path unchanged. *)
Theorem path_next_distinct_effect (kc : KernelContext) (c n : IntegratorPathKernel) :
  queue_wf (queue kc) ->
  c <> n ->
  let kc' := Gpu.INTEGRATOR_PATH_NEXT c n kc in
  counter c kc' = to_int32 (counter c kc - 1)
  /\ (INT_MIN < counter c kc -> counter c kc' = counter c kc - 1)
  /\ counter n kc' = to_int32 (counter n kc + 1)
  /\ (counter n kc < INT_MAX -> counter n kc' = counter n kc + 1)
  /\ (forall k, k <> c -> k <> n -> counter k kc' = counter k kc)
  /\ queued_on c (path (state kc')) = false
  /\ queued_on n (path (state kc')) = true
  /\ (forall k, k <> c -> k <> n ->
        queued_on k (path (state kc')) = queued_on k (path (state kc)))
  /\ flag (path (state kc')) = flag (path (state kc))
  /\ shadow_path (state kc') = shadow_path (state kc)
  /\ queue_wf (queue kc').
Proof.
  intros Hwf Hne kc'. subst kc'.
  assert (Hc : counter c (Gpu.INTEGRATOR_PATH_NEXT c n kc) = to_int32 (counter c kc - 1)).
  { rewrite counter_path_next by assumption.
    destruct (decide (c = n)); [congruence|]. now rewrite decide_True. }
  assert (Hn : counter n (Gpu.INTEGRATOR_PATH_NEXT c n kc) = to_int32 (counter n kc + 1)).
  { rewrite counter_path_next by assumption.
    rewrite decide_True by reflexivity. now rewrite decide_False by congruence. }
  pose proof (counter_int32 c kc Hwf) as Hrc.
  pose proof (counter_int32 n kc Hwf) as Hrn.
  repeat split.
  - exact Hc.
  - intros Hlt. rewrite Hc. now apply to_int32_pred.
  - exact Hn.
  - intros Hlt. rewrite Hn. now apply to_int32_succ.
  - intros k Hkc Hkn. rewrite counter_path_next by assumption.
    now rewrite !decide_False by assumption.
  - rewrite path_after_next. unfold queued_on; simpl.
    rewrite Z.land_spec, Z.lnot_spec, testbit_kernel_bit by lia.
    rewrite bool_decide_true by reflexivity. apply andb_false_r.
  - rewrite path_after_next. unfold queued_on; simpl.
    rewrite Z.land_spec, Z.lnot_spec, Z.lor_spec, !testbit_kernel_bit by lia.
    rewrite bool_decide_true by reflexivity.
    rewrite bool_decide_false by assumption. now rewrite orb_true_r.
  - intros k Hkc Hkn. rewrite path_after_next. unfold queued_on; simpl.
    rewrite Z.land_spec, Z.lnot_spec, Z.lor_spec, !testbit_kernel_bit by lia.
    rewrite !bool_decide_false by congruence. simpl.
    now rewrite orb_false_r, andb_true_r.
  - apply (queue_wf_path_next c n kc Hwf).
  - apply (queue_wf_path_next c n kc Hwf).
Qed.

Lemma path_next_distinct_effect_witness :
  let kc' := Gpu.INTEGRATOR_PATH_NEXT INTEGRATOR_KERNEL_intersect_closest
               INTEGRATOR_KERNEL_shade_surface camera_context in
  counter INTEGRATOR_KERNEL_intersect_closest kc'
    = counter INTEGRATOR_KERNEL_intersect_closest camera_context - 1
  /\ counter INTEGRATOR_KERNEL_shade_surface kc'
    = counter INTEGRATOR_KERNEL_shade_surface camera_context + 1
  /\ queued_on INTEGRATOR_KERNEL_intersect_closest (path (state kc')) = false
  /\ queued_on INTEGRATOR_KERNEL_shade_surface (path (state kc')) = true
  /\ flag (path (state kc')) = 1.
Proof.
  destruct (path_next_distinct_effect camera_context
              INTEGRATOR_KERNEL_intersect_closest INTEGRATOR_KERNEL_shade_surface
              camera_context_wf ltac:(discriminate))
    as (_ & Hdec & _ & Hinc & _ & Hclr & Hset & _ & Hflag & _).
  intros kc'. refine (conj _ (conj _ (conj Hclr (conj Hset Hflag)))).
  - apply Hdec. vm_compute. reflexivity.
  - apply Hinc. vm_compute. reflexivity.
Defined.

(** ** INTEGRATOR_PATH_TERMINATE *)

(** C2, as amended.  [INTEGRATOR_PATH_TERMINATE(current_kernel)], applied to
    any path state with a well-formed queue, decrements [current_kernel]'s
    counter by one (32-bit arithmetic), clears [current_kernel]'s bit in the
    path's queued-kernel bitmask and leaves every other bit as it was -- so
    the resulting bitmask is zero when no other bit was set before --, and
    clears the liveness flag, so that [INTEGRATOR_PATH_IS_TERMINATED] then
    holds. *)
Theorem path_terminate_effect (kc : KernelContext) (c : IntegratorPathKernel) :
  queue_wf (queue kc) ->
  let kc' := Gpu.INTEGRATOR_PATH_TERMINATE c kc in
  counter c kc' = to_int32 (counter c kc - 1)
  /\ (INT_MIN < counter c kc -> counter c kc' = counter c kc - 1)
  /\ (forall k, k <> c -> counter k kc' = counter k kc)
  /\ queued_kernels (path (state kc'))
       = Z.land (queued_kernels (path (state kc))) (Z.lnot (kernel_bit c))
  /\ queued_on c (path (state kc')) = false
  /\ (forall i, 0 <= i -> i <> Z.of_nat (kernel_index c) ->
        Z.testbit (queued_kernels (path (state kc'))) i
        = Z.testbit (queued_kernels (path (state kc))) i)
  /\ (queued_kernels (path (state kc)) = kernel_bit c \/ queued_kernels (path (state kc)) = 0 ->
        queued_kernels (path (state kc')) = 0)
  /\ flag (path (state kc')) = 0
  /\ INTEGRATOR_PATH_IS_TERMINATED kc' = true
  /\ shadow_path (state kc') = shadow_path (state kc).
Proof.
  intros Hwf kc'. subst kc'.
  assert (Hc : counter c (Gpu.INTEGRATOR_PATH_TERMINATE c kc) = to_int32 (counter c kc - 1)).
  { rewrite counter_path_terminate by assumption. now rewrite decide_True. }
  pose proof (counter_int32 c kc Hwf) as Hrc.
  split; [exact Hc|]. split.
  { intros Hlt. rewrite Hc. now apply to_int32_pred. }
  split.
  { intros k Hk. rewrite counter_path_terminate by assumption. now rewrite decide_False. }
  rewrite path_after_terminate. unfold INTEGRATOR_PATH_IS_TERMINATED.
  rewrite path_after_terminate. unfold queued_on. simpl.
  split; [reflexivity|]. split.
  { rewrite Z.land_spec, Z.lnot_spec, testbit_kernel_bit by lia.
    rewrite bool_decide_true by reflexivity. apply andb_false_r. }
  split.
  { intros i Hi Hne. rewrite Z.land_spec, Z.lnot_spec by assumption.
    unfold kernel_bit. rewrite Z.shiftl_1_l, Z.pow2_bits_eqb by lia.
    destruct (Z.eqb_spec (Z.of_nat (kernel_index c)) i); [congruence|].
    apply andb_true_r. }
  split.
  { intros [-> | ->]; [apply Z.land_lnot_diag | apply Z.land_0_l]. }
  repeat split.
Qed.

Lemma path_terminate_effect_witness :
  let kc' := Gpu.INTEGRATOR_PATH_TERMINATE INTEGRATOR_KERNEL_intersect_closest
               camera_context in
  counter INTEGRATOR_KERNEL_intersect_closest kc' = 0
  /\ queued_kernels (path (state kc')) = 0
  /\ INTEGRATOR_PATH_IS_TERMINATED kc' = true.
Proof.
  destruct (path_terminate_effect camera_context INTEGRATOR_KERNEL_intersect_closest
              camera_context_wf)
    as (_ & Hdec & _ & _ & _ & _ & Hzero & _ & Hterm & _).
  intros kc'. refine (conj _ (conj _ Hterm)).
  - unfold kc'. rewrite Hdec; vm_compute; reflexivity.
  - apply Hzero. left. reflexivity.
Defined.

(** C2, as stated, fails.  A path state whose bitmask holds the bits of
    [intersect_closest] and [shade_surface] (two INITs in a row produce it)
    keeps the [shade_surface] bit when
    [INTEGRATOR_PATH_TERMINATE(intersect_closest)] runs: the resulting bitmask
    is [16], not zero. *)
Lemma path_terminate_keeps_other_bits :
  let kc := Gpu.INTEGRATOR_PATH_INIT INTEGRATOR_KERNEL_shade_surface camera_context in
  let kc' := Gpu.INTEGRATOR_PATH_TERMINATE INTEGRATOR_KERNEL_intersect_closest kc in
  queue_wf (queue kc)
  /\ queued_kernels (path (state kc)) = 17
  /\ queued_kernels (path (state kc')) = 16
  /\ queued_kernels (path (state kc')) <> 0.
Proof.
  split; [apply queue_wf_path_init, camera_context_wf|].
  vm_compute. repeat split; discriminate.
Qed.

(** ** INTEGRATOR_PATH_INIT and the one-unit accounting *)

(** C5.  With a well-formed queue, [INTEGRATOR_PATH_INIT(next_kernel)]
    increments [next_kernel]'s counter by one, changes no other counter slot
    and sets [next_kernel]'s bit in the bitmask (on a freshly created path,
    whose bitmask is zero, the bitmask becomes exactly that bit); the flag is
    not written.  Likewise [INTEGRATOR_PATH_NEXT] takes one unit from
    [current_kernel]'s slot and adds one to [next_kernel]'s slot and touches
    no third slot, and [INTEGRATOR_PATH_TERMINATE] takes one unit from
    [current_kernel]'s slot and increments no slot. *)
Theorem path_counter_accounting (kc : KernelContext) (c n : IntegratorPathKernel) :
  queue_wf (queue kc) ->
  (* INIT *)
  (counter n (Gpu.INTEGRATOR_PATH_INIT n kc) = to_int32 (counter n kc + 1)
   /\ (counter n kc < INT_MAX ->
       counter n (Gpu.INTEGRATOR_PATH_INIT n kc) = counter n kc + 1)
   /\ (forall k, k <> n -> counter k (Gpu.INTEGRATOR_PATH_INIT n kc) = counter k kc)
   /\ queued_on n (path (state (Gpu.INTEGRATOR_PATH_INIT n kc))) = true
   /\ (queued_kernels (path (state kc)) = 0 ->
       queued_kernels (path (state (Gpu.INTEGRATOR_PATH_INIT n kc))) = kernel_bit n)
   /\ flag (path (state (Gpu.INTEGRATOR_PATH_INIT n kc))) = flag (path (state kc)))
  (* NEXT: continuation *)
  /\ ((c <> n ->
       counter c (Gpu.INTEGRATOR_PATH_NEXT c n kc) = to_int32 (counter c kc - 1)
       /\ counter n (Gpu.INTEGRATOR_PATH_NEXT c n kc) = to_int32 (counter n kc + 1))
      /\ (c <> n -> INT_MIN < counter c kc -> counter n kc < INT_MAX ->
          counter c (Gpu.INTEGRATOR_PATH_NEXT c n kc) = counter c kc - 1
          /\ counter n (Gpu.INTEGRATOR_PATH_NEXT c n kc) = counter n kc + 1)
      /\ (c = n -> counter c (Gpu.INTEGRATOR_PATH_NEXT c n kc) = counter c kc)
      /\ (forall k, k <> c -> k <> n ->
          counter k (Gpu.INTEGRATOR_PATH_NEXT c n kc) = counter k kc))
  (* TERMINATE: termination *)
  /\ (counter c (Gpu.INTEGRATOR_PATH_TERMINATE c kc) = to_int32 (counter c kc - 1)
      /\ (INT_MIN < counter c kc ->
          counter c (Gpu.INTEGRATOR_PATH_TERMINATE c kc) = counter c kc - 1)
      /\ (forall k, k <> c -> counter k (Gpu.INTEGRATOR_PATH_TERMINATE c kc) = counter k kc)).
Proof.
  intros Hwf.
  pose proof (counter_int32 c kc Hwf) as Hrc.
  pose proof (counter_int32 n kc Hwf) as Hrn.
  split; [|split].
  - assert (Hn : counter n (Gpu.INTEGRATOR_PATH_INIT n kc) = to_int32 (counter n kc + 1)).
    { rewrite counter_path_init by assumption. now rewrite decide_True. }
    split; [exact Hn|]. split.
    { intros Hlt. rewrite Hn. now apply to_int32_succ. }
    split.
    { intros k Hk. rewrite counter_path_init by assumption. now rewrite decide_False. }
    rewrite path_after_init. unfold queued_on. simpl. split.
    { rewrite Z.lor_spec, testbit_kernel_bit, bool_decide_true by reflexivity.
      apply orb_true_r. }
    split; [|reflexivity].
    intros ->. apply Z.lor_0_l.
  - assert (Hd : c <> n ->
       counter c (Gpu.INTEGRATOR_PATH_NEXT c n kc) = to_int32 (counter c kc - 1)
       /\ counter n (Gpu.INTEGRATOR_PATH_NEXT c n kc) = to_int32 (counter n kc + 1)).
    { intros Hne. rewrite !counter_path_next by assumption.
      rewrite (decide_False (P := c = n)) by assumption.
      rewrite (decide_True (P := c = c)) by reflexivity.
      rewrite (decide_True (P := n = n)) by reflexivity.
      rewrite (decide_False (P := n = c)) by congruence. now split. }
    split; [exact Hd|]. split.
    { intros Hne Hlo Hhi. destruct (Hd Hne) as [-> ->].
      split; [now apply to_int32_pred | now apply to_int32_succ]. }
    split.
    { intros ->. rewrite counter_path_next by assumption. now rewrite !decide_True. }
    intros k Hkc Hkn. rewrite counter_path_next by assumption.
    now rewrite !decide_False.
  - assert (Hc : counter c (Gpu.INTEGRATOR_PATH_TERMINATE c kc) = to_int32 (counter c kc - 1)).
    { rewrite counter_path_terminate by assumption. now rewrite decide_True. }
    split; [exact Hc|]. split.
    { intros Hlt. rewrite Hc. now apply to_int32_pred. }
    intros k Hk. rewrite counter_path_terminate by assumption. now rewrite decide_False.
Qed.

Lemma path_counter_accounting_witness :
  counter INTEGRATOR_KERNEL_intersect_closest
    (Gpu.INTEGRATOR_PATH_INIT INTEGRATOR_KERNEL_intersect_closest fresh_context) = 1
  /\ queued_kernels (path (state
       (Gpu.INTEGRATOR_PATH_INIT INTEGRATOR_KERNEL_intersect_closest fresh_context))) = 1.
Proof.
  destruct (path_counter_accounting fresh_context
              INTEGRATOR_KERNEL_shade_surface INTEGRATOR_KERNEL_intersect_closest
              zero_queue_wf)
    as ((_ & Hinc & _ & _ & Hbit & _) & _).
  refine (conj _ _).
  - rewrite Hinc; vm_compute; reflexivity.
  - rewrite Hbit; reflexivity.
Defined.

(** ** The degenerate self-transition *)

(** C9.  For every path state with a well-formed queue and every kernel [K],
    [INTEGRATOR_PATH_NEXT(K, K)] leaves [num_queued[K]] (and every other slot)
    unchanged and ends with [K]'s bit cleared, because the bit is set before
    it is cleared; a live path queued on exactly [K] is left with its flag
    still set and a zero bitmask. *)
Theorem path_next_self_effect (kc : KernelContext) (K : IntegratorPathKernel) :
  queue_wf (queue kc) ->
  let kc' := Gpu.INTEGRATOR_PATH_NEXT K K kc in
  (forall k, counter k kc' = counter k kc)
  /\ queued_on K (path (state kc')) = false
  /\ queued_kernels (path (state kc'))
       = Z.land (queued_kernels (path (state kc))) (Z.lnot (kernel_bit K))
  /\ flag (path (state kc')) = flag (path (state kc))
  /\ (flag (path (state kc)) <> 0 -> queued_kernels (path (state kc)) = kernel_bit K ->
      flag (path (state kc')) <> 0 /\ queued_kernels (path (state kc')) = 0).
Proof.
  intros Hwf kc'. subst kc'. split.
  { intros k. rewrite counter_path_next by assumption.
    destruct (decide (k = K)); reflexivity. }
  rewrite path_after_next. unfold queued_on. simpl. split.
  { rewrite Z.land_spec, Z.lnot_spec, testbit_kernel_bit by lia.
    rewrite bool_decide_true by reflexivity. apply andb_false_r. }
  split; [apply next_mask_self|]. split; [reflexivity|].
  intros Hlive Hq. split; [assumption|].
  rewrite next_mask_self, Hq. apply Z.land_lnot_diag.
Qed.

Lemma path_next_self_effect_witness :
  let kc' := Gpu.INTEGRATOR_PATH_NEXT INTEGRATOR_KERNEL_intersect_closest
               INTEGRATOR_KERNEL_intersect_closest camera_context in
  counter INTEGRATOR_KERNEL_intersect_closest kc' = 1
  /\ flag (path (state kc')) <> 0
  /\ queued_kernels (path (state kc')) = 0.
Proof.
  destruct (path_next_self_effect camera_context INTEGRATOR_KERNEL_intersect_closest
              camera_context_wf)
    as (Hcnt & _ & _ & _ & Hdead).
  intros kc'. refine (conj _ (Hdead _ _)).
  - unfold kc'. rewrite Hcnt. reflexivity.
  - discriminate.
  - reflexivity.
Defined.

(** ** Main path and shadow path do not touch each other *)

Lemma gpu_exec_path_congr m kc1 kc2 :
  path (state kc1) = path (state kc2) ->
  path (state (gpu_exec m kc1)) = path (state (gpu_exec m kc2)).
Proof.
  intros H. destruct m; unfold gpu_exec; simpl; rewrite ?H; reflexivity.
Qed.

Lemma gpu_exec_shadow_congr m kc1 kc2 :
  shadow_path (state kc1) = shadow_path (state kc2) ->
  shadow_path (state (gpu_exec m kc1)) = shadow_path (state (gpu_exec m kc2)).
Proof.
  intros H. destruct m; unfold gpu_exec; simpl; rewrite ?H; reflexivity.
Qed.

Lemma gpu_shadow_call_frame m kc :
  is_shadow_call m = true -> path (state (gpu_exec m kc)) = path (state kc).
Proof. destruct m; intros H; try discriminate; reflexivity. Qed.

Lemma gpu_main_call_frame m kc :
  is_main_call m = true -> shadow_path (state (gpu_exec m kc)) = shadow_path (state kc).
Proof. destruct m; intros H; try discriminate; reflexivity. Qed.

Lemma run_main_only ms : forall kc1 kc2,
  path (state kc1) = path (state kc2) ->
  path (state (run gpu_exec ms kc1))
  = path (state (run gpu_exec (filter (fun m => is_main_call m = true) ms) kc2)).
Proof.
  induction ms as [|m ms IH]; intros kc1 kc2 H; [exact H|].
  rewrite filter_cons. simpl. unfold seq.
  destruct (decide (is_main_call m = true)) as [Hm|Hm].
  - simpl. unfold seq. apply IH. now apply gpu_exec_path_congr.
  - apply IH. rewrite gpu_shadow_call_frame; [assumption|].
    unfold is_main_call in Hm. now destruct (is_shadow_call m).
Qed.

Lemma run_shadow_only ms : forall kc1 kc2,
  shadow_path (state kc1) = shadow_path (state kc2) ->
  shadow_path (state (run gpu_exec ms kc1))
  = shadow_path (state (run gpu_exec (filter (fun m => is_shadow_call m = true) ms) kc2)).
Proof.
  induction ms as [|m ms IH]; intros kc1 kc2 H; [exact H|].
  rewrite filter_cons. simpl. unfold seq.
  destruct (decide (is_shadow_call m = true)) as [Hm|Hm].
  - simpl. unfold seq. apply IH. now apply gpu_exec_shadow_congr.
  - apply IH. rewrite gpu_main_call_frame; [assumption|].
    unfold is_main_call. now destruct (is_shadow_call m).
Qed.

(** C6.  Every [INTEGRATOR_SHADOW_PATH_INIT/NEXT/TERMINATE] leaves the main
    path's flag and queued-kernel bitmask unchanged and every
    [INTEGRATOR_PATH_INIT/NEXT/TERMINATE] leaves the shadow path's flag and
    bitmask unchanged, in both variants of the macros.  Consequently, after
    any interleaving of calls the main path's members are what the main-path
    calls alone produce and the shadow path's members are what the
    shadow-path calls alone produce: a shadow path terminates whatever its
    parent does. *)
Theorem shadow_main_frame (kc : KernelContext) (c n : IntegratorPathKernel)
    (ms : list MacroCall) :
  (path (state (Gpu.INTEGRATOR_SHADOW_PATH_INIT n kc)) = path (state kc)
   /\ path (state (Gpu.INTEGRATOR_SHADOW_PATH_NEXT c n kc)) = path (state kc)
   /\ path (state (Gpu.INTEGRATOR_SHADOW_PATH_TERMINATE c kc)) = path (state kc))
  /\ (shadow_path (state (Gpu.INTEGRATOR_PATH_INIT n kc)) = shadow_path (state kc)
      /\ shadow_path (state (Gpu.INTEGRATOR_PATH_NEXT c n kc)) = shadow_path (state kc)
      /\ shadow_path (state (Gpu.INTEGRATOR_PATH_TERMINATE c kc)) = shadow_path (state kc))
  /\ (path (state (Host.INTEGRATOR_SHADOW_PATH_INIT n kc)) = path (state kc)
      /\ path (state (Host.INTEGRATOR_SHADOW_PATH_NEXT c n kc)) = path (state kc)
      /\ path (state (Host.INTEGRATOR_SHADOW_PATH_TERMINATE c kc)) = path (state kc))
  /\ (shadow_path (state (Host.INTEGRATOR_PATH_INIT n kc)) = shadow_path (state kc)
      /\ shadow_path (state (Host.INTEGRATOR_PATH_NEXT c n kc)) = shadow_path (state kc)
      /\ shadow_path (state (Host.INTEGRATOR_PATH_TERMINATE c kc)) = shadow_path (state kc))
  /\ path (state (run gpu_exec ms kc))
     = path (state (run gpu_exec (filter (fun m => is_main_call m = true) ms) kc))
  /\ shadow_path (state (run gpu_exec ms kc))
     = shadow_path (state (run gpu_exec (filter (fun m => is_shadow_call m = true) ms) kc))
  /\ INTEGRATOR_SHADOW_PATH_IS_TERMINATED (Gpu.INTEGRATOR_SHADOW_PATH_TERMINATE c kc) = true
  /\ INTEGRATOR_PATH_IS_TERMINATED (Gpu.INTEGRATOR_SHADOW_PATH_TERMINATE c kc)
     = INTEGRATOR_PATH_IS_TERMINATED kc.
Proof.
  split; [now repeat split|]. split; [now repeat split|].
  split; [now repeat split|]. split; [now repeat split|].
  split; [now apply run_main_only|]. split; [now apply run_shadow_only|].
  now split.
Qed.

(** ** The two variants of the macros *)

Lemma erase_exec_agree m kc1 kc2 :
  erase_bookkeeping kc1 = erase_bookkeeping kc2 ->
  erase_bookkeeping (gpu_exec m kc1) = erase_bookkeeping (host_exec m kc2).
Proof.
  unfold erase_bookkeeping. intros H. injection H as Hp Hs.
  destruct m; simpl; unfold skip; simpl; rewrite ?Hp, ?Hs; reflexivity.
Qed.

Lemma erase_run_agree ms : forall kc1 kc2,
  erase_bookkeeping kc1 = erase_bookkeeping kc2 ->
  erase_bookkeeping (run gpu_exec ms kc1) = erase_bookkeeping (run host_exec ms kc2).
Proof.
  induction ms as [|m ms IH]; intros kc1 kc2 H; [exact H|].
  simpl. unfold seq. apply IH. now apply erase_exec_agree.
Qed.

Lemma erase_flags kc1 kc2 :
  erase_bookkeeping kc1 = erase_bookkeeping kc2 ->
  INTEGRATOR_PATH_IS_TERMINATED kc1 = INTEGRATOR_PATH_IS_TERMINATED kc2
  /\ INTEGRATOR_SHADOW_PATH_IS_TERMINATED kc1 = INTEGRATOR_SHADOW_PATH_IS_TERMINATED kc2.
Proof.
  unfold erase_bookkeeping, INTEGRATOR_PATH_IS_TERMINATED,
    INTEGRATOR_SHADOW_PATH_IS_TERMINATED.
  intros H. injection H as Hp Hs. now rewrite Hp, Hs.
Qed.

(** C7.  Both variants of [INTEGRATOR_PATH_TERMINATE] and of
    [INTEGRATOR_SHADOW_PATH_TERMINATE] set the liveness flag to zero; the host
    variants of INIT and NEXT change nothing; and after any sequence of calls
    the two variants yield contexts that are equal once counters and
    queued-kernel bitmasks are forgotten, so [INTEGRATOR_PATH_IS_TERMINATED]
    and [INTEGRATOR_SHADOW_PATH_IS_TERMINATED] agree. *)
Theorem gpu_host_equivalent (kc : KernelContext) (c n : IntegratorPathKernel)
    (ms : list MacroCall) :
  (flag (path (state (Gpu.INTEGRATOR_PATH_TERMINATE c kc))) = 0
   /\ flag (path (state (Host.INTEGRATOR_PATH_TERMINATE c kc))) = 0
   /\ flag (shadow_path (state (Gpu.INTEGRATOR_SHADOW_PATH_TERMINATE c kc))) = 0
   /\ flag (shadow_path (state (Host.INTEGRATOR_SHADOW_PATH_TERMINATE c kc))) = 0)
  /\ (Host.INTEGRATOR_PATH_INIT n kc = kc
      /\ Host.INTEGRATOR_PATH_NEXT c n kc = kc
      /\ Host.INTEGRATOR_SHADOW_PATH_INIT n kc = kc
      /\ Host.INTEGRATOR_SHADOW_PATH_NEXT c n kc = kc)
  /\ erase_bookkeeping (run gpu_exec ms kc) = erase_bookkeeping (run host_exec ms kc)
  /\ INTEGRATOR_PATH_IS_TERMINATED (run gpu_exec ms kc)
     = INTEGRATOR_PATH_IS_TERMINATED (run host_exec ms kc)
  /\ INTEGRATOR_SHADOW_PATH_IS_TERMINATED (run gpu_exec ms kc)
     = INTEGRATOR_SHADOW_PATH_IS_TERMINATED (run host_exec ms kc).
Proof.
  split; [now repeat split|]. split; [now repeat split|].
  assert (He : erase_bookkeeping (run gpu_exec ms kc)
               = erase_bookkeeping (run host_exec ms kc))
    by now apply erase_run_agree.
  split; [exact He|]. now apply erase_flags.
Qed.

(** ** The protocol: one step *)

Lemma transition_lane_fields l t s q :
  lane_fields l (state (transition_stmt l t {| state := s; queue := q |}))
  = match t with
    | TInit f n =>
        {| flag := f;
           queued_kernels := Z.lor (queued_kernels (lane_fields l s)) (kernel_bit n) |}
    | TNext c n =>
        {| flag := flag (lane_fields l s);
           queued_kernels :=
             Z.land (Z.lor (queued_kernels (lane_fields l s)) (kernel_bit n))
                    (Z.lnot (kernel_bit c)) |}
    | TTerminate c =>
        {| flag := 0;
           queued_kernels := Z.land (queued_kernels (lane_fields l s)) (Z.lnot (kernel_bit c)) |}
    end.
Proof. destruct l, t; reflexivity. Qed.

Lemma transition_other_lane l l' t kc :
  l <> l' ->
  lane_fields l' (state (transition_stmt l t kc)) = lane_fields l' (state kc).
Proof. destruct l, l', t; intros H; try congruence; reflexivity. Qed.

Lemma transition_queue l t kc :
  queue (transition_stmt l t kc) = queue (gpu_exec (lane_call Main t) kc).
Proof. destruct l, t; reflexivity. Qed.

Lemma waiting_set_waiting l l' w g :
  waiting l' (set_waiting l w g) = if decide (l = l') then w else waiting l' g.
Proof. destruct l, l'; reflexivity. Qed.

Lemma sys_step_inv e sys sys' :
  sys_step e sys = Some sys' ->
  exists i l t s g,
    e = (i, l, t)
    /\ paths sys !! i = Some (s, g)
    /\ permitted l t g = true
    /\ sys' = {| paths := <[ i := (state (transition_stmt l t {| state := s; queue := shared sys |}),
                                  set_waiting l (waiting_after t) g) ]> (paths sys);
                 shared := queue (transition_stmt l t {| state := s; queue := shared sys |}) |}.
Proof.
  destruct e as [[i l] t]. unfold sys_step.
  destruct (paths sys !! i) as [[s g]|] eqn:Hi; [|discriminate].
  destruct (permitted l t g) eqn:Hp; [|discriminate].
  intros [= <-]. exists i, l, t, s, g. auto.
Qed.

Lemma lane_mask_ok_step l t s g q l' :
  permitted l t g = true ->
  self_transition t = false ->
  (forall l0, lane_mask_ok l0 (s, g)) ->
  lane_mask_ok l' (state (transition_stmt l t {| state := s; queue := q |}),
                   set_waiting l (waiting_after t) g).
Proof.
  intros Hperm Hself Hok. unfold lane_mask_ok; simpl.
  rewrite waiting_set_waiting. destruct (decide (l = l')) as [<-|Hne].
  - rewrite transition_lane_fields. specialize (Hok l). unfold lane_mask_ok in Hok.
    simpl in Hok. destruct t as [f n|c n|c]; simpl in *.
    + apply andb_true_iff in Hperm as [Hw _]. apply bool_decide_eq_true in Hw.
      rewrite Hw in Hok. destruct Hok as [-> _]. apply Z.lor_0_l.
    + apply bool_decide_eq_true in Hperm. rewrite Hperm in Hok. rewrite Hok.
      apply next_mask_distinct. now apply bool_decide_eq_false in Hself.
    + apply bool_decide_eq_true in Hperm. rewrite Hperm in Hok. rewrite Hok.
      split; [apply Z.land_lnot_diag | reflexivity].
  - rewrite (transition_other_lane l l' t) by assumption. apply (Hok l').
Qed.

Lemma mask_inv_step e sys sys' :
  self_transition (event_transition e) = false ->
  mask_inv sys -> sys_step e sys = Some sys' -> mask_inv sys'.
Proof.
  intros Hself Hinv Hstep.
  destruct (sys_step_inv _ _ _ Hstep) as (i & l & t & s & g & -> & Hi & Hperm & ->).
  unfold mask_inv in *; simpl in *.
  apply Forall_insert; [assumption|].
  intros l'. apply lane_mask_ok_step; try assumption.
  apply (Forall_lookup_1 _ _ _ _ Hinv Hi).
Qed.

Lemma mask_inv_run es : forall sys sys',
  forallb (fun e => negb (self_transition (event_transition e))) es = true ->
  mask_inv sys -> sys_run es sys = Some sys' -> mask_inv sys'.
Proof.
  induction es as [|e es IH]; intros sys sys' Hs Hinv Hrun; simpl in *.
  - now injection Hrun as <-.
  - apply andb_true_iff in Hs as [He Hes].
    destruct (sys_step e sys) as [sys1|] eqn:Hstep; [|discriminate].
    apply (IH sys1); try assumption.
    apply (mask_inv_step e sys); try assumption. now apply negb_true_iff.
Qed.

Lemma mask_inv_initial n : mask_inv (initial_system n).
Proof.
  unfold mask_inv, initial_system; simpl.
  apply Forall_replicate. intros []; split; reflexivity.
Qed.

(** ** The queued-kernel bitmask invariant *)

(** C1, as amended.  Along every run of the protocol from the all-zero
    state in which each step names the kernel the lane is actually queued on
    and no NEXT names the same kernel twice, every live path (flag non-zero)
    has its bitmask equal to the bit of the one kernel it is queued on, hence
    non-zero; and any TERMINATE that the protocol allows next leaves the
    bitmask (and the flag) of its path at exactly zero. *)
Theorem queued_mask_invariant (n : nat) (es : list Event) (sys : System) :
  forallb (fun e => negb (self_transition (event_transition e))) es = true ->
  sys_run es (initial_system n) = Some sys ->
  (forall i s g l,
      paths sys !! i = Some (s, g) ->
      flag (lane_fields l s) <> 0 ->
      exists k, waiting l g = Some k
                /\ queued_kernels (lane_fields l s) = kernel_bit k
                /\ queued_kernels (lane_fields l s) <> 0)
  /\ (forall i l c sys',
        sys_step (i, l, TTerminate c) sys = Some sys' ->
        exists s' g', paths sys' !! i = Some (s', g')
                      /\ queued_kernels (lane_fields l s') = 0
                      /\ flag (lane_fields l s') = 0
                      /\ waiting l g' = None).
Proof.
  intros Hstrict Hrun.
  assert (Hinv : mask_inv sys).
  { apply (mask_inv_run es (initial_system n)); auto using mask_inv_initial. }
  split.
  - intros i s g l Hi Hlive.
    pose proof (Forall_lookup_1 _ _ _ _ Hinv Hi l) as Hok.
    unfold lane_mask_ok in Hok; simpl in Hok.
    destruct (waiting l g) as [k|].
    + exists k. split; [reflexivity|]. split; [assumption|].
      rewrite Hok. pose proof (kernel_bit_pos k). lia.
    + destruct Hok as [_ Hflag]. contradiction.
  - intros i l c sys' Hstep.
    assert (Hinv' : mask_inv sys')
      by (apply (mask_inv_step (i, l, TTerminate c) sys); auto).
    destruct (sys_step_inv _ _ _ Hstep) as (i0 & l0 & t0 & s & g & [= <- <- <-] & Hi & _ & ->).
    simpl in *. eexists _, _. split.
    { apply list_lookup_insert_eq. now apply lookup_lt_Some in Hi. }
    pose proof (Forall_lookup_1 _ _ _ _ Hinv'
                  (list_lookup_insert_eq _ _ _ (lookup_lt_Some _ _ _ Hi)) l) as Hok.
    unfold lane_mask_ok in Hok; simpl in Hok.
    rewrite waiting_set_waiting, decide_True in Hok by reflexivity. simpl in Hok.
    rewrite waiting_set_waiting, decide_True by reflexivity. tauto.
Qed.

Lemma queued_mask_invariant_witness :
  exists sys s g,
    sys_run bounce_run (initial_system 1) = Some sys
    /\ paths sys !! 0%nat = Some (s, g)
    /\ flag (path s) = 1
    /\ exists k, waiting Main g = Some k
                 /\ queued_kernels (path s) = kernel_bit k
                 /\ queued_kernels (path s) <> 0.
Proof.
  destruct (sys_run bounce_run (initial_system 1)) as [sys|] eqn:Hrun.
  2: { vm_compute in Hrun. discriminate. }
  pose proof (queued_mask_invariant 1 bounce_run sys eq_refl Hrun) as [Hlive _].
  vm_compute in Hrun. injection Hrun as <-.
  eexists _, _, _. split; [reflexivity|]. split; [reflexivity|]. split; [reflexivity|].
  apply (Hlive 0%nat _ _ Main); [reflexivity | discriminate].
Defined.

(** C1, as stated, fails: the protocol precondition allows
    [INTEGRATOR_PATH_NEXT(K, K)] on a path queued on [K], and that step leaves
    the path live, still queued on [K], with a zero bitmask. *)
Lemma self_transition_empties_live_mask :
  exists sys s g,
    sys_run requeue_run (initial_system 1) = Some sys
    /\ paths sys !! 0%nat = Some (s, g)
    /\ flag (path s) <> 0
    /\ waiting Main g = Some INTEGRATOR_KERNEL_intersect_closest
    /\ queued_kernels (path s) = 0.
Proof.
  eexists _, _, _.
  split; [vm_compute; reflexivity|].
  split; [reflexivity|]. split; [discriminate|]. split; reflexivity.
Qed.

(** ** Sums over lists *)

Lemma sumZ_insert {A} (f : A -> Z) (l : list A) (i : nat) (x y : A) :
  l !! i = Some x -> sumZ f (<[ i := y ]> l) = sumZ f l - f x + f y.
Proof.
  revert i. induction l as [|a l IH]; intros [|i] H; simpl in *; try discriminate.
  - injection H as ->. lia.
  - rewrite (IH i H). lia.
Qed.

Lemma sumZ_bounds {A} (f : A -> Z) (b : Z) (l : list A) :
  (forall x, 0 <= f x <= b) -> 0 <= sumZ f l <= b * Z.of_nat (length l).
Proof.
  intros Hf. induction l as [|a l IH]; simpl length; simpl sumZ; [lia|].
  specialize (Hf a). lia.
Qed.

Lemma sumZ_ext {A} (f g : A -> Z) (l : list A) :
  Forall (fun x => f x = g x) l -> sumZ f l = sumZ g l.
Proof. induction 1 as [|x l Hx _ IH]; simpl; [reflexivity | now rewrite Hx, IH]. Qed.

Lemma sumZ_sumZ {A B} (f : A -> B -> Z) (ks : list A) (l : list B) :
  sumZ (fun k => sumZ (f k) l) ks = sumZ (fun x => sumZ (fun k => f k x) ks) l.
Proof.
  induction l as [|x l IH]; simpl.
  - induction ks; simpl; [reflexivity | lia].
  - rewrite <- IH. clear IH. induction ks as [|k ks IHk]; simpl; [reflexivity | lia].
Qed.

Lemma sumZ_nonneg {A} (f : A -> Z) (l : list A) :
  (forall x, 0 <= f x) -> 0 <= sumZ f l.
Proof.
  intros Hf. induction l as [|a l IH]; simpl; [lia | specialize (Hf a); lia].
Qed.

Lemma sumZ_zero_iff {A} (f : A -> Z) (l : list A) :
  (forall x, 0 <= f x) -> (sumZ f l = 0 <-> Forall (fun x => f x = 0) l).
Proof.
  intros Hf. induction l as [|a l IH]; simpl.
  - split; [constructor | reflexivity].
  - pose proof (Hf a) as Ha. pose proof (sumZ_nonneg f l Hf) as Hl.
    split.
    + intros Hs. constructor; [lia | apply IH; lia].
    + intros Hall. pose proof (Forall_inv Hall) as Hx. simpl in Hx.
      pose proof (Forall_inv_tail Hall) as Hrest. apply IH in Hrest. lia.
Qed.

Lemma sum_queued_kernels q :
  length (num_queued q) = INTEGRATOR_KERNEL_NUM ->
  sum_queued q = sumZ (fun k => num_queued q !!! kernel_index k) all_kernels.
Proof.
  destruct q as [l]. unfold sum_queued, INTEGRATOR_KERNEL_NUM; simpl.
  intros Hlen.
  do 7 (destruct l as [|? l]; [discriminate|]).
  destruct l; [|discriminate]. simpl. reflexivity.
Qed.

Lemma is_waiting_all w :
  sumZ (fun k => is_waiting k w) all_kernels = is_queued w.
Proof. destruct w as [[]|]; reflexivity. Qed.

Lemma is_waiting_bounds k w : 0 <= is_waiting k w <= 1.
Proof. unfold is_waiting. destruct (decide (w = Some k)); lia. Qed.

Lemma count_waiting_bounds k ps :
  0 <= count_waiting k ps <= 2 * Z.of_nat (length ps).
Proof.
  unfold count_waiting. apply sumZ_bounds. intros p.
  pose proof (is_waiting_bounds k (waiting_main (snd p))).
  pose proof (is_waiting_bounds k (waiting_shadow (snd p))). lia.
Qed.

(** ** The counters along the protocol *)

Lemma delta_waiting l t g k :
  permitted l t g = true ->
  is_waiting k (waiting_main (set_waiting l (waiting_after t) g))
  + is_waiting k (waiting_shadow (set_waiting l (waiting_after t) g))
  = is_waiting k (waiting_main g) + is_waiting k (waiting_shadow g) + delta k t.
Proof.
  intros Hperm.
  assert (Hl : is_waiting k (waiting l (set_waiting l (waiting_after t) g))
               = is_waiting k (waiting l g) + delta k t).
  { rewrite waiting_set_waiting, decide_True by reflexivity.
    unfold is_waiting, delta, indicator.
    destruct t as [f n|c n|c]; simpl in *.
    - apply andb_true_iff in Hperm as [Hw _]. apply bool_decide_eq_true in Hw.
      rewrite Hw. repeat case_decide; repeat case_bool_decide; congruence || lia.
    - apply bool_decide_eq_true in Hperm. rewrite Hperm.
      repeat case_decide; repeat case_bool_decide; congruence || lia.
    - apply bool_decide_eq_true in Hperm. rewrite Hperm.
      repeat case_decide; repeat case_bool_decide; congruence || lia. }
  destruct l; simpl in *; lia.
Qed.

Lemma counter_transition l t k kc :
  queue_wf (queue kc) ->
  num_queued (queue (transition_stmt l t kc)) !!! kernel_index k
  = to_int32 (counter k kc + delta k t).
Proof.
  intros Hwf. rewrite transition_queue.
  pose proof (counter_int32 k kc Hwf) as Hr.
  change (counter k (gpu_exec (lane_call Main t) kc) = to_int32 (counter k kc + delta k t)).
  unfold delta, indicator.
  destruct t as [f n|c n|c]; simpl;
    [ rewrite counter_path_init by assumption
    | rewrite counter_path_next by assumption
    | rewrite counter_path_terminate by assumption ];
    repeat case_decide; repeat case_bool_decide; try congruence;
    rewrite ?Z.add_0_r, ?Z.sub_diag, ?to_int32_id by assumption;
    try reflexivity; f_equal; lia.
Qed.

Lemma queue_wf_transition l t kc :
  queue_wf (queue kc) -> queue_wf (queue (transition_stmt l t kc)).
Proof.
  intros Hwf. rewrite transition_queue. destruct t; simpl.
  - now apply queue_wf_path_init.
  - now apply queue_wf_path_next.
  - now apply queue_wf_path_terminate.
Qed.

Lemma lane_live_ok_step l t s g q l' :
  permitted l t g = true ->
  (forall l0, lane_live_ok l0 (s, g)) ->
  lane_live_ok l' (state (transition_stmt l t {| state := s; queue := q |}),
                   set_waiting l (waiting_after t) g).
Proof.
  intros Hperm Hok. unfold lane_live_ok; simpl.
  rewrite waiting_set_waiting. destruct (decide (l = l')) as [<-|Hne].
  - rewrite transition_lane_fields. specialize (Hok l). unfold lane_live_ok in Hok.
    simpl in Hok. destruct t as [f n|c n|c]; simpl in *.
    + apply andb_true_iff in Hperm as [_ Hf]. apply negb_true_iff, Z.eqb_neq in Hf.
      split; [discriminate | intros _; assumption].
    + apply bool_decide_eq_true in Hperm. rewrite Hperm in Hok.
      split; [discriminate | intros _; now apply Hok].
    + split; intros H; now contradiction H.
  - rewrite (transition_other_lane l l' t) by assumption. apply (Hok l').
Qed.

Lemma acct_inv_step e sys sys' :
  2 * Z.of_nat (length (paths sys)) <= INT_MAX ->
  acct_inv sys -> sys_step e sys = Some sys' ->
  acct_inv sys'
  /\ length (paths sys') = length (paths sys)
  /\ (forall k, count_waiting k (paths sys')
                = count_waiting k (paths sys) + delta k (event_transition e)).
Proof.
  intros Hbound (Hwf & Hcnt & Hlive) Hstep.
  destruct (sys_step_inv _ _ _ Hstep) as (i & l & t & s & g & -> & Hi & Hperm & ->).
  simpl.
  assert (Hcount : forall k,
    count_waiting k (<[ i := (state (transition_stmt l t {| state := s; queue := shared sys |}),
                             set_waiting l (waiting_after t) g) ]> (paths sys))
    = count_waiting k (paths sys) + delta k t).
  { intros k. unfold count_waiting. rewrite (sumZ_insert _ _ _ _ _ Hi). simpl.
    rewrite (delta_waiting l t g k Hperm). lia. }
  split; [|split; [apply length_insert | exact Hcount]].
  split; [|split]; simpl.
  - now apply (queue_wf_transition l t {| state := s; queue := shared sys |}).
  - intros k. rewrite counter_transition by assumption.
    unfold counter; simpl. rewrite Hcnt, <- Hcount.
    apply to_int32_id.
    match goal with |- int32_range (count_waiting k ?ps) =>
      pose proof (count_waiting_bounds k ps) as Hb end.
    rewrite length_insert in Hb. unfold int32_range, INT_MIN, INT_MAX in *. lia.
  - apply Forall_insert; [assumption|].
    intros l'. apply lane_live_ok_step; [assumption|].
    apply (Forall_lookup_1 _ _ _ _ Hlive Hi).
Qed.

Lemma acct_inv_run es : forall sys sys',
  2 * Z.of_nat (length (paths sys)) <= INT_MAX ->
  acct_inv sys -> sys_run es sys = Some sys' ->
  acct_inv sys' /\ length (paths sys') = length (paths sys).
Proof.
  induction es as [|e es IH]; intros sys sys' Hb Hinv Hrun; simpl in *.
  - injection Hrun as <-. now split.
  - destruct (sys_step e sys) as [sys1|] eqn:Hstep; [|discriminate].
    destruct (acct_inv_step e sys sys1 Hb Hinv Hstep) as (Hinv1 & Hlen1 & _).
    destruct (IH sys1 sys') as [Hinv' Hlen']; try assumption.
    + now rewrite Hlen1.
    + split; [assumption | congruence].
Qed.

Lemma count_waiting_initial k n :
  count_waiting k (replicate n (fresh_state, mkGhost None None)) = 0.
Proof. induction n as [|n IH]; [reflexivity|]. unfold count_waiting in *; simpl. now rewrite IH. Qed.

Lemma acct_inv_initial n : acct_inv (initial_system n).
Proof.
  split; [apply zero_queue_wf|]. split.
  - intros k. simpl. rewrite count_waiting_initial. now destruct k.
  - simpl. apply Forall_replicate. intros []; unfold lane_live_ok; simpl; tauto.
Qed.

Lemma sumZ_add {A} (f g : A -> Z) (l : list A) :
  sumZ (fun x => f x + g x) l = sumZ f l + sumZ g l.
Proof. induction l as [|a l IH]; simpl; [reflexivity | rewrite IH; lia]. Qed.

Lemma live_is_queued l p :
  lane_live_ok l p -> live (lane_fields l (fst p)) = is_queued (waiting l (snd p)).
Proof.
  unfold lane_live_ok, live, is_queued. intros [H1 H2].
  destruct (Z.eqb_spec (flag (lane_fields l (fst p))) 0) as [E|E];
    destruct (waiting l (snd p)); try reflexivity.
  - exfalso. now apply H2.
  - exfalso. now apply H1.
Qed.

Lemma sum_count_waiting ps :
  sumZ (fun k => count_waiting k ps) all_kernels
  = sumZ (fun p => is_queued (waiting_main (snd p)) + is_queued (waiting_shadow (snd p))) ps.
Proof.
  unfold count_waiting. rewrite sumZ_sumZ. apply sumZ_ext, Forall_forall.
  intros p _. rewrite sumZ_add. now rewrite !is_waiting_all.
Qed.

Lemma acct_inv_sum sys :
  acct_inv sys -> sum_queued (shared sys) = live_count (paths sys).
Proof.
  intros ([Hlen _] & Hcnt & Hlive).
  rewrite sum_queued_kernels by assumption.
  rewrite (sumZ_ext _ (fun k => count_waiting k (paths sys)))
    by (apply Forall_forall; intros k _; apply Hcnt).
  rewrite sum_count_waiting. unfold live_count. symmetry.
  apply sumZ_ext. revert Hlive. apply List.Forall_impl.
  intros p Hp.
  pose proof (live_is_queued Main p (Hp Main)) as Hm.
  pose proof (live_is_queued Shadow p (Hp Shadow)) as Hs.
  simpl in Hm, Hs. now rewrite Hm, Hs.
Qed.

Lemma acct_inv_counters_nonneg sys :
  acct_inv sys -> Forall (fun z => 0 <= z) (num_queued (shared sys)).
Proof.
  intros ([Hlen _] & Hcnt & _). destruct sys as [ps [q]]; simpl in *.
  unfold INTEGRATOR_KERNEL_NUM in Hlen.
  do 7 (destruct q as [|? q]; [discriminate|]). destruct q; [|discriminate].
  repeat constructor.
  - pose proof (Hcnt INTEGRATOR_KERNEL_intersect_closest) as H; simpl in H.
    rewrite H. apply count_waiting_bounds.
  - pose proof (Hcnt INTEGRATOR_KERNEL_intersect_shadow) as H; simpl in H.
    rewrite H. apply count_waiting_bounds.
  - pose proof (Hcnt INTEGRATOR_KERNEL_intersect_subsurface) as H; simpl in H.
    rewrite H. apply count_waiting_bounds.
  - pose proof (Hcnt INTEGRATOR_KERNEL_shade_background) as H; simpl in H.
    rewrite H. apply count_waiting_bounds.
  - pose proof (Hcnt INTEGRATOR_KERNEL_shade_surface) as H; simpl in H.
    rewrite H. apply count_waiting_bounds.
  - pose proof (Hcnt INTEGRATOR_KERNEL_shade_volume) as H; simpl in H.
    rewrite H. apply count_waiting_bounds.
  - pose proof (Hcnt INTEGRATOR_KERNEL_shade_shadow) as H; simpl in H.
    rewrite H. apply count_waiting_bounds.
Qed.

Lemma sum_delta t :
  sumZ (fun k => delta k t) all_kernels
  = match t with TInit _ _ => 1 | TNext _ _ => 0 | TTerminate _ => -1 end.
Proof. destruct t as [f []|[] []|[]]; reflexivity. Qed.

Lemma live_count_zero_iff ps :
  live_count ps = 0
  <-> Forall (fun p => flag (path (fst p)) = 0 /\ flag (shadow_path (fst p)) = 0) ps.
Proof.
  unfold live_count. rewrite sumZ_zero_iff.
  - apply Forall_iff. intros p. unfold live.
    destruct (Z.eqb_spec (flag (path (fst p))) 0);
      destruct (Z.eqb_spec (flag (shadow_path (fst p))) 0); split; intros H;
      try lia; tauto.
  - intros p. unfold live.
    destruct (Z.eqb (flag (path (fst p))) 0), (Z.eqb (flag (shadow_path (fst p))) 0); lia.
Qed.

Lemma sumZ_id_zero_iff (l : list Z) :
  Forall (fun z => 0 <= z) l ->
  (sumZ (fun z => z) l = 0 <-> Forall (fun z => z = 0) l).
Proof.
  induction 1 as [|z l Hz Hl IH]; simpl.
  - split; [constructor | reflexivity].
  - assert (0 <= sumZ (fun z => z) l) by (clear -Hl; induction Hl; simpl; lia).
    split.
    + intros Hs. constructor; [lia | apply IH; lia].
    + intros Hall. pose proof (Forall_inv Hall) as Hx. simpl in Hx.
      pose proof (Forall_inv_tail Hall) as Hrest. apply IH in Hrest. lia.
Qed.

(** ** Counters and live paths *)

(** C4, as amended.  Along every run of the control-flow protocol (an INIT
    with its flag write on a lane that is not queued, a NEXT or TERMINATE that
    names the kernel the lane is queued on) from the all-zero state without
    live paths, for a batch small enough that an [int] can count its lanes
    ([2n <= INT_MAX]), the sum of the counters equals the number of paths,
    main and shadow, whose liveness flag is set; the counters are all zero
    exactly when no flag is set; and each further step keeps the equation, an
    INIT with its flag write raising both sides by one, a NEXT leaving both as
    they are, a TERMINATE lowering both by one. *)
Theorem counters_match_live_paths (n : nat) (es : list Event) (sys : System) :
  2 * Z.of_nat n <= INT_MAX ->
  sys_run es (initial_system n) = Some sys ->
  sum_queued (shared sys) = live_count (paths sys)
  /\ (Forall (fun z => z = 0) (num_queued (shared sys)) <-> live_count (paths sys) = 0)
  /\ (live_count (paths sys) = 0
      <-> Forall (fun p => flag (path (fst p)) = 0 /\ flag (shadow_path (fst p)) = 0)
                 (paths sys))
  /\ (forall e sys',
        sys_step e sys = Some sys' ->
        sum_queued (shared sys') = live_count (paths sys')
        /\ match event_transition e with
           | TInit _ _ =>
               sum_queued (shared sys') = sum_queued (shared sys) + 1
               /\ live_count (paths sys') = live_count (paths sys) + 1
           | TNext _ _ =>
               sum_queued (shared sys') = sum_queued (shared sys)
               /\ live_count (paths sys') = live_count (paths sys)
           | TTerminate _ =>
               sum_queued (shared sys') = sum_queued (shared sys) - 1
               /\ live_count (paths sys') = live_count (paths sys) - 1
           end).
Proof.
  intros Hn Hrun.
  assert (Hlen0 : length (paths (initial_system n)) = n) by apply length_replicate.
  destruct (acct_inv_run es (initial_system n) sys) as [Hinv Hlen];
    [rewrite Hlen0; assumption | apply acct_inv_initial | assumption |].
  pose proof (acct_inv_sum sys Hinv) as Hsum.
  split; [exact Hsum|]. split; [|split; [apply live_count_zero_iff|]].
  - rewrite <- Hsum. unfold sum_queued. symmetry.
    apply sumZ_id_zero_iff, (acct_inv_counters_nonneg sys Hinv).
  - intros e sys' Hstep.
    destruct (acct_inv_step e sys sys') as (Hinv' & Hlen' & Hcount);
      [rewrite Hlen, Hlen0; assumption | assumption | assumption |].
    pose proof (acct_inv_sum sys' Hinv') as Hsum'.
    split; [exact Hsum'|].
    assert (Hd : sum_queued (shared sys')
                 = sum_queued (shared sys) + sumZ (fun k => delta k (event_transition e)) all_kernels).
    { destruct Hinv as ([Hl _] & Hc & _). destruct Hinv' as ([Hl' _] & Hc' & _).
      rewrite !sum_queued_kernels by assumption.
      rewrite (sumZ_ext _ (fun k => count_waiting k (paths sys')))
        by (apply Forall_forall; intros k _; apply Hc').
      rewrite (sumZ_ext (fun k => num_queued (shared sys) !!! kernel_index k)
                 (fun k => count_waiting k (paths sys)))
        by (apply Forall_forall; intros k _; apply Hc).
      rewrite <- sumZ_add. apply sumZ_ext, Forall_forall. intros k _. apply Hcount. }
    rewrite sum_delta in Hd.
    destruct (event_transition e); lia.
Qed.

Lemma counters_match_live_paths_witness :
  exists sys,
    sys_run (take 3 drain_run) (initial_system 1) = Some sys
    /\ sum_queued (shared sys) = live_count (paths sys)
    /\ live_count (paths sys) = 2.
Proof.
  destruct (sys_run (take 3 drain_run) (initial_system 1)) as [sys|] eqn:Hrun.
  2: { vm_compute in Hrun. discriminate. }
  exists sys. split; [reflexivity|].
  destruct (counters_match_live_paths 1 (take 3 drain_run) sys
              ltac:(vm_compute; discriminate) Hrun) as (Hsum & _).
  split; [exact Hsum|].
  vm_compute in Hrun. injection Hrun as <-. reflexivity.
Defined.

(** C4, as stated, fails.  The sum of the counters is not preserved by an
    INIT with its flag write: the first INIT of a run from the all-zero state
    raises it from 0 to 1.  And without the protocol the sum need not be the
    number of live paths: a TERMINATE on a path that was never queued leaves
    the sum at -1 with no flag set. *)
Lemma init_raises_counter_sum :
  (exists sys',
     sys_step (0%nat, Main, TInit 1 INTEGRATOR_KERNEL_intersect_closest) (initial_system 1)
     = Some sys'
     /\ sum_queued (shared (initial_system 1)) = 0
     /\ sum_queued (shared sys') = 1
     /\ sum_queued (shared sys') <> sum_queued (shared (initial_system 1)))
  /\ (let kc := Gpu.INTEGRATOR_PATH_TERMINATE INTEGRATOR_KERNEL_intersect_closest
                  fresh_context in
      sum_queued (queue kc) = -1
      /\ live (path (state kc)) + live (shadow_path (state kc)) = 0
      /\ sum_queued (queue kc) <> live (path (state kc)) + live (shadow_path (state kc))).
Proof.
  split.
  - eexists. split; [reflexivity|]. vm_compute. repeat split; discriminate.
  - vm_compute. repeat split; discriminate.
Qed.

(** ** The device queue *)

Lemma have_error_call c q :
  have_error q = true -> have_error (snd (queue_call c q)) = true.
Proof.
  intros He. destruct c as [k n l s|]; simpl.
  - now rewrite He.
  - unfold synchronize. now rewrite He.
Qed.

Lemma have_error_calls cs : forall q,
  have_error q = true -> have_error (queue_calls cs q) = true.
Proof.
  induction cs as [|c cs IH]; intros q He; simpl; [assumption|].
  now apply IH, have_error_call.
Qed.

Lemma enqueue_result k n l s q :
  fst (enqueue k n l s q) = negb (have_error (snd (enqueue k n l s q))).
Proof. reflexivity. Qed.

Lemma doomed_call c q : doomed q = true -> doomed (snd (queue_call c q)) = true.
Proof.
  unfold doomed. intros Hd. destruct c as [k n l s|]; simpl.
  - destruct (have_error q); [reflexivity|]. simpl in *.
    destruct l; simpl; [|reflexivity].
    rewrite forallb_app. apply negb_true_iff in Hd. now rewrite Hd.
  - unfold synchronize. now rewrite Hd.
Qed.

Lemma doomed_calls cs : forall q, doomed q = true -> doomed (queue_calls cs q) = true.
Proof.
  induction cs as [|c cs IH]; intros q Hd; simpl; [assumption|].
  now apply IH, doomed_call.
Qed.

Lemma synchronize_result q : fst (synchronize q) = negb (doomed q).
Proof. unfold synchronize, doomed. now destruct (_ || _). Qed.

(** C8.  Once an enqueue on a queue has returned false, every later
    enqueue on that queue returns false, whatever calls come in between; a
    synchronize returns false whenever work that reports failure is in flight,
    and once a kernel that reports failure has been enqueued every later
    synchronize returns false; work becomes complete only in a synchronize
    that returns true, which completes everything in flight. *)
Theorem device_queue_failure_sticky (q : DeviceQueue) (cs : list QueueCall)
    (k k' : DeviceKernel) (n n' : Z) (l s l' s' : bool) :
  (fst (enqueue k n l s q) = false ->
   fst (enqueue k' n' l' s' (queue_calls cs (snd (enqueue k n l s q)))) = false
   /\ fst (synchronize (queue_calls cs (snd (enqueue k n l s q)))) = false)
  /\ ((exists w, w ∈ in_flight q /\ work_succeeds w = false) ->
      fst (synchronize q) = false)
  /\ fst (synchronize (queue_calls cs (snd (enqueue k n l false q)))) = false
  /\ (fst (synchronize q) = true ->
      in_flight (snd (synchronize q)) = []
      /\ completed (snd (synchronize q)) = completed q ++ in_flight q)
  /\ (fst (synchronize q) = false -> completed (snd (synchronize q)) = completed q)
  /\ completed (snd (enqueue k n l s q)) = completed q.
Proof.
  split; [|split; [|split; [|split; [|split]]]].
  - intros Hfail. rewrite enqueue_result in Hfail. apply negb_false_iff in Hfail.
    pose proof (have_error_calls cs _ Hfail) as He.
    set (q' := queue_calls cs (snd (enqueue k n l s q))) in *. split.
    + unfold enqueue; simpl. now rewrite He.
    + rewrite synchronize_result. unfold doomed. now rewrite He.
  - intros (w & Hin & Hw). rewrite synchronize_result. apply negb_false_iff.
    unfold doomed. apply orb_true_iff. right. apply negb_true_iff.
    apply not_true_iff_false. intros Hall.
    rewrite forallb_forall in Hall. apply list_elem_of_In in Hin.
    specialize (Hall w Hin). congruence.
  - rewrite synchronize_result. apply negb_false_iff, doomed_calls.
    unfold doomed; simpl. destruct (have_error q); [reflexivity|]. simpl.
    destruct l; simpl; [|reflexivity].
    rewrite forallb_app. simpl. now rewrite andb_false_r.
  - unfold synchronize. destruct (_ || _); [discriminate|]. intros _. now split.
  - unfold synchronize. destruct (_ || _); [reflexivity|discriminate].
  - reflexivity.
Qed.

Lemma device_queue_failure_sticky_witness :
  fst (enqueue 4%nat 64 true true
         (queue_calls [CallSynchronize; CallEnqueue 0%nat 64 true true]
            (snd (enqueue 0%nat 64 false true new_queue)))) = false
  /\ fst (synchronize (snd (enqueue 0%nat 64 true true new_queue))) = true.
Proof.
  split.
  - exact (proj1 (proj1 (device_queue_failure_sticky new_queue
                           [CallSynchronize; CallEnqueue 0%nat 64 true true]
                           0%nat 4%nat 64 64 false true true true) eq_refl)).
  - reflexivity.
Defined.

(** ** The "resolution" attribute of a curve *)

(** C10.  Writing [r] through the resolution attribute stores [max(r, 1)]
    in the spline written to, so its resolution is at least 1 afterwards and
    reads back as [max(r, 1)]; the write marks that spline's cache invalid
    and leaves the other splines of the curve alone.  A write at an index
    inside the span always goes through. *)
Theorem resolution_write_clamps {Spline : Type} `{SplineOps Spline}
    (spline : Spline) (splines : list Spline) (index : nat) (r : Z) :
  resolution (set_spline_resolution spline r) = Z.max r 1
  /\ 1 <= resolution (set_spline_resolution spline r)
  /\ get_spline_resolution (set_spline_resolution spline r) = Z.max r 1
  /\ cache_invalid (set_spline_resolution spline r) = true
  /\ (splines !! index = Some spline ->
      exists splines',
        resolution_attribute_set splines index r = Some splines'
        /\ splines' !! index = Some (set_spline_resolution spline r)
        /\ resolution_attribute_get splines' index = Some (Z.max r 1)
        /\ length splines' = length splines
        /\ forall j, j <> index -> splines' !! j = splines !! j).
Proof.
  assert (Hres : resolution (set_spline_resolution spline r) = Z.max r 1).
  { unfold set_spline_resolution.
    now rewrite resolution_mark_cache_invalid, resolution_set_resolution. }
  split; [exact Hres|]. split; [rewrite Hres; lia|]. split; [exact Hres|].
  split; [apply cache_invalid_mark|].
  intros Hi. unfold resolution_attribute_set, derived_array_set. rewrite Hi.
  eexists. split; [reflexivity|].
  assert (Hnew : <[ index := set_spline_resolution spline r ]> splines !! index
                 = Some (set_spline_resolution spline r)).
  { apply list_lookup_insert_eq. now apply lookup_lt_Some in Hi. }
  split; [exact Hnew|]. split.
  { unfold resolution_attribute_get, derived_array_get. rewrite Hnew. simpl.
    unfold get_spline_resolution. now rewrite Hres. }
  split; [apply length_insert|].
  intros j Hj. now apply list_lookup_insert_ne.
Qed.

Lemma resolution_write_clamps_witness :
  let splines := [mkPlainSpline 12 false; mkPlainSpline 12 false] in
  exists splines',
    resolution_attribute_set splines 1%nat (-5) = Some splines'
    /\ resolution_attribute_get splines' 1%nat = Some 1
    /\ resolution_attribute_get splines' 0%nat = Some 12.
Proof.
  intros splines.
  destruct (resolution_write_clamps (mkPlainSpline 12 false) splines 1%nat (-5))
    as (_ & _ & _ & _ & Hwrite).
  destruct (Hwrite eq_refl) as (splines' & Hset & _ & Hget & _ & Hother).
  exists splines'. split; [exact Hset|]. split; [exact Hget|].
  unfold resolution_attribute_get, derived_array_get.
  rewrite (Hother 0%nat) by discriminate. reflexivity.
Defined.

(** * Further properties of the control-flow macros *)

(** ** The shadow-path macros *)

Lemma to_int32_succ_pred z : int32_range z -> to_int32 (to_int32 (z + 1) - 1) = z.
Proof.
  intros Hr. replace (to_int32 (z + 1) - 1) with (to_int32 (z + 1) + (-1)) by lia.
  rewrite to_int32_idem_add.
  replace (z + 1 + -1) with z by lia. now apply to_int32_id.
Qed.

Lemma counter_gpu_exec m k kc :
  queue_wf (queue kc) ->
  counter k (gpu_exec m kc) = to_int32 (counter k kc + call_delta k m).
Proof.
  intros Hwf. pose proof (counter_int32 k kc Hwf) as Hr.
  assert (Hmain : forall t, counter k (gpu_exec (lane_call Main t) kc)
                            = to_int32 (counter k kc + delta k t)).
  { intros t. rewrite <- (counter_transition Main t k kc Hwf).
    unfold counter. now rewrite transition_queue. }
  destruct m as [n|c n|c|n|c n|c].
  - apply (Hmain (TInit 1 n)).
  - apply (Hmain (TNext c n)).
  - apply (Hmain (TTerminate c)).
  - apply (Hmain (TInit 1 n)).
  - apply (Hmain (TNext c n)).
  - apply (Hmain (TTerminate c)).
Qed.

Lemma queue_wf_gpu_exec m kc : queue_wf (queue kc) -> queue_wf (queue (gpu_exec m kc)).
Proof.
  intros Hwf. destruct m; simpl.
  - now apply queue_wf_path_init.
  - now apply queue_wf_path_next.
  - now apply queue_wf_path_terminate.
  - now apply (queue_wf_path_init next_kernel kc).
  - now apply (queue_wf_path_next current_kernel next_kernel kc).
  - now apply (queue_wf_path_terminate current_kernel kc).
Qed.

(** X1.  With a well-formed queue and two distinct kernels,
    [INTEGRATOR_SHADOW_PATH_NEXT(current_kernel, next_kernel)] decrements
    [current_kernel]'s counter and increments [next_kernel]'s (32-bit
    arithmetic), clears the one bit and sets the other in the shadow path's
    bitmask, and leaves every other slot, every other bit position of the
    bitmask, the shadow flag and the whole main path as they were. *)
Theorem shadow_path_next_distinct_effect (kc : KernelContext)
    (c n : IntegratorPathKernel) :
  queue_wf (queue kc) ->
  c <> n ->
  let kc' := Gpu.INTEGRATOR_SHADOW_PATH_NEXT c n kc in
  counter c kc' = to_int32 (counter c kc - 1)
  /\ (INT_MIN < counter c kc -> counter c kc' = counter c kc - 1)
  /\ counter n kc' = to_int32 (counter n kc + 1)
  /\ (counter n kc < INT_MAX -> counter n kc' = counter n kc + 1)
  /\ (forall k, k <> c -> k <> n -> counter k kc' = counter k kc)
  /\ queued_on c (shadow_path (state kc')) = false
  /\ queued_on n (shadow_path (state kc')) = true
  /\ (forall k, k <> c -> k <> n ->
        queued_on k (shadow_path (state kc')) = queued_on k (shadow_path (state kc)))
  /\ flag (shadow_path (state kc')) = flag (shadow_path (state kc))
  /\ path (state kc') = path (state kc)
  /\ queued_kernels (shadow_path (state kc'))
     = Z.land (Z.lor (queued_kernels (shadow_path (state kc))) (kernel_bit n))
              (Z.lnot (kernel_bit c))
  /\ (forall i, 0 <= i ->
        i <> Z.of_nat (kernel_index c) -> i <> Z.of_nat (kernel_index n) ->
        Z.testbit (queued_kernels (shadow_path (state kc'))) i
        = Z.testbit (queued_kernels (shadow_path (state kc))) i).
Proof.
  intros Hwf Hne kc'. subst kc'.
  pose proof (counter_int32 c kc Hwf) as Hrc.
  pose proof (counter_int32 n kc Hwf) as Hrn.
  assert (Hcnt : forall k, counter k (Gpu.INTEGRATOR_SHADOW_PATH_NEXT c n kc)
                           = counter k (Gpu.INTEGRATOR_PATH_NEXT c n kc)) by reflexivity.
  assert (Hc : counter c (Gpu.INTEGRATOR_SHADOW_PATH_NEXT c n kc)
               = to_int32 (counter c kc - 1)).
  { rewrite Hcnt, counter_path_next by assumption.
    rewrite (decide_False (P := c = n)) by assumption. now rewrite decide_True. }
  assert (Hn : counter n (Gpu.INTEGRATOR_SHADOW_PATH_NEXT c n kc)
               = to_int32 (counter n kc + 1)).
  { rewrite Hcnt, counter_path_next by assumption.
    rewrite decide_True by reflexivity. now rewrite decide_False by congruence. }
  split; [exact Hc|]. split; [intros Hlt; rewrite Hc; now apply to_int32_pred|].
  split; [exact Hn|]. split; [intros Hlt; rewrite Hn; now apply to_int32_succ|].
  split.
  { intros k Hkc Hkn. rewrite Hcnt, counter_path_next by assumption.
    now rewrite !decide_False by assumption. }
  unfold queued_on; simpl.
  split.
  { rewrite Z.land_spec, Z.lnot_spec, testbit_kernel_bit by lia.
    rewrite bool_decide_true by reflexivity. apply andb_false_r. }
  split.
  { rewrite Z.land_spec, Z.lnot_spec, Z.lor_spec, !testbit_kernel_bit by lia.
    rewrite bool_decide_true by reflexivity.
    rewrite bool_decide_false by assumption. now rewrite orb_true_r. }
  split.
  { intros k Hkc Hkn.
    rewrite Z.land_spec, Z.lnot_spec, Z.lor_spec, !testbit_kernel_bit by lia.
    rewrite !bool_decide_false by congruence. simpl.
    now rewrite orb_false_r, andb_true_r. }
  split; [reflexivity|]. split; [reflexivity|]. split; [reflexivity|].
  intros i Hi Hic Hin.
  rewrite Z.land_spec, Z.lnot_spec, Z.lor_spec by assumption.
  unfold kernel_bit. rewrite !Z.shiftl_1_l, !Z.pow2_bits_eqb by lia.
  destruct (Z.eqb_spec (Z.of_nat (kernel_index n)) i); [congruence|].
  destruct (Z.eqb_spec (Z.of_nat (kernel_index c)) i); [congruence|].
  simpl. now rewrite orb_false_r, andb_true_r.
Qed.

Lemma shadow_path_next_distinct_effect_witness :
  let kc := Gpu.INTEGRATOR_SHADOW_PATH_INIT INTEGRATOR_KERNEL_intersect_shadow
              camera_context in
  let kc' := Gpu.INTEGRATOR_SHADOW_PATH_NEXT INTEGRATOR_KERNEL_intersect_shadow
               INTEGRATOR_KERNEL_shade_shadow kc in
  counter INTEGRATOR_KERNEL_intersect_shadow kc' = 0
  /\ counter INTEGRATOR_KERNEL_shade_shadow kc' = 1
  /\ queued_on INTEGRATOR_KERNEL_shade_shadow (shadow_path (state kc')) = true.
Proof.
  intros kc kc'.
  destruct (shadow_path_next_distinct_effect kc
              INTEGRATOR_KERNEL_intersect_shadow INTEGRATOR_KERNEL_shade_shadow
              (queue_wf_gpu_exec (SHADOW_PATH_INIT INTEGRATOR_KERNEL_intersect_shadow)
                 camera_context camera_context_wf)
              ltac:(discriminate))
    as (_ & Hdec & _ & Hinc & _ & _ & Hset & _).
  refine (conj _ (conj _ Hset)).
  - unfold kc'. rewrite Hdec; vm_compute; reflexivity.
  - unfold kc'. rewrite Hinc; vm_compute; reflexivity.
Defined.

(** X2.  [INTEGRATOR_SHADOW_PATH_TERMINATE(current_kernel)], with a well-formed
    queue, decrements [current_kernel]'s counter (32-bit arithmetic), clears
    that kernel's bit in the shadow path's bitmask and no other bit position
    (kernel bit or not), zeroes
    the shadow flag so that [INTEGRATOR_SHADOW_PATH_IS_TERMINATED] holds, and
    leaves the main path, its flag included, as it was. *)
Theorem shadow_path_terminate_effect (kc : KernelContext) (c : IntegratorPathKernel) :
  queue_wf (queue kc) ->
  let kc' := Gpu.INTEGRATOR_SHADOW_PATH_TERMINATE c kc in
  counter c kc' = to_int32 (counter c kc - 1)
  /\ (INT_MIN < counter c kc -> counter c kc' = counter c kc - 1)
  /\ (forall k, k <> c -> counter k kc' = counter k kc)
  /\ queued_on c (shadow_path (state kc')) = false
  /\ (forall k, k <> c ->
        queued_on k (shadow_path (state kc')) = queued_on k (shadow_path (state kc)))
  /\ (queued_kernels (shadow_path (state kc)) = kernel_bit c ->
        queued_kernels (shadow_path (state kc')) = 0)
  /\ INTEGRATOR_SHADOW_PATH_IS_TERMINATED kc' = true
  /\ INTEGRATOR_PATH_IS_TERMINATED kc' = INTEGRATOR_PATH_IS_TERMINATED kc
  /\ path (state kc') = path (state kc)
  /\ queued_kernels (shadow_path (state kc'))
     = Z.land (queued_kernels (shadow_path (state kc))) (Z.lnot (kernel_bit c))
  /\ (forall i, 0 <= i -> i <> Z.of_nat (kernel_index c) ->
        Z.testbit (queued_kernels (shadow_path (state kc'))) i
        = Z.testbit (queued_kernels (shadow_path (state kc))) i).
Proof.
  intros Hwf kc'. subst kc'.
  pose proof (counter_int32 c kc Hwf) as Hrc.
  assert (Hcnt : forall k, counter k (Gpu.INTEGRATOR_SHADOW_PATH_TERMINATE c kc)
                           = counter k (Gpu.INTEGRATOR_PATH_TERMINATE c kc)) by reflexivity.
  assert (Hc : counter c (Gpu.INTEGRATOR_SHADOW_PATH_TERMINATE c kc)
               = to_int32 (counter c kc - 1)).
  { rewrite Hcnt, counter_path_terminate by assumption. now rewrite decide_True. }
  split; [exact Hc|]. split; [intros Hlt; rewrite Hc; now apply to_int32_pred|].
  split.
  { intros k Hk. rewrite Hcnt, counter_path_terminate by assumption.
    now rewrite decide_False. }
  unfold queued_on, INTEGRATOR_SHADOW_PATH_IS_TERMINATED, INTEGRATOR_PATH_IS_TERMINATED.
  simpl. split.
  { rewrite Z.land_spec, Z.lnot_spec, testbit_kernel_bit by lia.
    rewrite bool_decide_true by reflexivity. apply andb_false_r. }
  split.
  { intros k Hk. rewrite Z.land_spec, Z.lnot_spec, testbit_kernel_bit by lia.
    rewrite bool_decide_false by congruence. apply andb_true_r. }
  split; [intros ->; apply Z.land_lnot_diag|].
  split; [reflexivity|]. split; [reflexivity|]. split; [reflexivity|].
  split; [reflexivity|].
  intros i Hi Hic. rewrite Z.land_spec, Z.lnot_spec by assumption.
  unfold kernel_bit. rewrite Z.shiftl_1_l, Z.pow2_bits_eqb by lia.
  destruct (Z.eqb_spec (Z.of_nat (kernel_index c)) i); [congruence|].
  apply andb_true_r.
Qed.

Lemma shadow_path_terminate_effect_witness :
  let kc := Gpu.INTEGRATOR_SHADOW_PATH_INIT INTEGRATOR_KERNEL_intersect_shadow
              camera_context in
  let kc' := Gpu.INTEGRATOR_SHADOW_PATH_TERMINATE INTEGRATOR_KERNEL_intersect_shadow kc in
  counter INTEGRATOR_KERNEL_intersect_shadow kc' = 0
  /\ queued_kernels (shadow_path (state kc')) = 0
  /\ INTEGRATOR_PATH_IS_TERMINATED kc' = false.
Proof.
  intros kc kc'.
  destruct (shadow_path_terminate_effect kc INTEGRATOR_KERNEL_intersect_shadow
              (queue_wf_gpu_exec (SHADOW_PATH_INIT INTEGRATOR_KERNEL_intersect_shadow)
                 camera_context camera_context_wf))
    as (_ & Hdec & _ & _ & _ & Hzero & _ & Hmain & _).
  refine (conj _ (conj (Hzero eq_refl) _)).
  - unfold kc'. rewrite Hdec; vm_compute; reflexivity.
  - unfold kc'. rewrite Hmain. reflexivity.
Defined.

(** ** Round trips and composition *)

Lemma queue_ext (q1 q2 : IntegratorPathQueue) :
  length (num_queued q1) = INTEGRATOR_KERNEL_NUM ->
  length (num_queued q2) = INTEGRATOR_KERNEL_NUM ->
  (forall k, num_queued q1 !!! kernel_index k = num_queued q2 !!! kernel_index k) ->
  q1 = q2.
Proof.
  destruct q1 as [l1], q2 as [l2]. unfold INTEGRATOR_KERNEL_NUM. simpl.
  intros H1 H2 Hk.
  do 7 (destruct l1 as [|? l1]; [discriminate|]). destruct l1; [|discriminate].
  do 7 (destruct l2 as [|? l2]; [discriminate|]). destruct l2; [|discriminate].
  pose proof (Hk INTEGRATOR_KERNEL_intersect_closest) as E0.
  pose proof (Hk INTEGRATOR_KERNEL_intersect_shadow) as E1.
  pose proof (Hk INTEGRATOR_KERNEL_intersect_subsurface) as E2.
  pose proof (Hk INTEGRATOR_KERNEL_shade_background) as E3.
  pose proof (Hk INTEGRATOR_KERNEL_shade_surface) as E4.
  pose proof (Hk INTEGRATOR_KERNEL_shade_volume) as E5.
  pose proof (Hk INTEGRATOR_KERNEL_shade_shadow) as E6.
  simpl in *. congruence.
Qed.

Lemma context_ext (kc1 kc2 : KernelContext) :
  queue_wf (queue kc1) -> queue_wf (queue kc2) ->
  path (state kc1) = path (state kc2) ->
  shadow_path (state kc1) = shadow_path (state kc2) ->
  (forall k, counter k kc1 = counter k kc2) ->
  kc1 = kc2.
Proof.
  destruct kc1 as [[p1 s1] q1], kc2 as [[p2 s2] q2]. simpl.
  intros [H1 _] [H2 _] -> -> Hk. f_equal. now apply queue_ext.
Qed.

Lemma mask_clear_unset m k :
  Z.testbit m (Z.of_nat (kernel_index k)) = false ->
  Z.land m (Z.lnot (kernel_bit k)) = m.
Proof.
  intros Hbit. apply Z.bits_inj'. intros i Hi.
  rewrite Z.land_spec, Z.lnot_spec by assumption.
  unfold kernel_bit. rewrite Z.shiftl_1_l, Z.pow2_bits_eqb by lia.
  destruct (Z.eqb_spec (Z.of_nat (kernel_index k)) i) as [<-|Hne].
  - rewrite Hbit. reflexivity.
  - apply andb_true_r.
Qed.

Lemma mask_set_set m k :
  Z.testbit m (Z.of_nat (kernel_index k)) = true ->
  Z.lor m (kernel_bit k) = m.
Proof.
  intros Hbit. apply Z.bits_inj'. intros i Hi.
  rewrite Z.lor_spec. unfold kernel_bit. rewrite Z.shiftl_1_l, Z.pow2_bits_eqb by lia.
  destruct (Z.eqb_spec (Z.of_nat (kernel_index k)) i) as [<-|Hne].
  - rewrite Hbit. reflexivity.
  - apply orb_false_r.
Qed.

(** X3.  INIT followed by TERMINATE of the same kernel, on a path whose bitmask
    did not hold that kernel's bit, gives back the queue and the bitmask it
    started from; only the flag is now zero. *)
Theorem init_terminate_round_trip (kc : KernelContext) (k : IntegratorPathKernel) :
  queue_wf (queue kc) ->
  queued_on k (path (state kc)) = false ->
  Gpu.INTEGRATOR_PATH_TERMINATE k (Gpu.INTEGRATOR_PATH_INIT k kc)
  = write_path (flag_assign 0) kc.
Proof.
  intros Hwf Hbit. apply context_ext.
  - now apply queue_wf_path_terminate, queue_wf_path_init.
  - exact Hwf.
  - rewrite path_after_terminate, path_after_init. simpl. unfold flag_assign. f_equal.
    rewrite next_mask_self. now apply mask_clear_unset.
  - reflexivity.
  - intros j. rewrite counter_path_terminate by now apply queue_wf_path_init.
    rewrite counter_path_init by assumption. rewrite counter_write_path.
    destruct (decide (j = k)); [|reflexivity].
    apply to_int32_succ_pred. now apply counter_int32.
Qed.

Lemma init_terminate_round_trip_witness :
  Gpu.INTEGRATOR_PATH_TERMINATE INTEGRATOR_KERNEL_shade_surface
    (Gpu.INTEGRATOR_PATH_INIT INTEGRATOR_KERNEL_shade_surface camera_context)
  = write_path (flag_assign 0) camera_context.
Proof.
  apply (init_terminate_round_trip camera_context INTEGRATOR_KERNEL_shade_surface).
  - exact camera_context_wf.
  - reflexivity.
Defined.

(** X4.  Moving a path from [a] to [b] and on to [c] is the same as moving it
    from [a] to [c] directly, when the three kernels differ and the path was
    not already marked for [b]. *)
Theorem next_next_compose (kc : KernelContext) (a b c : IntegratorPathKernel) :
  queue_wf (queue kc) ->
  a <> b -> b <> c -> a <> c ->
  queued_on b (path (state kc)) = false ->
  Gpu.INTEGRATOR_PATH_NEXT b c (Gpu.INTEGRATOR_PATH_NEXT a b kc)
  = Gpu.INTEGRATOR_PATH_NEXT a c kc.
Proof.
  intros Hwf Hab Hbc Hac Hbit. apply context_ext.
  - now apply queue_wf_path_next, queue_wf_path_next.
  - now apply queue_wf_path_next.
  - rewrite !path_after_next. simpl. f_equal.
    unfold queued_on in Hbit.
    apply Z.bits_inj'. intros i Hi.
    rewrite !Z.land_spec, !Z.lor_spec, !Z.land_spec, !Z.lnot_spec, !Z.lor_spec by assumption.
    unfold kernel_bit. rewrite !Z.shiftl_1_l, !Z.pow2_bits_eqb by lia.
    destruct (Z.eqb_spec (Z.of_nat (kernel_index a)) i) as [Ea|Ea];
      destruct (Z.eqb_spec (Z.of_nat (kernel_index b)) i) as [Eb|Eb];
      destruct (Z.eqb_spec (Z.of_nat (kernel_index c)) i) as [Ec|Ec];
      subst; simpl; rewrite ?Hbit, ?orb_false_r, ?orb_true_r, ?andb_true_r, ?andb_false_r;
      try reflexivity.
    all: exfalso; match goal with
         | H : Z.of_nat (kernel_index ?x) = Z.of_nat (kernel_index ?y) |- _ =>
             apply Nat2Z.inj, kernel_index_inj in H; congruence
         end.
  - reflexivity.
  - intros j. rewrite counter_path_next by now apply queue_wf_path_next.
    rewrite !counter_path_next by assumption.
    pose proof (counter_int32 j kc Hwf) as Hr.
    repeat case_decide; subst; try congruence.
    now apply to_int32_succ_pred.
Qed.

Lemma next_next_compose_witness :
  Gpu.INTEGRATOR_PATH_NEXT INTEGRATOR_KERNEL_shade_surface INTEGRATOR_KERNEL_shade_volume
    (Gpu.INTEGRATOR_PATH_NEXT INTEGRATOR_KERNEL_intersect_closest
       INTEGRATOR_KERNEL_shade_surface camera_context)
  = Gpu.INTEGRATOR_PATH_NEXT INTEGRATOR_KERNEL_intersect_closest
      INTEGRATOR_KERNEL_shade_volume camera_context.
Proof.
  apply (next_next_compose camera_context INTEGRATOR_KERNEL_intersect_closest
           INTEGRATOR_KERNEL_shade_surface INTEGRATOR_KERNEL_shade_volume).
  - exact camera_context_wf.
  - discriminate.
  - discriminate.
  - discriminate.
  - reflexivity.
Defined.

(** X5.  Moving a path from [a] to [b] and back gives the context it started
    from, when the path was marked for [a] and not for [b]. *)
Theorem next_back_round_trip (kc : KernelContext) (a b : IntegratorPathKernel) :
  queue_wf (queue kc) ->
  a <> b ->
  queued_on a (path (state kc)) = true ->
  queued_on b (path (state kc)) = false ->
  Gpu.INTEGRATOR_PATH_NEXT b a (Gpu.INTEGRATOR_PATH_NEXT a b kc) = kc.
Proof.
  intros Hwf Hab Ha Hb. apply context_ext.
  - now apply queue_wf_path_next, queue_wf_path_next.
  - exact Hwf.
  - rewrite !path_after_next. simpl. destruct (path (state kc)) as [f m]. simpl in *.
    f_equal. unfold queued_on in Ha, Hb. simpl in Ha, Hb.
    apply Z.bits_inj'. intros i Hi.
    rewrite !Z.land_spec, !Z.lor_spec, !Z.land_spec, !Z.lnot_spec, !Z.lor_spec by assumption.
    unfold kernel_bit. rewrite !Z.shiftl_1_l, !Z.pow2_bits_eqb by lia.
    destruct (Z.eqb_spec (Z.of_nat (kernel_index a)) i) as [Ea|Ea];
      destruct (Z.eqb_spec (Z.of_nat (kernel_index b)) i) as [Eb|Eb];
      subst; simpl; rewrite ?Ha, ?Hb, ?orb_false_r, ?orb_true_r, ?andb_true_r, ?andb_false_r;
      try reflexivity.
    exfalso. apply Nat2Z.inj, kernel_index_inj in Eb. congruence.
  - reflexivity.
  - intros j. rewrite counter_path_next by now apply queue_wf_path_next.
    rewrite !counter_path_next by assumption.
    pose proof (counter_int32 j kc Hwf) as Hr.
    repeat case_decide; subst; try congruence.
    + now apply to_int32_pred_succ.
    + now apply to_int32_succ_pred.
Qed.

Lemma next_back_round_trip_witness :
  Gpu.INTEGRATOR_PATH_NEXT INTEGRATOR_KERNEL_shade_surface INTEGRATOR_KERNEL_intersect_closest
    (Gpu.INTEGRATOR_PATH_NEXT INTEGRATOR_KERNEL_intersect_closest
       INTEGRATOR_KERNEL_shade_surface camera_context)
  = camera_context.
Proof.
  apply (next_back_round_trip camera_context INTEGRATOR_KERNEL_intersect_closest
           INTEGRATOR_KERNEL_shade_surface).
  - exact camera_context_wf.
  - discriminate.
  - reflexivity.
  - reflexivity.
Defined.

(** ** Order of completion *)

Lemma to_int32_add_comm x d1 d2 :
  to_int32 (to_int32 (x + d1) + d2) = to_int32 (to_int32 (x + d2) + d1).
Proof. rewrite !to_int32_idem_add. f_equal. lia. Qed.

(** X6.  The counter updates of any two macro calls commute: whichever of two
    kernels completes first, the queue ends up the same.  A main-path call and
    a shadow-path call commute on the whole context. *)
Theorem macro_calls_commute (kc : KernelContext) (m1 m2 : MacroCall) :
  queue_wf (queue kc) ->
  queue (gpu_exec m1 (gpu_exec m2 kc)) = queue (gpu_exec m2 (gpu_exec m1 kc))
  /\ (is_main_call m1 = true -> is_shadow_call m2 = true ->
      gpu_exec m1 (gpu_exec m2 kc) = gpu_exec m2 (gpu_exec m1 kc)).
Proof.
  intros Hwf.
  assert (Hq : queue (gpu_exec m1 (gpu_exec m2 kc)) = queue (gpu_exec m2 (gpu_exec m1 kc))).
  { apply queue_ext.
    - now apply queue_wf_gpu_exec, queue_wf_gpu_exec.
    - now apply queue_wf_gpu_exec, queue_wf_gpu_exec.
    - intros k.
      change (counter k (gpu_exec m1 (gpu_exec m2 kc))
              = counter k (gpu_exec m2 (gpu_exec m1 kc))).
      rewrite !counter_gpu_exec by (try apply queue_wf_gpu_exec; assumption).
      apply to_int32_add_comm. }
  split; [exact Hq|].
  intros H1 H2.
  destruct (gpu_exec m1 (gpu_exec m2 kc)) as [[p1 s1] q1] eqn:E1.
  destruct (gpu_exec m2 (gpu_exec m1 kc)) as [[p2 s2] q2] eqn:E2.
  simpl in Hq. subst q2.
  assert (Hp : p1 = p2).
  { change p1 with (path (state {| state := {| path := p1; shadow_path := s1 |}; queue := q1 |})).
    change p2 with (path (state {| state := {| path := p2; shadow_path := s2 |}; queue := q1 |})).
    rewrite <- E1, <- E2.
    destruct m1; try discriminate; destruct m2; try discriminate; reflexivity. }
  assert (Hs : s1 = s2).
  { change s1 with (shadow_path (state {| state := {| path := p1; shadow_path := s1 |};
                                          queue := q1 |})).
    change s2 with (shadow_path (state {| state := {| path := p2; shadow_path := s2 |};
                                          queue := q1 |})).
    rewrite <- E1, <- E2.
    destruct m1; try discriminate; destruct m2; try discriminate; reflexivity. }
  now subst.
Qed.

Lemma macro_calls_commute_witness :
  gpu_exec (PATH_TERMINATE INTEGRATOR_KERNEL_intersect_closest)
    (gpu_exec (SHADOW_PATH_INIT INTEGRATOR_KERNEL_intersect_shadow) camera_context)
  = gpu_exec (SHADOW_PATH_INIT INTEGRATOR_KERNEL_intersect_shadow)
      (gpu_exec (PATH_TERMINATE INTEGRATOR_KERNEL_intersect_closest) camera_context).
Proof.
  exact (proj2 (macro_calls_commute camera_context
                  (PATH_TERMINATE INTEGRATOR_KERNEL_intersect_closest)
                  (SHADOW_PATH_INIT INTEGRATOR_KERNEL_intersect_shadow)
                  camera_context_wf) eq_refl eq_refl).
Defined.

(** ** What the macros never do *)

Lemma flag_after_call (exec : MacroCall -> Stmt) m kc :
  exec = gpu_exec \/ exec = host_exec ->
  (flag (path (state (exec m kc))) = flag (path (state kc))
   \/ flag (path (state (exec m kc))) = 0)
  /\ (flag (shadow_path (state (exec m kc))) = flag (shadow_path (state kc))
      \/ flag (shadow_path (state (exec m kc))) = 0).
Proof. intros [-> | ->]; destruct m; simpl; auto. Qed.

(** X7.  No macro, in either variant, ever sets a flag that was zero: after any
    sequence of calls each flag is what it was or zero, so a terminated path
    stays terminated until kernel code outside the macros writes its flag. *)
Theorem macros_never_revive (exec : MacroCall -> Stmt) (ms : list MacroCall)
    (kc : KernelContext) :
  exec = gpu_exec \/ exec = host_exec ->
  (flag (path (state (run exec ms kc))) = flag (path (state kc))
   \/ flag (path (state (run exec ms kc))) = 0)
  /\ (flag (shadow_path (state (run exec ms kc))) = flag (shadow_path (state kc))
      \/ flag (shadow_path (state (run exec ms kc))) = 0)
  /\ (INTEGRATOR_PATH_IS_TERMINATED kc = true ->
      INTEGRATOR_PATH_IS_TERMINATED (run exec ms kc) = true)
  /\ (INTEGRATOR_SHADOW_PATH_IS_TERMINATED kc = true ->
      INTEGRATOR_SHADOW_PATH_IS_TERMINATED (run exec ms kc) = true).
Proof.
  intros Hexec.
  assert (H : (flag (path (state (run exec ms kc))) = flag (path (state kc))
               \/ flag (path (state (run exec ms kc))) = 0)
              /\ (flag (shadow_path (state (run exec ms kc))) = flag (shadow_path (state kc))
                  \/ flag (shadow_path (state (run exec ms kc))) = 0)).
  { revert kc. induction ms as [|m ms IH]; intros kc; simpl; [auto|].
    unfold seq. destruct (IH (exec m kc)) as [Hp Hs].
    destruct (flag_after_call exec m kc Hexec) as [Hp1 Hs1].
    split.
    - destruct Hp as [-> | ->]; auto.
    - destruct Hs as [-> | ->]; auto. }
  destruct H as [Hp Hs]. split; [exact Hp|]. split; [exact Hs|].
  unfold INTEGRATOR_PATH_IS_TERMINATED, INTEGRATOR_SHADOW_PATH_IS_TERMINATED.
  split; intros Hz; apply Z.eqb_eq in Hz; apply Z.eqb_eq.
  - destruct Hp as [-> | ->]; auto.
  - destruct Hs as [-> | ->]; auto.
Qed.

Lemma macros_never_revive_witness :
  INTEGRATOR_PATH_IS_TERMINATED
    (run gpu_exec [PATH_INIT INTEGRATOR_KERNEL_intersect_closest;
                   PATH_NEXT INTEGRATOR_KERNEL_intersect_closest
                     INTEGRATOR_KERNEL_shade_surface] fresh_context) = true.
Proof.
  apply (macros_never_revive gpu_exec _ fresh_context (or_introl eq_refl)).
  reflexivity.
Defined.

Lemma fits_unsigned_land_ones w m : 0 <= w -> (fits_unsigned w m <-> Z.land m (Z.ones w) = m).
Proof.
  intros Hw. unfold fits_unsigned. rewrite Z.land_ones by assumption.
  pose proof (Z.pow_pos_nonneg 2 w ltac:(lia) Hw) as Hpos.
  split.
  - intros Hm. now apply Z.mod_small.
  - intros <-. now apply Z.mod_pos_bound.
Qed.

Lemma kernel_bit_fits w k :
  Z.of_nat INTEGRATOR_KERNEL_NUM <= w -> fits_unsigned w (kernel_bit k).
Proof.
  intros Hw. unfold fits_unsigned, kernel_bit. rewrite Z.shiftl_1_l. split.
  - apply Z.pow_nonneg. lia.
  - apply Z.pow_lt_mono_r; [lia | lia |].
    pose proof (kernel_index_lt k). lia.
Qed.

Lemma fits_unsigned_or w m k :
  Z.of_nat INTEGRATOR_KERNEL_NUM <= w ->
  fits_unsigned w m -> fits_unsigned w (Z.lor m (kernel_bit k)).
Proof.
  intros Hw Hm. assert (0 <= w) by (unfold INTEGRATOR_KERNEL_NUM in Hw; lia).
  apply fits_unsigned_land_ones; [assumption|].
  rewrite Z.land_lor_distr_l.
  apply fits_unsigned_land_ones in Hm; [|assumption]. rewrite Hm.
  pose proof (kernel_bit_fits w k Hw) as Hk.
  apply fits_unsigned_land_ones in Hk; [|assumption]. now rewrite Hk.
Qed.

Lemma fits_unsigned_and_not w m k :
  0 <= w -> fits_unsigned w m -> fits_unsigned w (Z.land m (Z.lnot (kernel_bit k))).
Proof.
  intros Hw Hm. apply fits_unsigned_land_ones; [assumption|].
  apply fits_unsigned_land_ones in Hm; [|assumption].
  rewrite <- Z.land_assoc, (Z.land_comm (Z.lnot _)), Z.land_assoc. now rewrite Hm.
Qed.

Lemma fits_after_call w m kc :
  Z.of_nat INTEGRATOR_KERNEL_NUM <= w ->
  fits_unsigned w (queued_kernels (path (state kc))) ->
  fits_unsigned w (queued_kernels (shadow_path (state kc))) ->
  fits_unsigned w (queued_kernels (path (state (gpu_exec m kc))))
  /\ fits_unsigned w (queued_kernels (shadow_path (state (gpu_exec m kc)))).
Proof.
  intros Hw Hp Hs. assert (0 <= w) by (unfold INTEGRATOR_KERNEL_NUM in Hw; lia).
  destruct m; simpl; split; try assumption;
    repeat (apply fits_unsigned_and_not; [assumption|]);
    repeat (apply fits_unsigned_or; [assumption|]); assumption.
Qed.

(** X8.  Along any sequence of calls a well-formed queue stays well formed, and
    a bitmask that fits an unsigned member of [w] bits, [w] at least the
    number of kernels, still fits: the macros never set a bit beyond the
    kernels', so [|=] and [&= ~] lose nothing whatever the member's width. *)
Theorem macros_keep_well_formed (w : Z) (ms : list MacroCall) (kc : KernelContext) :
  Z.of_nat INTEGRATOR_KERNEL_NUM <= w ->
  queue_wf (queue kc) ->
  fits_unsigned w (queued_kernels (path (state kc))) ->
  fits_unsigned w (queued_kernels (shadow_path (state kc))) ->
  queue_wf (queue (run gpu_exec ms kc))
  /\ fits_unsigned w (queued_kernels (path (state (run gpu_exec ms kc))))
  /\ fits_unsigned w (queued_kernels (shadow_path (state (run gpu_exec ms kc)))).
Proof.
  intros Hw. revert kc. induction ms as [|m ms IH]; intros kc Hwf Hp Hs; simpl.
  - auto.
  - unfold seq. destruct (fits_after_call w m kc Hw Hp Hs) as [Hp' Hs'].
    apply IH; [now apply queue_wf_gpu_exec | assumption | assumption].
Qed.

Lemma macros_keep_well_formed_witness :
  fits_unsigned 8
    (queued_kernels (path (state
       (run gpu_exec [PATH_NEXT INTEGRATOR_KERNEL_intersect_closest
                        INTEGRATOR_KERNEL_shade_shadow] camera_context)))).
Proof.
  apply (macros_keep_well_formed 8
           [PATH_NEXT INTEGRATOR_KERNEL_intersect_closest INTEGRATOR_KERNEL_shade_shadow]
           camera_context).
  - vm_compute. discriminate.
  - exact camera_context_wf.
  - vm_compute. split; [discriminate | reflexivity].
  - vm_compute. split; [discriminate | reflexivity].
Defined.

(** X9.  On the host nothing is counted: after any sequence of calls of the host
    variant the queue and both bitmasks are what they were. *)
Theorem host_keeps_no_books (ms : list MacroCall) (kc : KernelContext) :
  queue (run host_exec ms kc) = queue kc
  /\ queued_kernels (path (state (run host_exec ms kc))) = queued_kernels (path (state kc))
  /\ queued_kernels (shadow_path (state (run host_exec ms kc)))
     = queued_kernels (shadow_path (state kc)).
Proof.
  revert kc. induction ms as [|m ms IH]; intros kc; simpl; [auto|].
  unfold seq. destruct (IH (host_exec m kc)) as (-> & -> & ->).
  destruct m; simpl; auto.
Qed.

(** ** More on the protocol *)

Lemma is_waiting_zero k w : is_waiting k w = 0 <-> w <> Some k.
Proof. unfold is_waiting. destruct (decide (w = Some k)); split; intros; try lia; congruence. Qed.

(** X10.  Along every run of the protocol from the all-zero state (self-transitions
    included, the batch small enough for an [int] to count its lanes) each
    counter slot holds exactly the number of lanes queued on its kernel; so it
    is never negative, and it is zero exactly when no lane waits for that
    kernel, which is what lets the host skip the kernel's dispatch. *)
Theorem counter_counts_waiting_lanes (n : nat) (es : list Event) (sys : System)
    (k : IntegratorPathKernel) :
  2 * Z.of_nat n <= INT_MAX ->
  sys_run es (initial_system n) = Some sys ->
  num_queued (shared sys) !!! kernel_index k = count_waiting k (paths sys)
  /\ 0 <= num_queued (shared sys) !!! kernel_index k <= 2 * Z.of_nat n
  /\ (num_queued (shared sys) !!! kernel_index k = 0
      <-> Forall (fun p => waiting_main (snd p) <> Some k /\ waiting_shadow (snd p) <> Some k)
                 (paths sys)).
Proof.
  intros Hn Hrun.
  assert (Hlen0 : length (paths (initial_system n)) = n) by apply length_replicate.
  destruct (acct_inv_run es (initial_system n) sys) as [(_ & Hcnt & _) Hlen];
    [rewrite Hlen0; assumption | apply acct_inv_initial | assumption |].
  rewrite Hcnt. split; [reflexivity|]. split.
  - pose proof (count_waiting_bounds k (paths sys)) as Hb.
    rewrite Hlen, Hlen0 in Hb. exact Hb.
  - unfold count_waiting. rewrite sumZ_zero_iff.
    + apply Forall_iff. intros p.
      pose proof (is_waiting_bounds k (waiting_main (snd p))).
      pose proof (is_waiting_bounds k (waiting_shadow (snd p))).
      rewrite <- !is_waiting_zero. lia.
    + intros p.
      pose proof (is_waiting_bounds k (waiting_main (snd p))).
      pose proof (is_waiting_bounds k (waiting_shadow (snd p))). lia.
Qed.

Lemma counter_counts_waiting_lanes_witness :
  exists sys,
    sys_run drain_run (initial_system 1) = Some sys
    /\ num_queued (shared sys) !!! kernel_index INTEGRATOR_KERNEL_shade_background = 0.
Proof.
  destruct (sys_run drain_run (initial_system 1)) as [sys|] eqn:Hrun.
  2: { vm_compute in Hrun. discriminate. }
  exists sys. split; [reflexivity|].
  destruct (counter_counts_waiting_lanes 1 drain_run sys INTEGRATOR_KERNEL_shade_background
              ltac:(vm_compute; discriminate) Hrun) as (Hcnt & _).
  rewrite Hcnt. vm_compute in Hrun. injection Hrun as <-. reflexivity.
Defined.





(** * The edge-factor extractor *)

(** ** Arrays *)

Lemma array_set_Some {A} (a a' : list A) i x :
  array_set a i x = Some a' ->
  0 <= i /\ (Z.to_nat i < length a)%nat /\ a' = <[ Z.to_nat i := x ]> a.
Proof.
  unfold array_set. destruct (Z.ltb_spec i 0); [discriminate|].
  destruct (Nat.ltb_spec (Z.to_nat i) (length a)); [|discriminate].
  intros [= <-]. auto.
Qed.

Lemma array_set_in_range {A} (a : list A) i x :
  0 <= i < Z.of_nat (length a) -> array_set a i x = Some (<[ Z.to_nat i := x ]> a).
Proof.
  intros Hi. unfold array_set. destruct (Z.ltb_spec i 0); [lia|].
  destruct (Nat.ltb_spec (Z.to_nat i) (length a)); [reflexivity | lia].
Qed.

Lemma array_get_Some {A} (a : list A) i x :
  array_get a i = Some x -> 0 <= i < Z.of_nat (length a) /\ a !! Z.to_nat i = Some x.
Proof.
  unfold array_get. destruct (Z.ltb_spec i 0); [discriminate|].
  intros Hx. pose proof (lookup_lt_Some _ _ _ Hx). split; [lia | assumption].
Qed.

Lemma array_get_in_range {A} (a : list A) i :
  0 <= i < Z.of_nat (length a) -> exists x, array_get a i = Some x.
Proof.
  intros Hi. unfold array_get. destruct (Z.ltb_spec i 0); [lia|].
  apply lookup_lt_is_Some_2. lia.
Qed.

Lemma array_get_set_eq {A} (a a' : list A) i x :
  array_set a i x = Some a' -> array_get a' i = Some x.
Proof.
  intros Hs. destruct (array_set_Some _ _ _ _ Hs) as (Hi & Hlt & ->).
  unfold array_get. destruct (Z.ltb_spec i 0); [lia|].
  now apply list_lookup_insert_eq.
Qed.

Lemma array_get_set_ne {A} (a a' : list A) i j x :
  array_set a i x = Some a' -> i <> j -> array_get a' j = array_get a j.
Proof.
  intros Hs Hne. destruct (array_set_Some _ _ _ _ Hs) as (Hi & Hlt & ->).
  unfold array_get. destruct (Z.ltb_spec j 0); [reflexivity|].
  apply list_lookup_insert_ne. lia.
Qed.

Lemma array_set_length {A} (a a' : list A) i x :
  array_set a i x = Some a' -> length a' = length a.
Proof.
  intros Hs. destruct (array_set_Some _ _ _ _ Hs) as (_ & _ & ->). apply length_insert.
Qed.

(** ** The scan for edges that are not drawn *)

Section EdgeFacProperties.
Context {V N : Type}.
Variable ME_EDGERENDER : Z.
Variable factor_byte : N -> V -> V -> Z.

Lemma edge_render_scan_spec n : forall med use,
  (n <= length med)%nat ->
  edge_render_scan ME_EDGERENDER n med use
  = Some (use || existsb (edge_hidden ME_EDGERENDER) (take n med)).
Proof.
  induction n as [|n IH]; intros med use Hlen; simpl.
  - now rewrite orb_false_r.
  - destruct med as [|e med]; [simpl in Hlen; lia|]. simpl in *.
    unfold edge_hidden at 1.
    destruct (Z.eqb (Z.land (med_flag e) ME_EDGERENDER) 0); simpl.
    + now rewrite orb_true_r.
    + apply IH. lia.
Qed.

Lemma edge_render_scan_short n : forall med use,
  (length med < n)%nat ->
  existsb (edge_hidden ME_EDGERENDER) med = false ->
  edge_render_scan ME_EDGERENDER n med use = None.
Proof.
  induction n as [|n IH]; intros med use Hlen Hnone; [lia|].
  destruct med as [|e med]; [reflexivity|]. simpl in *.
  apply orb_false_iff in Hnone as [He Hrest]. unfold edge_hidden in He. rewrite He.
  apply IH; [lia | assumption].
Qed.

(** X12.  [extract_edge_fac_init] on a mesh whose edge array holds [edge_len]
    edges: edge-render mode is switched on exactly when it already was or
    some edge lacks the [ME_EDGERENDER] bit, the count buffer comes back all
    zero, and the vertex buffer is the fresh one.  For the other extraction
    types edge-render mode is always on and the count buffer is not touched. *)
Theorem edge_fac_init_mode (mr : MeshRenderData V N) (fresh_vbo : list Z)
    (data : MeshExtract_EdgeFac_Data) :
  (Z.to_nat (edge_len mr) <= length (medge mr))%nat ->
  exists data',
    extract_edge_fac_init ME_EDGERENDER mr fresh_vbo data = Some data'
    /\ vbo_data data' = fresh_vbo
    /\ (extract_type mr = MR_EXTRACT_MESH ->
        use_edge_render data'
        = use_edge_render data
          || existsb (edge_hidden ME_EDGERENDER) (take (Z.to_nat (edge_len mr)) (medge mr))
        /\ Forall (fun c => c = 0) (edge_loop_count data')
        /\ length (edge_loop_count data') = (4 * Z.to_nat (edge_len mr))%nat)
    /\ (extract_type mr <> MR_EXTRACT_MESH ->
        use_edge_render data' = true
        /\ edge_loop_count data' = edge_loop_count data).
Proof.
  intros Hlen. unfold extract_edge_fac_init.
  destruct (extract_type mr) eqn:Ht.
  - eexists. split; [reflexivity|]. simpl. split; [reflexivity|].
    split; [discriminate|]. auto.
  - eexists. split; [reflexivity|]. simpl. split; [reflexivity|].
    split; [discriminate|]. auto.
  - rewrite edge_render_scan_spec by assumption.
    eexists. split; [reflexivity|]. simpl. split; [reflexivity|].
    split; [|congruence]. intros _. split; [reflexivity|]. split.
    + apply Forall_replicate. reflexivity.
    + apply length_replicate.
Qed.

End EdgeFacProperties.

Lemma edge_fac_init_mode_witness :
  exists data',
    extract_edge_fac_init 32 two_triangles (replicate 6 7) blank_edge_fac_data = Some data'
    /\ use_edge_render data' = true.
Proof.
  destruct (edge_fac_init_mode 32 two_triangles (replicate 6 7) blank_edge_fac_data)
    as (data' & Hinit & _ & Hmesh & _).
  { vm_compute. lia. }
  exists data'. split; [exact Hinit|].
  destruct (Hmesh eq_refl) as (-> & _). reflexivity.
Defined.

(** ** One polygon of a mesh *)

Section EdgeFacLoops.
Context {V N : Type}.
Variable ME_EDGERENDER : Z.
Variable factor_byte : N -> V -> V -> Z.
Variable mr : MeshRenderData V N.
Variable mp : MPoly.
Variable mp_index : Z.

Lemma loop_body_render ml_index data data' :
  use_edge_render data = true ->
  edge_fac_loop_body ME_EDGERENDER factor_byte mr mp mp_index ml_index data = Some data' ->
  exists ml med,
    array_get (mloop mr) ml_index = Some ml
    /\ medge mr !! ml_e ml = Some med
    /\ array_set (vbo_data data) ml_index (edge_render_byte ME_EDGERENDER med)
       = Some (vbo_data data')
    /\ use_edge_render data' = true
    /\ edge_loop_count data' = edge_loop_count data.
Proof.
  intros Huse. unfold edge_fac_loop_body. rewrite Huse.
  destruct (array_get (mloop mr) ml_index) as [ml|]; [|discriminate].
  destruct (medge mr !! ml_e ml) as [med|] eqn:Hmed; [|discriminate].
  unfold edge_render_byte.
  destruct (array_set _ _ _) as [vbo'|] eqn:Hset; [|discriminate].
  intros [= <-]. exists ml, med. simpl. auto.
Qed.

Lemma loops_render n : forall start data data',
  use_edge_render data = true ->
  edge_fac_loops ME_EDGERENDER factor_byte mr mp mp_index n start data = Some data' ->
  use_edge_render data' = true
  /\ edge_loop_count data' = edge_loop_count data
  /\ length (vbo_data data') = length (vbo_data data)
  /\ (forall i, ~ (start <= i < start + Z.of_nat n) ->
        array_get (vbo_data data') i = array_get (vbo_data data) i)
  /\ (forall i, start <= i < start + Z.of_nat n ->
        exists ml med,
          array_get (mloop mr) i = Some ml
          /\ medge mr !! ml_e ml = Some med
          /\ array_get (vbo_data data') i = Some (edge_render_byte ME_EDGERENDER med)).
Proof.
  induction n as [|n IH]; intros start data data' Huse Hrun.
  - simpl in Hrun. injection Hrun as <-.
    split; [assumption|]. split; [reflexivity|]. split; [reflexivity|].
    split; [reflexivity|]. intros i Hi. lia.
  - simpl in Hrun.
    destruct (edge_fac_loop_body _ _ _ _ _ start data) as [data1|] eqn:Hbody; [|discriminate].
    destruct (loop_body_render _ _ _ Huse Hbody) as (ml & med & Hml & Hmed & Hset & Huse1 & Hc1).
    destruct (IH _ _ _ Huse1 Hrun) as (Huse' & Hc' & Hlen' & Hframe & Hin).
    split; [assumption|]. split; [congruence|].
    split; [rewrite Hlen'; now apply array_set_length in Hset|]. split.
    + intros i Hi. rewrite Hframe by lia. apply (array_get_set_ne _ _ _ _ _ Hset). lia.
    + intros i Hi. destruct (Z.eq_dec i start) as [->|Hne].
      * exists ml, med. split; [assumption|]. split; [assumption|].
        rewrite Hframe by lia. apply (array_get_set_eq _ _ _ _ Hset).
      * apply Hin. lia.
Qed.

(** X13.  In edge-render mode [extract_edge_fac_iter_poly_mesh] stores, for every
    loop of the polygon, 255 if the loop's edge has [ME_EDGERENDER] set and 0
    if not; it changes no byte outside the polygon's loops, keeps the length of
    the buffer and leaves the count buffer alone. *)
Theorem iter_poly_mesh_edge_render (data data' : MeshExtract_EdgeFac_Data) :
  use_edge_render data = true ->
  extract_edge_fac_iter_poly_mesh ME_EDGERENDER factor_byte mr mp mp_index data = Some data' ->
  use_edge_render data' = true
  /\ edge_loop_count data' = edge_loop_count data
  /\ length (vbo_data data') = length (vbo_data data)
  /\ (forall i, ~ (loopstart mp <= i < loopstart mp + totloop mp) ->
        array_get (vbo_data data') i = array_get (vbo_data data) i)
  /\ (forall i, loopstart mp <= i < loopstart mp + totloop mp ->
        exists ml med,
          array_get (mloop mr) i = Some ml
          /\ medge mr !! ml_e ml = Some med
          /\ array_get (vbo_data data') i
             = Some (if Z.eqb (Z.land (med_flag med) ME_EDGERENDER) 0 then 0 else 255)).
Proof.
  intros Huse Hrun. unfold extract_edge_fac_iter_poly_mesh in Hrun.
  destruct (loops_render _ _ _ _ Huse Hrun) as (H1 & H2 & H3 & H4 & H5).
  split; [assumption|]. split; [assumption|]. split; [assumption|]. split.
  - intros i Hi. apply H4. lia.
  - intros i Hi. apply H5. lia.
Qed.

End EdgeFacLoops.

Lemma iter_poly_mesh_edge_render_witness :
  exists data',
    extract_edge_fac_iter_poly_mesh 32 flat_factor two_triangles (mkMPoly 3 3) 1
      rendering_data = Some data'
    /\ array_get (vbo_data data') 5 = Some 0
    /\ array_get (vbo_data data') 0 = Some 7.
Proof.
  destruct (extract_edge_fac_iter_poly_mesh 32 flat_factor two_triangles (mkMPoly 3 3) 1
              rendering_data) as [data'|] eqn:Hrun.
  2: { vm_compute in Hrun. discriminate. }
  exists data'. split; [reflexivity|].
  destruct (iter_poly_mesh_edge_render 32 flat_factor two_triangles (mkMPoly 3 3) 1
              rendering_data data' eq_refl Hrun) as (_ & _ & _ & Hframe & Hin).
  split.
  - destruct (Hin 5 ltac:(simpl; lia)) as (ml & med & Hml & Hmed & Hbyte).
    vm_compute in Hml. injection Hml as <-.
    vm_compute in Hmed. injection Hmed as <-. exact Hbyte.
  - rewrite (Hframe 0) by (simpl; lia). reflexivity.
Defined.

(** ** Counting loops per edge *)

Lemma visits_nonneg e es : 0 <= visits e es.
Proof. induction es as [|e' es IH]; simpl; [lia|]. destruct (decide (e' = e)); lia. Qed.

Lemma loop_edges_S loops start n ml :
  array_get loops start = Some ml ->
  loop_edges loops start (S n) = ml_e ml :: loop_edges loops (start + 1) n.
Proof.
  intros Hml. apply array_get_Some in Hml as [Hr Hml].
  unfold loop_edges. rewrite (drop_S _ _ _ Hml). simpl.
  replace (Z.to_nat (start + 1)) with (S (Z.to_nat start)) by lia. reflexivity.
Qed.

Section EdgeFacCounting.
Context {V N : Type}.
Variable ME_EDGERENDER : Z.
Variable factor_byte : N -> V -> V -> Z.
Variable mr : MeshRenderData V N.
Variable mp : MPoly.
Variable mp_index : Z.

Lemma loop_body_count ml_index data data' :
  use_edge_render data = false ->
  edge_fac_loop_body ME_EDGERENDER factor_byte mr mp mp_index ml_index data = Some data' ->
  exists ml c x,
    array_get (mloop mr) ml_index = Some ml
    /\ edge_loop_count data !! ml_e ml = Some c
    /\ edge_loop_count data'
       = <[ ml_e ml := if Z.ltb c 3 then c + 1 else c ]> (edge_loop_count data)
    /\ use_edge_render data' = false
    /\ array_set (vbo_data data) ml_index x = Some (vbo_data data')
    /\ ((if Z.ltb c 3 then c + 1 else c) <> 2 -> x = 255)
    /\ ((if Z.ltb c 3 then c + 1 else c) = 2 ->
        loop_factor factor_byte mr mp mp_index ml_index x).
Proof.
  intros Huse. unfold edge_fac_loop_body. rewrite Huse.
  destruct (array_get (mloop mr) ml_index) as [ml|] eqn:Hml; [|discriminate].
  destruct (edge_loop_count data !! ml_e ml) as [c|] eqn:Hc; [|discriminate].
  cbv zeta. fold (next_loop_index mp ml_index).
  destruct (Z.eqb_spec (if Z.ltb c 3 then c + 1 else c) 2) as [E|E].
  - destruct (array_get (mloop mr) (next_loop_index mp ml_index)) as [ml_next|] eqn:Hnext;
      [|discriminate].
    destruct (mvert mr !! ml_v ml) as [v1|] eqn:Hv1; [|discriminate].
    destruct (mvert mr !! ml_v ml_next) as [v2|] eqn:Hv2; [|discriminate].
    destruct (array_get (poly_normals mr) mp_index) as [f_no|] eqn:Hno; [|discriminate].
    destruct (array_set _ _ _) as [vbo'|] eqn:Hset; [|discriminate].
    intros [= <-]. exists ml, c, (factor_byte f_no v1 v2). simpl.
    do 5 (split; [first [assumption | reflexivity]|]). split; [congruence|].
    intros _. exists ml, ml_next, v1, v2, f_no.
    do 5 (split; [first [assumption | reflexivity]|]). reflexivity.
  - destruct (array_set _ _ _) as [vbo'|] eqn:Hset; [|discriminate].
    intros [= <-]. exists ml, c, 255. simpl.
    do 5 (split; [first [assumption | reflexivity]|]). split; [reflexivity|]. congruence.
Qed.

Lemma loops_count n : forall start data data',
  use_edge_render data = false ->
  counts_saturated (edge_loop_count data) ->
  edge_fac_loops ME_EDGERENDER factor_byte mr mp mp_index n start data = Some data' ->
  use_edge_render data' = false
  /\ length (vbo_data data') = length (vbo_data data)
  /\ length (edge_loop_count data') = length (edge_loop_count data)
  /\ counts_saturated (edge_loop_count data')
  /\ (forall e c, edge_loop_count data !! e = Some c ->
        edge_loop_count data' !! e
        = Some (Z.min 3 (c + visits e (loop_edges (mloop mr) start n))))
  /\ (forall i, ~ (start <= i < start + Z.of_nat n) ->
        array_get (vbo_data data') i = array_get (vbo_data data) i)
  /\ (forall i, start <= i < start + Z.of_nat n ->
        exists ml c,
          array_get (mloop mr) i = Some ml
          /\ edge_loop_count data !! ml_e ml = Some c
          /\ (c + visits (ml_e ml) (loop_edges (mloop mr) start (Z.to_nat (i - start))) = 1 ->
              exists x, loop_factor factor_byte mr mp mp_index i x
                        /\ array_get (vbo_data data') i = Some x)
          /\ (c + visits (ml_e ml) (loop_edges (mloop mr) start (Z.to_nat (i - start))) <> 1 ->
              array_get (vbo_data data') i = Some 255)).
Proof.
  induction n as [|n IH]; intros start data data' Huse Hsat Hrun.
  - simpl in Hrun. injection Hrun as <-.
    split; [assumption|]. split; [reflexivity|]. split; [reflexivity|].
    split; [assumption|]. split.
    { intros e c Hc. unfold loop_edges. simpl. rewrite Z.add_0_r.
      pose proof (Forall_lookup_1 _ _ _ _ Hsat Hc) as Hr. simpl in Hr.
      rewrite Hc. f_equal. lia. }
    split; [reflexivity|]. intros i Hi. lia.
  - simpl in Hrun.
    destruct (edge_fac_loop_body _ _ _ _ _ start data) as [data1|] eqn:Hbody; [|discriminate].
    destruct (loop_body_count _ _ _ Huse Hbody)
      as (ml0 & c0 & x0 & Hml0 & Hc0 & Hcounts1 & Huse1 & Hset & Hx255 & Hxfac).
    pose proof (Forall_lookup_1 _ _ _ _ Hsat Hc0) as Hr0. simpl in Hr0.
    assert (Hc0' : (if Z.ltb c0 3 then c0 + 1 else c0) = Z.min 3 (c0 + 1)).
    { destruct (Z.ltb_spec c0 3); lia. }
    rewrite Hc0' in *.
    assert (Hsat1 : counts_saturated (edge_loop_count data1)).
    { rewrite Hcounts1. apply Forall_insert; [assumption | lia]. }
    destruct (IH _ _ _ Huse1 Hsat1 Hrun)
      as (Huse' & Hlen' & Hclen' & Hsat' & Hfinal & Hframe & Hin).
    pose proof (lookup_lt_Some _ _ _ Hc0) as He0.
    rewrite (loop_edges_S _ _ _ _ Hml0).
    split; [assumption|].
    split; [rewrite Hlen'; now apply array_set_length in Hset|].
    split; [rewrite Hclen', Hcounts1; apply length_insert|].
    split; [assumption|]. split; [|split].
    + intros e c Hc. simpl.
      pose proof (visits_nonneg e (loop_edges (mloop mr) (start + 1) n)) as Hv.
      pose proof (Forall_lookup_1 _ _ _ _ Hsat Hc) as Hr. simpl in Hr.
      destruct (decide (ml_e ml0 = e)) as [<-|Hne].
      * assert (c = c0) by congruence. subst c.
        rewrite (Hfinal (ml_e ml0) (Z.min 3 (c0 + 1))).
        -- f_equal; lia.
        -- rewrite Hcounts1. now apply list_lookup_insert_eq.
      * rewrite (Hfinal e c).
        -- f_equal; lia.
        -- rewrite Hcounts1. now rewrite list_lookup_insert_ne.
    + intros i Hi. rewrite Hframe by lia. apply (array_get_set_ne _ _ _ _ _ Hset). lia.
    + intros i Hi. destruct (Z.eq_dec i start) as [->|Hne].
      * exists ml0, c0. split; [assumption|]. split; [assumption|].
        rewrite Z.sub_diag. unfold loop_edges at 1 2. simpl. rewrite Z.add_0_r.
        assert (Hat : array_get (vbo_data data') start = Some x0).
        { rewrite Hframe by lia. apply (array_get_set_eq _ _ _ _ Hset). }
        split.
        -- intros Hone. exists x0. split; [|assumption]. apply Hxfac. lia.
        -- intros Hone. rewrite Hat. f_equal. apply Hx255. lia.
      * destruct (Hin i ltac:(lia)) as (ml & c1 & Hml & Hc1 & Hfac & Hnon).
        replace (Z.to_nat (i - start)) with (S (Z.to_nat (i - (start + 1)))) by lia.
        rewrite (loop_edges_S _ _ _ _ Hml0).
        pose proof (visits_nonneg (ml_e ml)
                      (loop_edges (mloop mr) (start + 1) (Z.to_nat (i - (start + 1))))) as Hv.
        destruct (decide (ml_e ml0 = ml_e ml)) as [Heq|Hneq].
        -- exists ml, c0. split; [assumption|]. split; [congruence|].
           assert (c1 = Z.min 3 (c0 + 1)).
           { rewrite Hcounts1, <- Heq in Hc1.
             rewrite list_lookup_insert_eq in Hc1 by assumption. congruence. }
           subst c1. simpl. rewrite decide_True by assumption. split.
           ++ intros Hone. apply Hfac. lia.
           ++ intros Hone. apply Hnon. lia.
        -- exists ml, c1. split; [assumption|].
           rewrite Hcounts1, list_lookup_insert_ne in Hc1 by assumption.
           split; [assumption|]. simpl. rewrite decide_False by assumption. split.
           ++ intros Hone. apply Hfac. lia.
           ++ intros Hone. apply Hnon. lia.
Qed.

(** X14.  In counting mode [extract_edge_fac_iter_poly_mesh] adds, for every edge,
    the number of the polygon's loops that run along it to the edge's count,
    stopping at 3; a loop gets its factor byte exactly when it is the second
    loop seen on its edge (count before it, plus earlier loops of this polygon
    on the same edge, equal to 1) and 255 otherwise; no byte outside the
    polygon's loops changes and both buffers keep their length. *)
Theorem iter_poly_mesh_counting (data data' : MeshExtract_EdgeFac_Data) :
  use_edge_render data = false ->
  counts_saturated (edge_loop_count data) ->
  extract_edge_fac_iter_poly_mesh ME_EDGERENDER factor_byte mr mp mp_index data = Some data' ->
  use_edge_render data' = false
  /\ length (vbo_data data') = length (vbo_data data)
  /\ length (edge_loop_count data') = length (edge_loop_count data)
  /\ counts_saturated (edge_loop_count data')
  /\ (forall e c, edge_loop_count data !! e = Some c ->
        edge_loop_count data' !! e
        = Some (Z.min 3 (c + visits e (loop_edges (mloop mr) (loopstart mp)
                                         (Z.to_nat (totloop mp))))))
  /\ (forall i, ~ (loopstart mp <= i < loopstart mp + totloop mp) ->
        array_get (vbo_data data') i = array_get (vbo_data data) i)
  /\ (forall i, loopstart mp <= i < loopstart mp + totloop mp ->
        exists ml c,
          array_get (mloop mr) i = Some ml
          /\ edge_loop_count data !! ml_e ml = Some c
          /\ (c + visits (ml_e ml)
                    (loop_edges (mloop mr) (loopstart mp) (Z.to_nat (i - loopstart mp))) = 1 ->
              exists x, loop_factor factor_byte mr mp mp_index i x
                        /\ array_get (vbo_data data') i = Some x)
          /\ (c + visits (ml_e ml)
                    (loop_edges (mloop mr) (loopstart mp) (Z.to_nat (i - loopstart mp))) <> 1 ->
              array_get (vbo_data data') i = Some 255)).
Proof.
  intros Huse Hsat Hrun. unfold extract_edge_fac_iter_poly_mesh in Hrun.
  destruct (loops_count _ _ _ _ Huse Hsat Hrun) as (H1 & H2 & H3 & H4 & H5 & H6 & H7).
  split; [assumption|]. split; [assumption|]. split; [assumption|].
  split; [assumption|]. split; [assumption|]. split.
  - intros i Hi. apply H6. lia.
  - intros i Hi. apply H7. lia.
Qed.

End EdgeFacCounting.

Lemma iter_poly_mesh_counting_witness :
  exists data',
    extract_edge_fac_iter_poly_mesh 32 flat_factor two_triangles (mkMPoly 0 3) 0
      counting_data = Some data'
    /\ array_get (vbo_data data') 2 = Some 255
    /\ edge_loop_count data' !! 2%nat = Some 1.
Proof.
  destruct (extract_edge_fac_iter_poly_mesh 32 flat_factor two_triangles (mkMPoly 0 3) 0
              counting_data) as [data'|] eqn:Hrun.
  2: { vm_compute in Hrun. discriminate. }
  exists data'. split; [reflexivity|].
  destruct (iter_poly_mesh_counting 32 flat_factor two_triangles (mkMPoly 0 3) 0
              counting_data data' eq_refl) as (_ & _ & _ & _ & Hcount & _ & Hin).
  { apply Forall_replicate. lia. }
  { exact Hrun. }
  split.
  - destruct (Hin 2 ltac:(simpl; lia)) as (ml & c & Hml & Hc & _ & H255).
    vm_compute in Hml. injection Hml as <-.
    vm_compute in Hc. injection Hc as <-.
    apply H255. vm_compute. discriminate.
  - rewrite (Hcount 2%nat 0 eq_refl). reflexivity.
Defined.

(** ** Staying inside the arrays *)

Section EdgeFacBounds.
Context {V N : Type}.
Variable ME_EDGERENDER : Z.
Variable factor_byte : N -> V -> V -> Z.
Variable mr : MeshRenderData V N.
Variable mp : MPoly.
Variable mp_index : Z.

Lemma next_loop_index_in_poly i :
  loopstart mp <= i < loopstart mp + totloop mp ->
  loopstart mp <= next_loop_index mp i < loopstart mp + totloop mp.
Proof.
  intros Hi. unfold next_loop_index.
  destruct (Z.eqb_spec i (totloop mp + loopstart mp - 1)); lia.
Qed.

Lemma loop_body_total i data :
  poly_in_bounds mr mp mp_index data ->
  loopstart mp <= i < loopstart mp + totloop mp ->
  exists data1,
    edge_fac_loop_body ME_EDGERENDER factor_byte mr mp mp_index i data = Some data1
    /\ length (vbo_data data1) = length (vbo_data data)
    /\ length (edge_loop_count data1) = length (edge_loop_count data).
Proof.
  intros (Hs & Ht & Hloops & Hvbo & Hnorm & Hall) Hi.
  assert (Hget : forall j, loopstart mp <= j < loopstart mp + totloop mp ->
            exists ml, array_get (mloop mr) j = Some ml
                       /\ (ml_e ml < length (medge mr))%nat
                       /\ (ml_e ml < length (edge_loop_count data))%nat
                       /\ (ml_v ml < length (mvert mr))%nat).
  { intros j Hj. destruct (array_get_in_range (mloop mr) j ltac:(lia)) as [ml Hml].
    exists ml. split; [assumption|].
    apply array_get_Some in Hml as [_ Hml].
    apply (Forall_lookup_1 _ _ _ _ Hall Hml). }
  destruct (Hget i Hi) as (ml & Hml & Hemed & Hecnt & Hv).
  unfold edge_fac_loop_body. rewrite Hml.
  destruct (use_edge_render data).
  - destruct (lookup_lt_is_Some_2 _ _ Hemed) as [med ->].
    rewrite array_set_in_range by lia.
    eexists. split; [reflexivity|]. simpl. split; [apply length_insert | reflexivity].
  - destruct (lookup_lt_is_Some_2 _ _ Hecnt) as [c ->]. cbv zeta.
    fold (next_loop_index mp i).
    destruct (Z.eqb (if Z.ltb c 3 then c + 1 else c) 2).
    + destruct (Hget _ (next_loop_index_in_poly i Hi)) as (ml2 & -> & _ & _ & Hv2).
      destruct (lookup_lt_is_Some_2 _ _ Hv) as [v1 ->].
      destruct (lookup_lt_is_Some_2 _ _ Hv2) as [v2 ->].
      destruct (array_get_in_range (poly_normals mr) mp_index Hnorm) as [f_no ->].
      rewrite array_set_in_range by lia.
      eexists. split; [reflexivity|]. simpl. split; apply length_insert.
    + rewrite array_set_in_range by lia.
      eexists. split; [reflexivity|]. simpl. split; apply length_insert.
Qed.

Lemma loops_total n : forall start data,
  poly_in_bounds mr mp mp_index data ->
  loopstart mp <= start ->
  start + Z.of_nat n <= loopstart mp + totloop mp ->
  exists data',
    edge_fac_loops ME_EDGERENDER factor_byte mr mp mp_index n start data = Some data'.
Proof.
  induction n as [|n IH]; intros start data Hb Hs He; simpl.
  - eauto.
  - destruct (loop_body_total start data Hb ltac:(lia)) as (data1 & -> & Hl1 & Hl2).
    apply IH; [|lia|lia].
    destruct Hb as (H1 & H2 & H3 & H4 & H5 & H6).
    unfold poly_in_bounds. rewrite Hl1, Hl2. auto 7.
Qed.

(** X15.  When the polygon's loops lie inside the loop array and the vertex
    buffer, the polygon has a normal, and every loop of the mesh names an edge
    and a vertex that exist (the edge having a slot in the count buffer),
    [extract_edge_fac_iter_poly_mesh] completes in either mode: no read or
    write leaves its array. *)
Theorem iter_poly_mesh_in_bounds (data : MeshExtract_EdgeFac_Data) :
  poly_in_bounds mr mp mp_index data ->
  exists data',
    extract_edge_fac_iter_poly_mesh ME_EDGERENDER factor_byte mr mp mp_index data
    = Some data'.
Proof.
  intros Hb. unfold extract_edge_fac_iter_poly_mesh.
  apply loops_total; [assumption | lia |].
  destruct Hb as (_ & Ht & _). lia.
Qed.

End EdgeFacBounds.

Lemma iter_poly_mesh_in_bounds_witness :
  exists data',
    extract_edge_fac_iter_poly_mesh 32 flat_factor two_triangles (mkMPoly 3 3) 1
      counting_data = Some data'.
Proof.
  apply (iter_poly_mesh_in_bounds 32 flat_factor two_triangles (mkMPoly 3 3) 1 counting_data).
  unfold poly_in_bounds; simpl.
  repeat (split; [lia|]).
  repeat constructor; simpl; lia.
Defined.

(** ** Loose edges *)

Lemma ledge_byte_index_in_range {V N : Type} (mr : MeshRenderData V N)
    (ledge_index k : Z) :
  0 <= loop_len mr -> 0 <= ledge_index -> 0 <= k ->
  loop_len mr + ledge_index * 2 + k <= INT_MAX ->
  ledge_byte_index mr ledge_index k = loop_len mr + ledge_index * 2 + k.
Proof.
  intros Hl Hi Hk Hmax. unfold ledge_byte_index.
  rewrite (to_int32_id (ledge_index * 2))
    by (unfold int32_range, INT_MIN, INT_MAX in *; lia).
  rewrite (to_int32_id (loop_len mr + ledge_index * 2))
    by (unfold int32_range, INT_MIN, INT_MAX in *; lia).
  apply to_int32_id. unfold int32_range, INT_MIN, INT_MAX in *. lia.
Qed.

(** X16.  [extract_edge_fac_iter_ledge_mesh] (and the BMesh variant, whose body
    is the same), for a non-negative [loop_len] and [ledge_index] whose byte
    indices [loop_len + ledge_index * 2 + 1] do not overflow an [int]: it
    stores 255 in the two bytes of loose edge [ledge_index], which lie behind
    the [loop_len] bytes of the polygons' loops; every other byte, in
    particular every byte of a loop, keeps its value, as do the mode and the
    count buffer.  A loose edge whose bytes lie beyond the buffer is an
    invalid access. *)
Theorem iter_ledge_mesh_effect {V N : Type} (mr : MeshRenderData V N)
    (ledge_index : Z) (data : MeshExtract_EdgeFac_Data) :
  0 <= loop_len mr ->
  0 <= ledge_index ->
  loop_len mr + ledge_index * 2 + 1 <= INT_MAX ->
  (loop_len mr + ledge_index * 2 + 1 < Z.of_nat (length (vbo_data data)) ->
   exists data',
     extract_edge_fac_iter_ledge_mesh mr ledge_index data = Some data'
     /\ array_get (vbo_data data') (loop_len mr + ledge_index * 2) = Some 255
     /\ array_get (vbo_data data') (loop_len mr + ledge_index * 2 + 1) = Some 255
     /\ (forall i, i <> loop_len mr + ledge_index * 2 ->
                   i <> loop_len mr + ledge_index * 2 + 1 ->
                   array_get (vbo_data data') i = array_get (vbo_data data) i)
     /\ (forall i, i < loop_len mr ->
                   array_get (vbo_data data') i = array_get (vbo_data data) i)
     /\ length (vbo_data data') = length (vbo_data data)
     /\ use_edge_render data' = use_edge_render data
     /\ edge_loop_count data' = edge_loop_count data)
  /\ (Z.of_nat (length (vbo_data data)) <= loop_len mr + ledge_index * 2 + 1 ->
      extract_edge_fac_iter_ledge_mesh mr ledge_index data = None).
Proof.
  intros Hl Hi Hmax. unfold extract_edge_fac_iter_ledge_mesh.
  rewrite (ledge_byte_index_in_range mr ledge_index 0) by lia.
  rewrite (ledge_byte_index_in_range mr ledge_index 1) by lia.
  rewrite Z.add_0_r. split.
  - intros Hin.
    destruct (array_set (vbo_data data) (loop_len mr + ledge_index * 2) 255)
      as [vbo1|] eqn:H1.
    2: { rewrite array_set_in_range in H1 by lia. discriminate. }
    pose proof (array_set_length _ _ _ _ H1) as Hlen1.
    destruct (array_set vbo1 (loop_len mr + ledge_index * 2 + 1) 255) as [vbo2|] eqn:H2.
    2: { rewrite array_set_in_range in H2 by lia. discriminate. }
    pose proof (array_set_length _ _ _ _ H2) as Hlen2.
    assert (Hframe : forall i, i <> loop_len mr + ledge_index * 2 ->
                               i <> loop_len mr + ledge_index * 2 + 1 ->
                               array_get vbo2 i = array_get (vbo_data data) i).
    { intros i Ha Hb.
      rewrite (array_get_set_ne _ _ _ i _ H2) by lia.
      apply (array_get_set_ne _ _ _ i _ H1). lia. }
    eexists. split; [reflexivity|]. simpl.
    split.
    { rewrite (array_get_set_ne _ _ _ _ _ H2) by lia.
      apply (array_get_set_eq _ _ _ _ H1). }
    split; [apply (array_get_set_eq _ _ _ _ H2)|].
    split; [exact Hframe|].
    split; [intros i Hlt; apply Hframe; lia|].
    split; [congruence|]. split; reflexivity.
  - intros Hout.
    destruct (array_set (vbo_data data) (loop_len mr + ledge_index * 2) 255)
      as [vbo1|] eqn:H1; [|reflexivity].
    pose proof (array_set_length _ _ _ _ H1) as Hlen1.
    destruct (array_set vbo1 (loop_len mr + ledge_index * 2 + 1) 255) as [vbo2|] eqn:H2;
      [|reflexivity].
    apply array_set_Some in H2 as (_ & Hlt & _). lia.
Qed.

(** Beyond that range the index wraps: with [loop_len = 6] and
    [ledge_index = INT_MAX] the two bytes written are bytes 4 and 5. *)
Lemma ledge_byte_index_wraps :
  ledge_byte_index two_triangles INT_MAX 0 = 4
  /\ ledge_byte_index two_triangles INT_MAX 1 = 5.
Proof. split; reflexivity. Qed.

Lemma iter_ledge_mesh_effect_witness :
  exists data',
    extract_edge_fac_iter_ledge_mesh two_triangles 0
      {| vbo_data := replicate 8 7; use_edge_render := true; edge_loop_count := [] |}
    = Some data'
    /\ array_get (vbo_data data') 6 = Some 255
    /\ array_get (vbo_data data') 5 = Some 7.
Proof.
  destruct (iter_ledge_mesh_effect two_triangles 0
              {| vbo_data := replicate 8 7; use_edge_render := true; edge_loop_count := [] |})
    as [Hin _]; [simpl; lia | lia | vm_compute; discriminate |].
  destruct (Hin ltac:(simpl; lia)) as (data' & Hrun & H6 & _ & _ & Hloops & _).
  exists data'. split; [exact Hrun|]. split; [exact H6|].
  rewrite (Hloops 5) by (simpl; lia). reflexivity.
Defined.

(** * The curve component *)

Section CurveComponentProperties.
Context {Spline : Type} `{SplineMembers Spline}.

(** ** The "cyclic" attribute *)

(** X17.  Writing the "cyclic" attribute stores the value, so that it reads
    back; when the spline already has that value the write changes nothing at
    all (the cache is not marked invalid), otherwise it marks the cache
    invalid; the resolution is never affected, and writing the same value
    twice is the same as writing it once. *)
Theorem cyclic_write_effect (spline : Spline) (value : bool) :
  get_cyclic_value (set_cyclic_value spline value) = value
  /\ (get_cyclic_value spline = value -> set_cyclic_value spline value = spline)
  /\ (get_cyclic_value spline <> value ->
      cache_invalid (set_cyclic_value spline value) = true)
  /\ resolution (set_cyclic_value spline value) = resolution spline
  /\ set_cyclic_value (set_cyclic_value spline value) value = set_cyclic_value spline value.
Proof.
  unfold get_cyclic_value.
  assert (Hget : is_cyclic (set_cyclic_value spline value) = value).
  { unfold set_cyclic_value. case_bool_decide; [assumption|].
    now rewrite is_cyclic_mark_cache_invalid, is_cyclic_assign. }
  split; [exact Hget|]. split.
  { intros Heq. unfold set_cyclic_value. now rewrite bool_decide_true. }
  split.
  { intros Hne. unfold set_cyclic_value. rewrite bool_decide_false by assumption.
    apply cache_invalid_mark. }
  split.
  { unfold set_cyclic_value. case_bool_decide; [reflexivity|].
    now rewrite resolution_mark_cache_invalid, resolution_assign_is_cyclic. }
  unfold set_cyclic_value at 1. now rewrite bool_decide_true.
Qed.

(** ** Ownership *)

Lemma curve_copy_fresh (p : positive) (h : CurveHeap (Spline := Spline)) (cv : DCurve) :
  h !! p = Some cv ->
  exists p', curve_copy p h = Some (p', <[ p' := cv ]> h) /\ h !! p' = None /\ p' <> p.
Proof.
  intros Hp. unfold curve_copy. unfold CurveHeap in *. rewrite Hp.
  exists (fresh (dom h)). split; [reflexivity|].
  assert (Hfresh : h !! fresh (dom h) = None).
  { apply not_elem_of_dom. apply is_fresh. }
  split; [assumption|]. intros E. rewrite E in Hfresh. congruence.
Qed.

(** X18.  [clear] leaves the component without a curve whatever it held.  It
    frees the curve exactly when the component owned it: the heap loses that
    one curve and nothing else; a component that did not own its curve, or had
    none, leaves the heap as it is.  Clearing again does nothing, and every
    domain of a cleared component has size 0. *)
Theorem clear_frees_owned_only (c c' : CurveComponent) (h h' : CurveHeap (Spline := Spline))
    (domain : AttributeDomain) :
  clear c h = Some (c', h') ->
  is_empty c' = true
  /\ has_curve c' = false
  /\ ownership_ c' = ownership_ c
  /\ (forall p, curve_ c = Some p -> ownership_ c = Owned ->
        h' !! p = None /\ forall q, q <> p -> h' !! q = h !! q)
  /\ (curve_ c = None \/ ownership_ c <> Owned -> h' = h)
  /\ clear c' h' = Some (c', h')
  /\ attribute_domain_size domain c' h' = Some 0.
Proof.
  unfold clear, attribute_domain_size, curve_delete. unfold CurveHeap in *.
  destruct c as [[p|] o]; simpl.
  - destruct o; simpl.
    + destruct (h !! p) as [cv|] eqn:Hp; [|discriminate].
      intros [= <- <-]. simpl.
      split; [reflexivity|]. split; [reflexivity|]. split; [reflexivity|]. split.
      { intros q [= <-] _. split; [apply lookup_delete_eq|].
        intros q Hq. now apply lookup_delete_ne. }
      split; [intros [?|?]; congruence|]. split; reflexivity.
    + intros [= <- <-]. simpl.
      split; [reflexivity|]. split; [reflexivity|]. split; [reflexivity|].
      split; [discriminate|]. split; [reflexivity|]. split; reflexivity.
    + intros [= <- <-]. simpl.
      split; [reflexivity|]. split; [reflexivity|]. split; [reflexivity|].
      split; [discriminate|]. split; [reflexivity|]. split; reflexivity.
  - intros [= <- <-]. simpl.
    split; [reflexivity|]. split; [reflexivity|]. split; [reflexivity|].
    split; [discriminate|]. split; [reflexivity|]. split; reflexivity.
Qed.

(** X19.  [get_for_write] on a component that holds a live curve read-only hands
    out a copy: a curve at an address that was not in use, equal to the
    original, which the component now owns; the original and every other curve
    in the heap stay as they were.  Asking again returns the same copy, and
    clearing the component afterwards frees the copy, not the original.  A
    read-only component without a curve cannot be written to at all:
    [curve_->copy()] has no curve to copy. *)
Theorem get_for_write_copies_read_only (c : CurveComponent)
    (h : CurveHeap (Spline := Spline)) (p : positive) (cv : DCurve) :
  curve_ c = Some p ->
  ownership_ c = ReadOnly ->
  h !! p = Some cv ->
  exists p' c' h',
    get_for_write c h = Some (Some p', c', h')
    /\ p' <> p
    /\ h !! p' = None
    /\ h' !! p' = Some cv
    /\ (forall q, q <> p' -> h' !! q = h !! q)
    /\ c' = {| curve_ := Some p'; ownership_ := Owned |}
    /\ get_for_write c' h' = Some (Some p', c', h')
    /\ clear c' h' = Some ({| curve_ := None; ownership_ := Owned |}, h)
    /\ get_for_write {| curve_ := None; ownership_ := ReadOnly |} h = None.
Proof.
  unfold CurveHeap in *.
  intros Hc Ho Hp. destruct (curve_copy_fresh p h cv Hp) as (p' & Hcopy & Hfree & Hne).
  exists p', {| curve_ := Some p'; ownership_ := Owned |}, (<[ p' := cv ]> h).
  split.
  { unfold get_for_write. now rewrite Ho, Hc, Hcopy. }
  split; [assumption|]. split; [assumption|].
  split; [apply lookup_insert_eq|].
  split; [intros q Hq; now apply lookup_insert_ne|].
  split; [reflexivity|]. split; [reflexivity|].
  split; [|reflexivity].
  unfold clear, curve_delete. unfold CurveHeap in *. simpl. rewrite lookup_insert_eq.
  rewrite delete_insert_eq. now rewrite delete_id.
Qed.

End CurveComponentProperties.

Lemma cyclic_write_effect_witness :
  set_cyclic_value (mkMemberSpline 12 true 4 false) true = mkMemberSpline 12 true 4 false
  /\ cache_invalid (set_cyclic_value (mkMemberSpline 12 true 4 false) false) = true.
Proof.
  destruct (cyclic_write_effect (mkMemberSpline 12 true 4 false) true) as (_ & Hsame & _).
  destruct (cyclic_write_effect (mkMemberSpline 12 true 4 false) false) as (_ & _ & Hdiff & _).
  split; [apply Hsame; reflexivity | apply Hdiff; discriminate].
Defined.

Lemma clear_frees_owned_only_witness :
  exists c' h',
    clear owning_component example_heap = Some (c', h')
    /\ is_empty c' = true
    /\ (h' : gmap positive DCurve) !! 1%positive = None.
Proof.
  destruct (clear owning_component example_heap) as [[c' h']|] eqn:E.
  2: { vm_compute in E. discriminate. }
  exists c', h'. split; [reflexivity|].
  destruct (clear_frees_owned_only _ _ _ _ ATTR_DOMAIN_POINT E) as (He & _ & _ & Hfree & _).
  split; [exact He|]. apply (Hfree 1%positive); reflexivity.
Defined.

Lemma get_for_write_copies_read_only_witness :
  exists p' c' h',
    get_for_write borrowing_component example_heap = Some (Some p', c', h')
    /\ p' <> 1%positive
    /\ (h' : gmap positive DCurve) !! 1%positive = Some example_curve
    /\ (h' : gmap positive DCurve) !! p' = Some example_curve.
Proof.
  destruct (get_for_write_copies_read_only borrowing_component example_heap
              1%positive example_curve eq_refl eq_refl eq_refl)
    as (p' & c' & h' & Hget & Hne & _ & Hcopy & Hrest & _).
  exists p', c', h'. split; [exact Hget|]. split; [exact Hne|].
  split; [|exact Hcopy].
  exact (eq_trans (Hrest 1%positive (not_eq_sym Hne)) eq_refl).
Defined.


Section CurveAttributeProperties.
Context {Spline : Type} `{SplineMembers Spline}.

(** ** Writing the resolution through a component *)

Lemma resolution_after_set (s : Spline) (r : Z) :
  resolution (set_spline_resolution s r) = Z.max r 1.
Proof.
  unfold set_spline_resolution.
  now rewrite resolution_mark_cache_invalid, resolution_set_resolution.
Qed.

Lemma resolution_write_read (p : positive) (h : CurveHeap (Spline := Spline))
    (cv : DCurve) (s : Spline) (i : nat) (r : Z) :
  h !! p = Some cv ->
  splines cv !! i = Some s ->
  exists h',
    resolution_write p i r h = Some h'
    /\ resolution_read p i h' = Some (Z.max r 1)
    /\ (forall j, j <> i -> resolution_read p j h' = resolution_read p j h)
    /\ (forall q, q <> p -> h' !! q = h !! q).
Proof.
  intros Hp Hs. unfold resolution_write, resolution_read.
  unfold resolution_attribute_set, resolution_attribute_get,
    derived_array_set, derived_array_get.
  unfold CurveHeap in *. rewrite Hp, Hs.
  eexists. split; [reflexivity|]. split; [|split].
  - rewrite lookup_insert_eq. simpl.
    rewrite list_lookup_insert_eq by now apply lookup_lt_Some in Hs.
    simpl. unfold get_spline_resolution. now rewrite resolution_after_set.
  - intros j Hj. rewrite lookup_insert_eq. simpl.
    now rewrite list_lookup_insert_ne by congruence.
  - intros q Hq. now apply lookup_insert_ne.
Qed.

(** X20.  Write access to the "resolution" attribute of a component that holds a
    live curve always succeeds; the value written at a valid index reads back
    as [max(r, 1)] and the other splines keep their resolution.  When the
    component held the curve read-only, the write goes to the component's own
    copy and the original curve is left exactly as it was; otherwise it goes
    to the curve itself.  The "length" attribute, which is read-only, gives no
    write access and leaves component and heap untouched. *)
Theorem resolution_write_through_component (c : CurveComponent)
    (h : CurveHeap (Spline := Spline)) (p : positive) (cv : DCurve) (s : Spline)
    (i : nat) (r : Z) :
  curve_ c = Some p ->
  h !! p = Some cv ->
  splines cv !! i = Some s ->
  (exists p' c' h' h'',
     try_get_for_write resolution_provider c h = Some (Some p', c', h')
     /\ try_get_for_read c' = Some p'
     /\ resolution_write p' i r h' = Some h''
     /\ resolution_read p' i h'' = Some (Z.max r 1)
     /\ (forall j, j <> i -> resolution_read p' j h'' = resolution_read p j h)
     /\ (ownership_ c = ReadOnly ->
         p' <> p /\ h'' !! p = Some cv /\ resolution_read p i h'' = Some (resolution s))
     /\ (ownership_ c <> ReadOnly -> p' = p /\ c' = c /\ h' = h))
  /\ try_get_for_write length_provider c h = Some (None, c, h).
Proof.
  intros Hc Hp Hs. split; [|reflexivity].
  unfold try_get_for_write, resolution_provider. simpl.
  destruct (decide (ownership_ c = ReadOnly)) as [Ho|Ho].
  - destruct (curve_copy_fresh p h cv Hp) as (p' & Hcopy & Hfree & Hne).
    assert (Hp' : (<[ p' := cv ]> h : CurveHeap) !! p' = Some cv).
    { unfold CurveHeap. apply lookup_insert_eq. }
    destruct (resolution_write_read p' (<[ p' := cv ]> h) cv s i r Hp' Hs)
      as (h'' & Hw & Hr & Hother & Hframe).
    exists p', {| curve_ := Some p'; ownership_ := Owned |}, (<[ p' := cv ]> h), h''.
    split; [unfold get_for_write; now rewrite Ho, Hc, Hcopy|].
    split; [reflexivity|]. split; [assumption|]. split; [assumption|].
    assert (Hold : h'' !! p = Some cv).
    { rewrite Hframe by congruence. unfold CurveHeap in *.
      now rewrite lookup_insert_ne by congruence. }
    split; [|split].
    + intros j Hj. rewrite (Hother j Hj). unfold resolution_read.
      unfold CurveHeap in *. now rewrite lookup_insert_eq, Hp.
    + intros _. split; [assumption|]. split; [assumption|].
      unfold resolution_read. unfold CurveHeap in *. rewrite Hold.
      unfold resolution_attribute_get, derived_array_get. now rewrite Hs.
    + contradiction.
  - destruct (resolution_write_read p h cv s i r Hp Hs) as (h'' & Hw & Hr & Hother & Hframe).
    exists p, c, h, h''.
    split.
    { unfold get_for_write. rewrite Hc. destruct (ownership_ c); congruence. }
    split; [exact Hc|]. split; [assumption|]. split; [assumption|].
    split; [assumption|]. split; [contradiction|]. auto.
Qed.

(** ** Sizes of the attribute domains *)



End CurveAttributeProperties.

Lemma resolution_write_through_component_witness :
  exists p' c' h' h'',
    try_get_for_write resolution_provider borrowing_component example_heap
    = Some (Some p', c', h')
    /\ resolution_write p' 0%nat 0 h' = Some h''
    /\ resolution_read p' 0%nat h'' = Some 1
    /\ resolution_read 1%positive 0%nat h'' = Some 12.
Proof.
  destruct (resolution_write_through_component borrowing_component example_heap
              1%positive example_curve (mkMemberSpline 12 false 4 false) 0%nat 0
              eq_refl eq_refl eq_refl)
    as ((p' & c' & h' & h'' & Hget & _ & Hw & Hr & _ & Hro & _) & _).
  exists p', c', h', h''. split; [exact Hget|]. split; [exact Hw|]. split; [exact Hr|].
  destruct (Hro eq_refl) as (_ & _ & Horig). exact Horig.
Defined.


Section CurveOwnershipProperties.
Context {Spline : Type} `{SplineMembers Spline}.

(** ** Handing curves in and out *)

(** X22.  [ensure_owns_direct_data] makes the component the owner of the very
    curve it holds: the curve is not copied (that line is commented out), so
    afterwards writes go to that curve in place and [clear] frees it, whatever
    the ownership was before. *)
Theorem ensure_owns_direct_data_takes_over (c : CurveComponent)
    (h : CurveHeap (Spline := Spline)) (p : positive) (cv : DCurve) :
  curve_ c = Some p ->
  h !! p = Some cv ->
  owns_direct_data (ensure_owns_direct_data c) = true
  /\ get_for_read (ensure_owns_direct_data c) = Some p
  /\ ensure_owns_direct_data (ensure_owns_direct_data c) = ensure_owns_direct_data c
  /\ get_for_write (ensure_owns_direct_data c) h
     = Some (Some p, ensure_owns_direct_data c, h)
  /\ clear (ensure_owns_direct_data c) h
     = Some ({| curve_ := None; ownership_ := Owned |}, delete p (h : gmap positive DCurve)).
Proof.
  intros Hc Hp. destruct c as [cp o]. simpl in Hc. subst cp.
  unfold ensure_owns_direct_data, owns_direct_data, get_for_write, clear, curve_delete.
  unfold CurveHeap in *.
  destruct o; simpl; rewrite ?Hp; repeat split; reflexivity.
Qed.

(** X23.  [copy] of a component that holds a live curve gives a component that
    owns an equal curve at an address of its own; the original curve stays in
    place.  Clearing the copy gives back the heap as it was before the copy,
    and clearing the original leaves the copy's curve alive.  The copy of a
    component without a curve has no curve and allocates nothing. *)
Theorem component_copy_independent (default_ownership : GeometryOwnershipType)
    (c : CurveComponent) (h : CurveHeap (Spline := Spline)) :
  (curve_ c = None ->
   component_copy default_ownership c h
   = Some ({| curve_ := None; ownership_ := default_ownership |}, h))
  /\ (forall p cv,
        curve_ c = Some p -> h !! p = Some cv ->
        exists p2 h2,
          component_copy default_ownership c h
          = Some ({| curve_ := Some p2; ownership_ := Owned |}, h2)
          /\ p2 <> p
          /\ h !! p2 = None
          /\ h2 !! p2 = Some cv
          /\ h2 !! p = Some cv
          /\ clear {| curve_ := Some p2; ownership_ := Owned |} h2
             = Some ({| curve_ := None; ownership_ := Owned |}, h)
          /\ (forall c' h', clear c h2 = Some (c', h') -> h' !! p2 = Some cv)).
Proof.
  split.
  - intros Hc. unfold component_copy. now rewrite Hc.
  - intros p cv Hc Hp.
    destruct (curve_copy_fresh p h cv Hp) as (p2 & Hcopy & Hfree & Hne).
    exists p2, (<[ p2 := cv ]> h). unfold CurveHeap in *.
    split; [unfold component_copy; now rewrite Hc, Hcopy|].
    split; [assumption|]. split; [assumption|].
    split; [apply lookup_insert_eq|].
    split; [now rewrite lookup_insert_ne by congruence|].
    split.
    { unfold clear, curve_delete. unfold CurveHeap in *. simpl.
      rewrite lookup_insert_eq, delete_insert_eq. now rewrite delete_id. }
    intros c' h'. unfold clear, curve_delete. unfold CurveHeap in *. rewrite Hc.
    destruct (ownership_ c).
    + rewrite lookup_insert_ne by congruence. rewrite Hp.
      intros [= <- <-]. rewrite lookup_delete_ne by congruence. apply lookup_insert_eq.
    + intros [= <- <-]. apply lookup_insert_eq.
    + intros [= <- <-]. apply lookup_insert_eq.
Qed.

End CurveOwnershipProperties.

Lemma ensure_owns_direct_data_takes_over_witness :
  owns_direct_data (ensure_owns_direct_data borrowing_component) = true
  /\ get_for_read (ensure_owns_direct_data borrowing_component) = Some 1%positive.
Proof.
  destruct (ensure_owns_direct_data_takes_over borrowing_component example_heap
              1%positive example_curve eq_refl eq_refl) as (Hown & Hread & _).
  split; [exact Hown | exact Hread].
Defined.

Lemma component_copy_independent_witness :
  exists p2 h2,
    component_copy Owned owning_component example_heap
    = Some ({| curve_ := Some p2; ownership_ := Owned |}, h2)
    /\ p2 <> 1%positive
    /\ (h2 : gmap positive DCurve) !! 1%positive = Some example_curve.
Proof.
  destruct (component_copy_independent Owned owning_component example_heap) as [_ Hlive].
  destruct (Hlive 1%positive example_curve eq_refl eq_refl)
    as (p2 & h2 & Hcopy & Hne & _ & _ & Horig & _).
  exists p2, h2. split; [exact Hcopy|]. split; [exact Hne | exact Horig].
Defined.
